(** * Screenshot-to-markup pipeline: segmentation and layout core

    A shallow embedding of the image segmentation and layout
    reconstruction code of the converter, with the properties stated
    about it.

    The code:
    - [Segmentation]: image_segmentation/helper.py
      (separation_line_detection, enhanced_image_segmentation,
      get_content_sections);
    - [Tree], [Layout]: the component trees of
      description_generation/helper.py and its layout synthesizer
      (process_component_structure, _process_component,
      _process_media_element, _determine_positioning,
      _has_overlap_with_siblings);
    - [Hierarchy]: convert_json_structure, _find_parent_index and
      _is_contained_within of the same file;
    - [Colors]: _fallback_extract_colors of the same file;
    - [Text], [Json]: the string, regular-expression and JSON library
      calls that the parser makes;
    - [Bbox]: bbox/helper.py (parse_gemini_response,
      filter_nested_elements);
    - [Float64]: the double-precision arithmetic of the percentage
      expression of _process_component, bit for bit, to measure how far
      the exact percentages of [Layout] are from the stored ones.

    The properties follow in the modules [SegmentationFacts],
    [LayoutFacts], [HierarchyFacts], [ColorsFacts], [JsonFacts] and
    [BboxFacts].

    Conventions.  Python integers are [Z].  Quantities that the source
    computes in double precision (means, variances, confidences,
    percentages, decoded numbers) are kept as exact rationals [Q]; every
    comparison of the source is the same comparison on these rationals.
    A Python exception is the value [None] of an [option] result, unless
    a result type says otherwise. *)

From Stdlib Require Import String Ascii DecimalString DecimalNat.
From Stdlib Require Import ZArith QArith Qround Qabs Qpower Lqa List Bool Lia Arith.
From Stdlib Require Import Sorting.Sorted Sorting.Permutation.
Import ListNotations.

Local Open Scope string_scope.
Local Open Scope list_scope.
Local Open Scope Z_scope.

(** ** Shared helpers *)

(** The error monad used for code that may raise. *)
Definition obind {A B : Type} (c : option A) (f : A -> option B) : option B :=
  match c with
  | Some a => f a
  | None => None
  end.

Notation "x <- c ;; k" := (obind c (fun x => k))
  (at level 61, c at next level, right associativity).

Fixpoint omap_list {A B : Type} (f : A -> option B) (l : list A) : option (list B) :=
  match l with
  | [] => Some []
  | a :: t =>
      b <- f a ;;
      bs <- omap_list f t ;;
      Some (b :: bs)
  end.

Definition Qltb (a b : Q) : bool := negb (Qle_bool b a).

(** [list.sort()] on integers: ascending insertion sort. *)
Fixpoint insert_pos (p : Z) (l : list Z) : list Z :=
  match l with
  | [] => [p]
  | q :: t => if p <=? q then p :: q :: t else q :: insert_pos p t
  end.

Definition sort_pos (l : list Z) : list Z := fold_right insert_pos [] l.

(** ** Separation-line detector and multi-signal segmenter *)

Module Segmentation.

(** A grayscale image as produced by [np.array(img.convert("L"))]: rows
    of 8-bit pixels, each in [0, 255]. *)
Definition row := list Z.
Definition image := list row.

(** A cut-line candidate [(pos, confidence)]. *)
Definition candidate := (Z * Q)%type.

(** Subtraction of two [uint8] values in NumPy: the result is again a
    [uint8], so it wraps modulo 256. *)
Definition u8_sub (a b : Z) : Z := (a - b) mod 256.

(** [np.abs] on a [uint8] array leaves every (already non-negative)
    element as it is. *)
Definition u8_abs (a : Z) : Z := a.

Fixpoint zip_with {A B C : Type} (f : A -> B -> C) (l : list A) (m : list B) : list C :=
  match l, m with
  | a :: l', b :: m' => f a b :: zip_with f l' m'
  | _, _ => []
  end.

(** [np.abs(outside - edge)] for two rows of the array. *)
Definition row_diff (outside edge : row) : row :=
  map u8_abs (zip_with u8_sub outside edge).

Definition sumZ (l : list Z) : Z := fold_right Z.add 0 l.

Definition sumQ (l : list Q) : Q := fold_right Qplus (0#1)%Q l.

(** [np.mean] of an integer array.  An image has at least one column;
    for an empty array NumPy gives NaN, the model 0. *)
Definition mean (l : list Z) : Q :=
  (inject_Z (sumZ l) / inject_Z (Z.of_nat (length l)))%Q.

(** [np.mean(diff > thr)]: the fraction of entries above the threshold. *)
Definition portion_above (thr : Q) (l : list Z) : Q :=
  (inject_Z (Z.of_nat (length (filter (fun v => Qltb thr (inject_Z v)) l)))
   / inject_Z (Z.of_nat (length l)))%Q.

(** [np.var] of the window: population variance over all its pixels. *)
Definition variance (window : list row) : Q :=
  let px := concat window in
  let m := mean px in
  let n := inject_Z (Z.of_nat (length px)) in
  (sumQ (map (fun v => (inject_Z v - m) * (inject_Z v - m)) px) / n)%Q.

(** The border test of lines 57-60 and 63-67. *)
Definition is_border (diff : row) (diff_thr portion_thr : Q) : bool :=
  Qltb diff_thr (mean diff) && Qltb portion_thr (portion_above diff_thr diff).

Definition Qmax (a b : Q) : Q := if Qltb a b then b else a.

(** [window[0]] and [window[-1]]: an empty window raises [IndexError]. *)
Definition window_first (window : list row) : option row := hd_error window.
Definition window_last (window : list row) : option row := hd_error (rev window).

(** One iteration of the scanning loop at row index [i] (lines 46-87).
    The result is [None] when the iteration raises, [Some None] when no
    candidate is appended, [Some (Some c)] when [c] is appended. *)
Definition scan_row (img : image) (var_thr diff_thr portion_thr : Q)
    (window_size : nat) (i : nat) : option (option candidate) :=
  let img_height := Z.of_nat (length img) in
  upper <- nth_error img (i - window_size - 1) ;;
  let window := firstn window_size (skipn (i - window_size) img) in
  lower <- nth_error img i ;;
  let is_blank := Qltb (variance window) var_thr in
  w0 <- window_first window ;;
  let diff_top := row_diff upper w0 in
  let is_border_top := is_border diff_top diff_thr portion_thr in
  wl <- window_last window ;;
  let diff_bottom := row_diff lower wl in
  let is_border_bottom := is_border diff_bottom diff_thr portion_thr in
  if is_blank && (is_border_top || is_border_bottom) then
    let pos := if is_border_bottom then Z.of_nat i
               else Z.of_nat i - Z.of_nat window_size in
    let confidence := Qmax (mean diff_top) (mean diff_bottom) in
    let edge_proximity :=
      (inject_Z (Z.min pos (img_height - pos)) / inject_Z img_height)%Q in
    let confidence :=
      if Qltb edge_proximity (5#100) then (confidence * (15#10))%Q
      else confidence in
    Some (Some (pos, confidence))
  else Some None.

(** [range(window_size + 1, len(img) - window_size - 1)]. *)
Definition scan_range (img : image) (window_size : nat) : list nat :=
  seq (window_size + 1) (length img - window_size - 1 - (window_size + 1)).

Fixpoint scan_rows (img : image) (var_thr diff_thr portion_thr : Q)
    (window_size : nat) (rows : list nat) : option (list candidate) :=
  match rows with
  | [] => Some []
  | i :: rest =>
      c <- scan_row img var_thr diff_thr portion_thr window_size i ;;
      cs <- scan_rows img var_thr diff_thr portion_thr window_size rest ;;
      Some (match c with Some x => x :: cs | None => cs end)
  end.

Definition candidate_lines (img : image) (var_thr diff_thr portion_thr : Q)
    (window_size : nat) : option (list candidate) :=
  scan_rows img var_thr diff_thr portion_thr window_size (scan_range img window_size).

(** [candidate_lines.sort(key=lambda x: x[1], reverse=True)]: a stable
    sort by confidence, highest first.  An element is placed before the
    first element whose confidence is not strictly greater than its own,
    so that candidates of equal confidence keep their relative order. *)
Fixpoint insert_conf (c : candidate) (l : list candidate) : list candidate :=
  match l with
  | [] => [c]
  | d :: t => if Qltb (snd c) (snd d) then d :: insert_conf c t else c :: d :: t
  end.

Definition sort_by_confidence (l : list candidate) : list candidate :=
  fold_right insert_conf [] l.

(** [all(abs(pos - existing_pos) >= d for existing_pos in selected)]. *)
Definition far_enough (d pos : Z) (selected : list Z) : bool :=
  forallb (fun existing_pos => d <=? Z.abs (pos - existing_pos)) selected.

(** The greedy acceptance loop (lines 99-105 and 125-130), started from
    the lines already in [selected]. *)
Fixpoint greedy (d : Z) (selected : list Z) (cands : list candidate) : list Z :=
  match cands with
  | [] => selected
  | (pos, _) :: rest =>
      if far_enough d pos selected then greedy d (selected ++ [pos]) rest
      else greedy d selected rest
  end.

(** The first selection pass and the adaptive second pass. *)
Definition first_pass (cands : list candidate) (min_line_distance : Z) : list Z :=
  sort_pos (greedy min_line_distance [] (sort_by_confidence cands)).

Definition second_pass (cands : list candidate) (min_line_distance : Z) : list Z :=
  match sort_by_confidence cands with
  | [] => []
  | (top_line, _) :: rest =>
      let adaptive_min_distance := min_line_distance / 2 in
      sort_pos (greedy adaptive_min_distance [top_line] rest)
  end.

(** Lines 89-135: selection among the candidates. *)
Definition select_lines (cands : list candidate) (min_line_distance : Z) : list Z :=
  match cands with
  | [] => []
  | _ =>
      let selected_lines := first_pass cands min_line_distance in
      if (3 <=? length selected_lines)%nat then selected_lines
      else second_pass cands min_line_distance
  end.

(** The minimum distance a pass of [select_lines] enforces. *)
Definition effective_distance (cands : list candidate) (min_line_distance : Z) : Z :=
  if (3 <=? length (first_pass cands min_line_distance))%nat then min_line_distance
  else min_line_distance / 2.

(** [int(img_height * 0.03)] and [int(img_height * 0.05)]: the integer
    part of three and of five hundredths of the height. *)
Definition percent_of (pct img_height : Z) : Z := (img_height * pct) / 100.

Definition separation_line_detection (img : image)
    (var_thr diff_thr portion_thr : Q) (window_size : nat)
    (min_line_distance : Z) : option (list Z) :=
  let img_height := Z.of_nat (length img) in
  let min_line_distance :=
    if min_line_distance <=? 0 then percent_of 3 img_height
    else min_line_distance in
  cands <- candidate_lines img var_thr diff_thr portion_thr window_size ;;
  Some (select_lines cands min_line_distance).

(** [any(abs(line - x) < min_line_distance / 2 for x in others)]; the
    division is a true division, so the test is on doubled integers. *)
Definition near_any (min_line_distance line : Z) (others : list Z) : bool :=
  existsb (fun x => 2 * Z.abs (line - x) <? min_line_distance) others.

(** The greedy loop of stage 3, which skips candidates under the
    confidence threshold. *)
Fixpoint greedy_thr (thr : Q) (d : Z) (selected : list Z) (cands : list candidate)
    : list Z :=
  match cands with
  | [] => selected
  | (pos, conf) :: rest =>
      if Qltb conf thr then greedy_thr thr d selected rest
      else if far_enough d pos selected then greedy_thr thr d (selected ++ [pos]) rest
      else greedy_thr thr d selected rest
  end.

(** Adjacent pairs of a boundary list. *)
Fixpoint adjacent_pairs (l : list Z) : list (Z * Z) :=
  match l with
  | a :: (b :: _) as t => (a, b) :: adjacent_pairs t
  | _ => []
  end.

Definition get_content_sections (img_height : Z) (lines : list Z) : list (Z * Z) :=
  let all_boundaries := [0] ++ lines ++ [img_height] in
  adjacent_pairs all_boundaries.

Definition effective_min_distance (img_height min_line_distance : Z) : Z :=
  if min_line_distance <=? 0 then percent_of 5 img_height else min_line_distance.

(** Stage 2: the pooled, confidence-scored candidates. *)
Definition all_candidates (min_line_distance : Z)
    (lines_1 blank_regions color_regions : list Z) : list candidate :=
  map (fun line => (line, 8#10)%Q) lines_1
  ++ map (fun line =>
            (line, if near_any min_line_distance line lines_1 then (9#10)%Q
                   else (7#10)%Q)) blank_regions
  ++ map (fun line =>
            (line, if near_any min_line_distance line lines_1 then (9#10)%Q
                   else if near_any min_line_distance line blank_regions
                        then (75#100)%Q
                   else (6#10)%Q)) color_regions.

(** [enhanced_image_segmentation].  [img] is the grayscale image;
    [blank_regions] and [color_regions] are what the two external
    detectors [find_height_spliter] and [color_height_spliter] return
    for it. *)
Definition enhanced_image_segmentation (img : image)
    (blank_regions color_regions : list Z)
    (confidence_threshold : Q) (min_line_distance : Z)
    (blank_var_thr blank_diff_thr blank_portion_thr : Q) (window_size : nat)
    : option (list Z * list (Z * Z)) :=
  let img_height := Z.of_nat (length img) in
  let min_line_distance := effective_min_distance img_height min_line_distance in
  lines_1 <- separation_line_detection img blank_var_thr blank_diff_thr
               blank_portion_thr window_size min_line_distance ;;
  let cands :=
    sort_by_confidence
      (all_candidates min_line_distance lines_1 blank_regions color_regions) in
  let selected_lines :=
    sort_pos (greedy_thr confidence_threshold min_line_distance [] cands) in
  Some (selected_lines, get_content_sections img_height selected_lines).

(** Two positions are [d] apart. *)
Definition apart (d : Z) (a b : Z) : Prop := d <= Z.abs (a - b).

(** Row [y] lies in the section [(y_min, y_max)], which stands for the
    rows [y_min <= y < y_max] (the slice [img[y_min:y_max]]). *)
Definition holds_row (y : Z) (s : Z * Z) : bool := (fst s <=? y) && (y <? snd s).

(** Confidence order of the sorted candidate list: highest first. *)
Definition conf_ge (a b : candidate) : Prop := (snd b <= snd a)%Q.

(** The per-column absolute intensity difference, as the specification
    words it. *)
Definition abs_diff (outside edge : row) : row :=
  zip_with (fun a b => Z.abs (a - b)) outside edge.

(** A 23-row, one-column image: a row of intensity 10 above 22 rows of
    intensity 20. *)
Definition dark_over_light : image := [10] :: repeat [20] 22.

(** Four candidates of which the first pass keeps three, and three
    candidates of which it keeps two. *)
Definition four_candidates : list candidate :=
  [(100, 5%Q); (150, 9%Q); (400, 2%Q); (800, 7%Q)].

Definition three_candidates : list candidate :=
  [(100, 5%Q); (150, 9%Q); (800, 7%Q)].

End Segmentation.


(** ** Strings *)

(** [str.lower()] on characters with code points below 256: the
    letters A-Z and the accented capitals U+00C0-U+00DE (without the
    multiplication sign U+00D7) move up by 32. *)
Definition lower_ascii (c : ascii) : ascii :=
  let n := nat_of_ascii c in
  if ((65 <=? n) && (n <=? 90)
      || (192 <=? n) && (n <=? 222) && negb (n =? 215))%nat
  then ascii_of_nat (n + 32) else c.

Fixpoint lower (s : string) : string :=
  match s with
  | EmptyString => EmptyString
  | String c t => String (lower_ascii c) (lower t)
  end.

(** [x in [s1, ..., sn]] for strings. *)
Definition str_in (s : string) (l : list string) : bool :=
  existsb (String.eqb s) l.

(** [str(n)] for a natural number. *)
Definition string_of_nat (n : nat) : string :=
  DecimalString.NilEmpty.string_of_uint (Nat.to_uint n).

(** ** Component trees

    The dictionaries that description_generation/helper.py builds and
    annotates.  A key that the code tests with [in] or reads with
    [.get] is an [option] field. *)

Module Tree.

(** ["coordinates": {"y1", "x1", "y2", "x2"}], each key read with
    [.get(key, 0)]. *)
Record Coordinates := {
  y1 : option Z;
  x1 : option Z;
  y2 : option Z;
  x2 : option Z
}.

Definition get0 (v : option Z) : Z :=
  match v with Some z => z | None => 0 end.

(** The empty dictionary [{}], which is falsy. *)
Definition no_coordinates : Coordinates :=
  {| y1 := None; x1 := None; y2 := None; x2 := None |}.

Definition is_empty_dict (c : Coordinates) : bool :=
  match y1 c, x1 c, y2 c, x2 c with
  | None, None, None, None => true
  | _, _, _, _ => false
  end.

Inductive positioning := Absolute | Relative.

(** The entries of the [tailwind_classes] list before they are joined
    with spaces: ["absolute"], ["relative"], [f"w-[{p}%]"], ... *)
Inductive tw_class :=
| TwPosition (p : positioning)
| TwWidthPercent (p : Q)
| TwHeightPercent (p : Q)
| TwTopPercent (p : Q)
| TwBottomPercent (p : Q)
| TwLeftPercent (p : Q)
| TwRightPercent (p : Q)
| TwWidthPx (p : Z)
| TwHeightPx (p : Z)
| TwTopPx (p : Z)
| TwLeftPx (p : Z).

(** [{"width": str(width), "height": str(height), "colorPalette": []}]. *)
Record Styles := {
  width : Z;
  height : Z;
  colorPalette : list string
}.

(** [{"top", "right", "bottom", "left"}], percentages or pixels. *)
Record Offsets (A : Type) := {
  top : A;
  right : A;
  bottom : A;
  left : A
}.
Arguments top {A}.
Arguments right {A}.
Arguments bottom {A}.
Arguments left {A}.

(** The layout record of a component. *)
Record LayoutInfo := {
  percent_position_parent : Offsets Q;
  percent_position_body : Offsets Q;
  tailwind_classes : list tw_class
}.

(** The layout record of a media item. *)
Record MediaLayout := {
  position_parent : Offsets Z;
  position_body : Offsets Z;
  media_tailwind_classes : list tw_class
}.

Record MediaCoordinates := {
  y_min : Z;
  x_min : Z;
  y_max : Z;
  x_max : Z
}.

(** A media tracking entry. *)
Record MediaRef := {
  original_label : string;
  media_coordinates : option MediaCoordinates;
  file_path : string;
  media_type : string;
  media_styles : option Styles;
  media_layout : option MediaLayout
}.

Record Content := {
  text : string;
  media : option (list MediaRef)
}.

(** The ["description"] dictionary of a component, over the type of its
    children. *)
Record Description (C : Type) := {
  description_type : string;
  description_text : string;
  content : option Content;
  children : option (list C);
  styles : option Styles;
  layout : option LayoutInfo
}.
Arguments description_type {C}.
Arguments description_text {C}.
Arguments content {C}.
Arguments children {C}.
Arguments styles {C}.
Arguments layout {C}.

#[warnings="-register-all"]
Inductive Component :=
| MkComponent (id : option string) (type : option string)
    (coordinates : option Coordinates)
    (description : option (Description Component)).

Definition id (c : Component) : option string :=
  match c with MkComponent i _ _ _ => i end.
Definition type (c : Component) : option string :=
  match c with MkComponent _ t _ _ => t end.
Definition coordinates (c : Component) : option Coordinates :=
  match c with MkComponent _ _ co _ => co end.
Definition description (c : Component) : option (Description Component) :=
  match c with MkComponent _ _ _ d => d end.

(** [c.get("description", {}).get("children", [])]. *)
Definition children_or_empty (c : Component) : list Component :=
  match description c with
  | Some d => match children d with Some l => l | None => [] end
  | None => []
  end.

(** The hierarchy: a dictionary from component id to component, in
    insertion order. *)
Definition Forest := list (string * Component).

End Tree.

(** ** Layout synthesizer *)

Module Layout.
Import Tree.

Definition viewport : Coordinates :=
  {| y1 := Some 0; x1 := Some 0; y2 := Some 1000; x2 := Some 1000 |}.

(** [round(q, 2)]: the nearest multiple of 1/100, ties to the even one. *)
Definition round_half_even (q : Q) : Z :=
  let f := Qfloor q in
  let r := (q - inject_Z f)%Q in
  if Qltb r (1#2) then f
  else if Qltb (1#2) r then f + 1
  else if Z.even f then f else f + 1.

Definition round2 (q : Q) : Q := (inject_Z (round_half_even (q * 100)) / 100)%Q.

(** [round(offset / extent * 100, 2) if extent else 0]. *)
Definition percent (offset extent : Z) : Q :=
  if extent =? 0 then 0%Q
  else round2 (inject_Z offset / inject_Z extent * 100)%Q.

(** [_has_overlap_with_siblings]. *)
Definition overlaps (comp sib : Coordinates) : bool :=
  let comp_x1 := get0 (x1 comp) in
  let comp_y1 := get0 (y1 comp) in
  let comp_x2 := get0 (x2 comp) in
  let comp_y2 := get0 (y2 comp) in
  let sib_x1 := get0 (x1 sib) in
  let sib_y1 := get0 (y1 sib) in
  let sib_x2 := get0 (x2 sib) in
  let sib_y2 := get0 (y2 sib) in
  let x_overlap := (comp_x1 <? sib_x2) && (sib_x1 <? comp_x2) in
  let y_overlap := (comp_y1 <? sib_y2) && (sib_y1 <? comp_y2) in
  x_overlap && y_overlap.

(** [sibling.get("id") == component.get("id")]. *)
Definition same_id (a b : option string) : bool :=
  match a, b with
  | Some x, Some y => String.eqb x y
  | None, None => true
  | _, _ => false
  end.

Definition _has_overlap_with_siblings (component parent : Component) : bool :=
  let comp_coords :=
    match coordinates component with Some c => c | None => no_coordinates end in
  if is_empty_dict comp_coords then false
  else
    let siblings :=
      match description parent with
      | Some d => match children d with Some l => l | None => [] end
      | None => []
      end in
    existsb
      (fun sibling =>
         if same_id (id sibling) (id component) then false
         else match coordinates sibling with
              | None => false
              | Some sib_coords => overlaps comp_coords sib_coords
              end)
      siblings.

Definition absolute_components : list string :=
  ["modal"; "tooltip"; "dropdown"; "popup"; "overlay"; "dialog"; "menu"].

Definition absolute_container_parents : list string :=
  ["card"; "container"; "section"; "article"; "main"; "div"; "header"; "footer"].

(** [c.get("type", "").lower()]. *)
Definition lower_type (c : Component) : string :=
  lower (match type c with Some t => t | None => "" end).

Definition _determine_positioning (component parent : Component) : positioning :=
  let component_type := lower_type component in
  let parent_type := lower_type parent in
  let has_overlap := _has_overlap_with_siblings component parent in
  if has_overlap then Absolute
  else if str_in component_type absolute_components then Absolute
  else if str_in parent_type absolute_container_parents then
    if (length (children_or_empty parent) <=? 1)%nat then Relative
    else Absolute
  else Relative.

Definition is_absolute (c : tw_class) : bool :=
  match c with TwPosition Absolute => true | _ => false end.

(** [_process_component].  [parent] is [None] for the call without a
    parent.  The result is [None] when the code raises (a parent without
    ["coordinates"]). *)
Definition _process_component (component : Component) (viewport : Coordinates)
    (parent : option Component) : option Component :=
  match description component with
  | None => Some component
  | Some desc =>
      let coords :=
        match coordinates component with Some c => c | None => no_coordinates end in
      let width := get0 (x2 coords) - get0 (x1 coords) in
      let height := get0 (y2 coords) - get0 (y1 coords) in
      let styles' :=
        match styles desc with
        | None => Some {| width := width; height := height; colorPalette := [] |}
        | Some s => Some s
        end in
      parent_coords <- match parent with
                       | Some p => coordinates p
                       | None => Some viewport
                       end ;;
      let parent_width := get0 (x2 parent_coords) - get0 (x1 parent_coords) in
      let parent_height := get0 (y2 parent_coords) - get0 (y1 parent_coords) in
      let top_percent :=
        percent (get0 (y1 coords) - get0 (y1 parent_coords)) parent_height in
      let left_percent :=
        percent (get0 (x1 coords) - get0 (x1 parent_coords)) parent_width in
      let right_percent :=
        percent (get0 (x2 parent_coords) - get0 (x2 coords)) parent_width in
      let bottom_percent :=
        percent (get0 (y2 parent_coords) - get0 (y2 coords)) parent_height in
      let vy2 := match y2 viewport with Some v => v | None => 1000 end in
      let vx2 := match x2 viewport with Some v => v | None => 1000 end in
      body_top_percent <- (if vy2 =? 0 then None
                           else Some (round2 (inject_Z (get0 (y1 coords)) / inject_Z vy2 * 100)%Q)) ;;
      body_left_percent <- (if vx2 =? 0 then None
                            else Some (round2 (inject_Z (get0 (x1 coords)) / inject_Z vx2 * 100)%Q)) ;;
      let body_right_percent :=
        round2 (inject_Z (vx2 - get0 (x2 coords)) / inject_Z vx2 * 100)%Q in
      let body_bottom_percent :=
        round2 (inject_Z (vy2 - get0 (y2 coords)) / inject_Z vy2 * 100)%Q in
      let width_percent := percent width parent_width in
      let height_percent := percent height parent_height in
      let tailwind_classes :=
        [match parent with
         | Some p => TwPosition (_determine_positioning component p)
         | None => TwPosition Relative
         end] in
      let tailwind_classes :=
        tailwind_classes ++ [TwWidthPercent width_percent] in
      let tailwind_classes :=
        tailwind_classes ++ [TwHeightPercent height_percent] in
      let tailwind_classes :=
        match parent with
        | Some _ =>
            if existsb is_absolute tailwind_classes then
              tailwind_classes
              ++ [if Qltb top_percent bottom_percent then TwTopPercent top_percent
                  else TwBottomPercent bottom_percent]
              ++ [if Qltb left_percent right_percent then TwLeftPercent left_percent
                  else TwRightPercent right_percent]
            else tailwind_classes
        | None => tailwind_classes
        end in
      let layout' :=
        {| percent_position_parent :=
             {| top := top_percent; right := right_percent;
                bottom := bottom_percent; left := left_percent |};
           percent_position_body :=
             {| top := body_top_percent; right := body_right_percent;
                bottom := body_bottom_percent; left := body_left_percent |};
           tailwind_classes := tailwind_classes |} in
      Some (MkComponent (id component) (type component) (coordinates component)
              (Some {| description_type := description_type desc;
                       description_text := description_text desc;
                       content := content desc;
                       children := children desc;
                       styles := styles';
                       layout := Some layout' |}))
  end.

(** [_process_media_element].  [None] when the code raises: the parent
    has no ["coordinates"] or one of its four keys is missing. *)
Definition _process_media_element (m : MediaRef) (parent_component : Component)
    (viewport : Coordinates) : option MediaRef :=
  match media_coordinates m with
  | None => Some m
  | Some mc =>
      let cy1 := y_min mc in
      let cx1 := x_min mc in
      let cy2 := y_max mc in
      let cx2 := x_max mc in
      let width := cx2 - cx1 in
      let height := cy2 - cy1 in
      let styles' :=
        match media_styles m with
        | None => Some {| width := width; height := height; colorPalette := [] |}
        | Some s => Some s
        end in
      parent_coords <- coordinates parent_component ;;
      py1 <- y1 parent_coords ;;
      px1 <- x1 parent_coords ;;
      px2 <- x2 parent_coords ;;
      py2 <- y2 parent_coords ;;
      let top_px := cy1 - py1 in
      let left_px := cx1 - px1 in
      let right_px := px2 - cx2 in
      let bottom_px := py2 - cy2 in
      vx2 <- x2 viewport ;;
      vy2 <- y2 viewport ;;
      let layout' :=
        {| position_parent :=
             {| top := top_px; right := right_px; bottom := bottom_px; left := left_px |};
           position_body :=
             {| top := cy1; right := vx2 - cx2; bottom := vy2 - cy2; left := cx1 |};
           media_tailwind_classes :=
             [TwPosition Absolute; TwWidthPx width; TwHeightPx height;
              TwTopPx top_px; TwLeftPx left_px] |} in
      Some {| original_label := original_label m;
              media_coordinates := media_coordinates m;
              file_path := file_path m;
              media_type := media_type m;
              media_styles := styles';
              media_layout := Some layout' |}
  end.

(** The body of the loop of [process_component_structure] for one
    top-level component (lines 472-480). *)
Definition process_top_level (component : Component) : option Component :=
  component <- _process_component component viewport None ;;
  component <-
    match description component with
    | Some desc =>
        match content desc with
        | Some cont =>
            match media cont with
            | Some ms =>
                ms' <- omap_list
                         (fun m => _process_media_element m component viewport) ms ;;
                Some (MkComponent (id component) (type component)
                        (coordinates component)
                        (Some {| description_type := description_type desc;
                                 description_text := description_text desc;
                                 content := Some {| text := text cont; media := Some ms' |};
                                 children := children desc;
                                 styles := styles desc;
                                 layout := layout desc |}))
            | None => Some component
            end
        | None => Some component
        end
    | None => Some component
    end ;;
  match description component with
  | Some desc =>
      match children desc with
      | Some cs =>
          cs' <- omap_list
                   (fun child => _process_component child viewport (Some component)) cs ;;
          Some (MkComponent (id component) (type component)
                  (coordinates component)
                  (Some {| description_type := description_type desc;
                           description_text := description_text desc;
                           content := content desc;
                           children := Some cs';
                           styles := styles desc;
                           layout := layout desc |}))
      | None => Some component
      end
  | None => Some component
  end.

(** [process_component_structure]: the annotated hierarchy, or [None]
    when the code raises. *)
Definition process_component_structure (data : Forest) : option Forest :=
  omap_list
    (fun entry : string * Component =>
       let (comp_id, component) := entry in
       component' <- process_top_level component ;;
       Some (comp_id, component'))
    data.

(** Whether a component carries a layout record. *)
Definition has_layout (c : Component) : bool :=
  match description c with
  | Some d => match layout d with Some _ => true | None => false end
  | None => false
  end.

(** For every node of a tree, top down: its id and whether it carries a
    layout record. *)
Fixpoint annotations (c : Component) : list (option string * bool) :=
  match c with
  | MkComponent i _ _ d =>
      match d with
      | Some {| children := kids; layout := l |} =>
          (i, match l with Some _ => true | None => false end)
          :: match kids with Some ks => flat_map annotations ks | None => [] end
      | None => [(i, false)]
      end
  end.

Definition forest_annotations (f : Forest) : list (option string * bool) :=
  flat_map (fun e => annotations (snd e)) f.

End Layout.

(** ** Hierarchy construction *)

Module Hierarchy.
Import Tree.

(** A bounding box [[y_min, x_min, y_max, x_max]] in the 0-1000 space. *)
Record Box := {
  box_y_min : Z;
  box_x_min : Z;
  box_y_max : Z;
  box_x_max : Z
}.

(** An element of the flat input list. *)
Record Element := {
  bbox : Box;
  label : string;
  element_description : option string;
  element_text : option string
}.

Definition _is_contained_within (child_box parent_box : Box) : bool :=
  let margin := 5 in
  (box_y_min parent_box - margin <=? box_y_min child_box)
  && (box_x_min parent_box - margin <=? box_x_min child_box)
  && (box_y_max child_box <=? box_y_max parent_box + margin)
  && (box_x_max child_box <=? box_x_max parent_box + margin).

Definition calculate_area (box : Box) : Z :=
  (box_y_max box - box_y_min box) * (box_x_max box - box_x_min box).

(** [enumerate(l)]. *)
Fixpoint enumerate_from {A : Type} (start : nat) (l : list A) : list (nat * A) :=
  match l with
  | [] => []
  | a :: t => (start, a) :: enumerate_from (S start) t
  end.

Definition enumerate {A : Type} (l : list A) : list (nat * A) :=
  enumerate_from 0 l.

(** [min(best :: rest, key=area)]: the first element of least area. *)
Fixpoint min_by_area (best : nat * Element) (rest : list (nat * Element))
    : nat * Element :=
  match rest with
  | [] => best
  | p :: t =>
      if calculate_area (bbox (snd p)) <? calculate_area (bbox (snd best))
      then min_by_area p t
      else min_by_area best t
  end.

(** [_find_parent_index].  Every caller passes an index of the list; for
    any other index the code raises and the model gives [None]. *)
Definition _find_parent_index (element_index : nat) (elements : list Element)
    : option nat :=
  match nth_error elements element_index with
  | None => None
  | Some element =>
      let element_box := bbox element in
      let potential_parents :=
        filter
          (fun p : nat * Element =>
             negb (fst p =? element_index)%nat
             && _is_contained_within element_box (bbox (snd p)))
          (enumerate elements) in
      match potential_parents with
      | [] => None
      | p :: t => Some (fst (min_by_area p t))
      end
  end.

(** The working record of step 1. *)
Record CompRec := {
  comp_id : string;
  original_data : Element;
  children_indices : list nat;
  media_indices : list nat;
  parent_index : option nat
}.

Definition make_id (i : nat) : string := ("comp_" ++ string_of_nat (i + 1))%string.

Definition initial_components (input_json : list Element) : list CompRec :=
  map (fun p : nat * Element =>
         {| comp_id := make_id (fst p);
            original_data := snd p;
            children_indices := [];
            media_indices := [];
            parent_index := None |})
      (enumerate input_json).

(** [l[i] = f(l[i])]. *)
Fixpoint update_nth {A : Type} (i : nat) (f : A -> A) (l : list A) {struct l}
    : list A :=
  match l, i with
  | [], _ => []
  | a :: t, O => f a :: t
  | a :: t, S j => a :: update_nth j f t
  end.

Definition set_parent (p : nat) (c : CompRec) : CompRec :=
  {| comp_id := comp_id c; original_data := original_data c;
     children_indices := children_indices c; media_indices := media_indices c;
     parent_index := Some p |}.

Definition add_child (i : nat) (c : CompRec) : CompRec :=
  {| comp_id := comp_id c; original_data := original_data c;
     children_indices := children_indices c ++ [i];
     media_indices := media_indices c;
     parent_index := parent_index c |}.

Definition add_media (i : nat) (c : CompRec) : CompRec :=
  {| comp_id := comp_id c; original_data := original_data c;
     children_indices := children_indices c;
     media_indices := media_indices c ++ [i];
     parent_index := parent_index c |}.

Definition is_media_label (l : string) : bool :=
  str_in (lower l) ["image"; "logo"; "icon"].

(** One iteration of the loop of step 2 (lines 288-297) on the pair of
    the component table and the list [media_elements]. *)
Definition link_step (st : list CompRec * list nat) (i : nat)
    : list CompRec * list nat :=
  let (components, media_elements) := st in
  match nth_error components i with
  | None => st
  | Some component =>
      let element := original_data component in
      let media_elements :=
        if is_media_label (label element) then media_elements ++ [i]
        else media_elements in
      match _find_parent_index i (map original_data components) with
      | Some parent_index =>
          (update_nth parent_index (add_child i)
             (update_nth i (set_parent parent_index) components),
           media_elements)
      | None => (components, media_elements)
      end
  end.

Definition link_all (components : list CompRec) : list CompRec * list nat :=
  fold_left link_step (seq 0 (length components)) (components, []).

(** What step 3 needs of the opened image: its size and the web path of
    the asset file written for a media element (the name is drawn from
    a random UUID).  Reading the image and writing the crops are taken
    to succeed. *)
Record ImageInfo := {
  img_width : Z;
  img_height : Z;
  asset_path : nat -> string
}.

(** [max(0, min(int(v * size / 1000), size - 1))]. *)
Definition to_pixel (v size : Z) : Z :=
  Z.max 0 (Z.min (Z.quot (v * size) 1000) (size - 1)).

(** Whether step 3 registers the media element, and under which path. *)
Definition media_file (image : option ImageInfo) (media_index : nat) (box : Box)
    : option string :=
  match image with
  | None => Some ("assets/image_" ++ string_of_nat media_index ++ ".png")%string
  | Some img =>
      let x_min_px := to_pixel (box_x_min box) (img_width img) in
      let y_min_px := to_pixel (box_y_min box) (img_height img) in
      let x_max_px := to_pixel (box_x_max box) (img_width img) in
      let y_max_px := to_pixel (box_y_max box) (img_height img) in
      if (x_max_px <=? x_min_px) || (y_max_px <=? y_min_px) then None
      else Some (asset_path img media_index)
  end.

Definition tracking_map := list (nat * MediaRef).

Definition map_lookup (k : nat) (m : tracking_map) : option MediaRef :=
  match find (fun e : nat * MediaRef => (fst e =? k)%nat) m with
  | Some e => Some (snd e)
  | None => None
  end.

(** [m[k] = v]. *)
Fixpoint map_set (k : nat) (v : MediaRef) (m : tracking_map) : tracking_map :=
  match m with
  | [] => [(k, v)]
  | e :: t => if (fst e =? k)%nat then (k, v) :: t else e :: map_set k v t
  end.

(** One iteration of the loop of step 3 (lines 308-363 and 368-391). *)
Definition media_step (image : option ImageInfo)
    (st : list CompRec * tracking_map) (media_index : nat)
    : list CompRec * tracking_map :=
  let (components, media_tracking_map) := st in
  match nth_error components media_index with
  | None => st
  | Some media =>
      let media_box := bbox (original_data media) in
      match media_file image media_index media_box with
      | None => st
      | Some web_file_path =>
          let tracking_entry :=
            {| original_label := label (original_data media);
               media_coordinates :=
                 Some {| y_min := box_y_min media_box; x_min := box_x_min media_box;
                         y_max := box_y_max media_box; x_max := box_x_max media_box |};
               file_path := web_file_path;
               media_type := lower (label (original_data media));
               media_styles := None;
               media_layout := None |} in
          let media_tracking_map := map_set media_index tracking_entry media_tracking_map in
          match parent_index media with
          | Some p => (update_nth p (add_media media_index) components, media_tracking_map)
          | None => (components, media_tracking_map)
          end
      end
  end.

Definition mem_index (i : nat) (l : list nat) : bool := existsb (Nat.eqb i) l.

(** The children that are materialised as nodes: those not registered
    as media of the component. *)
Definition structural_children (component : CompRec) : list nat :=
  filter (fun child_idx => negb (mem_index child_idx (media_indices component)))
         (children_indices component).

(** [_build_component_structure].  The recursion of the source is
    bounded here by [fuel]; [None] means that the bound was reached. *)
Fixpoint _build_component_structure (fuel : nat) (components : list CompRec)
    (media_tracking_map : tracking_map) (component_index : nat)
    : option Component :=
  match fuel with
  | O => None
  | S fuel' =>
      component <- nth_error components component_index ;;
      let original := original_data component in
      let box := bbox original in
      let media_list :=
        (match map_lookup component_index media_tracking_map with
         | Some e => [e]
         | None => []
         end)
        ++ flat_map
             (fun media_idx =>
                match map_lookup media_idx media_tracking_map with
                | Some e => [e]
                | None => []
                end)
             (media_indices component) in
      children <-
        omap_list (_build_component_structure fuel' components media_tracking_map)
                  (structural_children component) ;;
      Some (MkComponent
              (Some (comp_id component))
              (Some (label original))
              (Some {| y1 := Some (box_y_min box); x1 := Some (box_x_min box);
                       y2 := Some (box_y_max box); x2 := Some (box_x_max box) |})
              (Some {| description_type := label original;
                       description_text :=
                         match element_description original with
                         | Some d => d | None => "" end;
                       content :=
                         Some {| text := match element_text original with
                                         | Some t => t | None => "" end;
                                 media := Some media_list |};
                       children := Some children;
                       styles := None;
                       layout := None |}))
  end.

(** The component table after steps 1 to 3. *)
Definition component_table (input_json : list Element) (image : option ImageInfo)
    : list CompRec * tracking_map :=
  let components := initial_components input_json in
  let (components, media_elements) := link_all components in
  fold_left (media_step image) media_elements (components, []).

Definition root_indices (components : list CompRec) : list nat :=
  filter (fun i => match nth_error components i with
                   | Some comp => match parent_index comp with
                                  | None => true | Some _ => false end
                   | None => false
                   end)
         (seq 0 (length components)).

(** [convert_json_structure], with [image = None] for the call without
    an image path. *)
Definition convert_json_structure (input_json : list Element)
    (image : option ImageInfo) : option Forest :=
  let (components, media_tracking_map) := component_table input_json image in
  omap_list
    (fun idx =>
       comp <- nth_error components idx ;;
       node <- _build_component_structure (length components) components
                 media_tracking_map idx ;;
       Some (comp_id comp, node))
    (root_indices components).

(** The ids of all nodes of a tree, and of a hierarchy. *)
Fixpoint node_ids (c : Component) : list (option string) :=
  match c with
  | MkComponent i _ _ d =>
      i :: match d with
           | Some {| children := Some l |} => flat_map node_ids l
           | _ => []
           end
  end.

Definition forest_ids (f : Forest) : list (option string) :=
  flat_map (fun e => node_ids (snd e)) f.

(** The components reached from the parentless ones along the links
    [kids]: with [kids = children_indices], every recorded child link;
    with [kids = structural_children], the links the builder follows. *)
Inductive reachable (kids : CompRec -> list nat) (components : list CompRec)
    : nat -> Prop :=
| reach_root i comp :
    nth_error components i = Some comp ->
    parent_index comp = None ->
    reachable kids components i
| reach_child p comp c :
    reachable kids components p ->
    nth_error components p = Some comp ->
    In c (kids comp) ->
    reachable kids components c.

(** What holds of the table after the first [k] iterations of step 2,
    and, with [k] the number of elements, from then on. *)
Record table_inv (input : list Element) (k : nat) (t : list CompRec) : Prop := {
  inv_originals : map original_data t = input;
  inv_ids : forall i comp, nth_error t i = Some comp -> comp_id comp = make_id i;
  inv_parent : forall i comp, nth_error t i = Some comp ->
      parent_index comp = if (i <? k)%nat then _find_parent_index i input else None;
  inv_children : forall p comp c, nth_error t p = Some comp ->
      In c (children_indices comp) ->
      (c < k)%nat /\ _find_parent_index c input = Some p
}.

(** [c] is a structural child of [p]. *)
Definition child_of (table : list CompRec) (p c : nat) : Prop :=
  exists comp, nth_error table p = Some comp /\ In c (structural_children comp).

(** The number of structural links between a component and the
    parentless component above it. *)
Inductive at_depth (table : list CompRec) : nat -> nat -> Prop :=
| depth_root i comp :
    nth_error table i = Some comp -> parent_index comp = None ->
    at_depth table 0 i
| depth_child d p c :
    at_depth table d p -> child_of table p c -> at_depth table (S d) c.

(** [x] lies in the subtree that the builder walks from [p]. *)
Inductive under (table : list CompRec) : nat -> nat -> Prop :=
| under_self i : under table i i
| under_step p c x : child_of table p c -> under table c x -> under table p x.

(** A page-wide container, an image inside it and a text box inside the
    image. *)
Definition text_inside_image : list Element :=
  [ {| bbox := {| box_y_min := 0; box_x_min := 0; box_y_max := 1000; box_x_max := 1000 |};
       label := "div"; element_description := None; element_text := None |};
    {| bbox := {| box_y_min := 100; box_x_min := 100; box_y_max := 500; box_x_max := 500 |};
       label := "image"; element_description := None; element_text := None |};
    {| bbox := {| box_y_min := 200; box_x_min := 200; box_y_max := 300; box_x_max := 300 |};
       label := "text"; element_description := None; element_text := Some "hello" |} ].

(** A 1200 x 3000 screenshot whose assets are all written under one
    name. *)
Definition sample_image : ImageInfo :=
  {| img_width := 1200; img_height := 3000;
     asset_path := fun _ => "assets/image_0a1b2c3d.png" |}.

(** Two buttons detected with the same box. *)
Definition twin_button : Element :=
  {| bbox := {| box_y_min := 10; box_x_min := 10; box_y_max := 60; box_x_max := 200 |};
     label := "button"; element_description := None; element_text := None |}.

Definition twin_buttons : list Element := [twin_button; twin_button].

(** A container, a section inside it and a button inside the section. *)
Definition nested_three : list Element :=
  [ {| bbox := {| box_y_min := 0; box_x_min := 0; box_y_max := 1000; box_x_max := 1000 |};
       label := "div"; element_description := None; element_text := None |};
    {| bbox := {| box_y_min := 100; box_x_min := 100; box_y_max := 900; box_x_max := 900 |};
       label := "section"; element_description := None; element_text := None |};
    {| bbox := {| box_y_min := 200; box_x_min := 200; box_y_max := 300; box_x_max := 400 |};
       label := "button"; element_description := None; element_text := Some "OK" |} ].

End Hierarchy.

(** ** Fallback color extraction *)

Module Colors.

(** An RGB pixel of the array [np.array(image)], channels in [0, 255]. *)
Definition pixel := (Z * Z * Z)%type.

Definition white : pixel := (255, 255, 255).

(** Lexicographic order of the rows of the pixel array. *)
Definition pixel_compare (a b : pixel) : comparison :=
  let '(r1, g1, b1) := a in
  let '(r2, g2, b2) := b in
  match r1 ?= r2 with
  | Eq => match g1 ?= g2 with
          | Eq => b1 ?= b2
          | c => c
          end
  | c => c
  end.

(** [np.unique(pixels, axis=0)]: the distinct rows in ascending order. *)
Fixpoint insert_unique (p : pixel) (l : list pixel) : list pixel :=
  match l with
  | [] => [p]
  | q :: t =>
      match pixel_compare p q with
      | Lt => p :: q :: t
      | Eq => q :: t
      | Gt => q :: insert_unique p t
      end
  end.

Definition unique_rows (pixels : list pixel) : list pixel :=
  fold_right insert_unique [] pixels.

(** [a // b], which raises [ZeroDivisionError] for [b = 0]. *)
Definition floor_div (a b : Z) : option Z :=
  if b =? 0 then None else Some (a / b).

(** Every [step]-th element, the first one after [skip] elements. *)
Fixpoint every_nth {A : Type} (step skip : nat) (l : list A) : list A :=
  match l with
  | [] => []
  | a :: t =>
      match skip with
      | O => a :: every_nth step (step - 1) t
      | S k => every_nth step k t
      end
  end.

(** [l[::step]], which raises [ValueError] for [step = 0] and walks the
    list backwards from its last element for a negative step. *)
Definition slice_step {A : Type} (l : list A) (step : Z) : option (list A) :=
  if step =? 0 then None
  else if 0 <? step then Some (every_nth (Z.to_nat step) 0 l)
  else Some (every_nth (Z.to_nat (- step)) 0 (rev l)).

(** [l[:k]]; a negative [k] counts from the end. *)
Definition slice_to {A : Type} (l : list A) (k : Z) : list A :=
  if 0 <=? k then firstn (Z.to_nat k) l
  else firstn (Z.to_nat (Z.of_nat (length l) + k)) l.

Definition hex_digit (n : Z) : ascii :=
  match n with
  | 0 => "0" | 1 => "1" | 2 => "2" | 3 => "3" | 4 => "4"
  | 5 => "5" | 6 => "6" | 7 => "7" | 8 => "8" | 9 => "9"
  | 10 => "a" | 11 => "b" | 12 => "c" | 13 => "d" | 14 => "e"
  | _ => "f"
  end%char.

(** [f"{v:02x}"] for an 8-bit value. *)
Definition hex2 (v : Z) : string :=
  String (hex_digit (v / 16)) (String (hex_digit (v mod 16)) EmptyString).

(** [f"#{r:02x}{g:02x}{b:02x}"]. *)
Definition hex_color (p : pixel) : string :=
  let '(r, g, b) := p in
  ("#" ++ hex2 r ++ hex2 g ++ hex2 b)%string.

(** [_fallback_extract_colors].  [image] holds the rows of the RGB
    crop; [pixels] is its reshaping to one row per pixel.  Any exception
    inside the [try] block gives the default answer. *)
Definition _fallback_extract_colors (image : list (list pixel)) (max_colors : Z)
    : list string :=
  let pixels := concat image in
  if (length pixels <=? 1)%nat then ["#ffffff"]
  else
    let unique_colors := unique_rows pixels in
    let sampled :=
      if max_colors <? Z.of_nat (length unique_colors) then
        step <- floor_div (Z.of_nat (length unique_colors)) max_colors ;;
        strided <- slice_step unique_colors step ;;
        Some (slice_to strided max_colors)
      else Some unique_colors in
    match sampled with
    | Some unique_colors => map hex_color (slice_to unique_colors max_colors)
    | None => ["#ffffff"]
    end.

End Colors.

(** ** Text and JSON

    Python strings are modelled as strings of characters with code
    points below 256.  The functions below are [str.strip], [in],
    [str.find], [str.rfind], slicing, [str.replace], the [re.sub] and
    [re.findall] calls of the parser, and [json.loads]. *)

Module Text.

(** The double quote character. *)
Definition dquote : ascii := "034"%char.

(** Writes a text with apostrophes for its double quotes. *)
Fixpoint quoted (s : string) : string :=
  match s with
  | EmptyString => EmptyString
  | String c t => String (if Ascii.eqb c "'"%char then dquote else c) (quoted t)
  end.

(** The whitespace that [str.strip] removes and [\s] matches. *)
Definition is_space (c : ascii) : bool :=
  let n := nat_of_ascii c in
  ((9 <=? n) && (n <=? 13) || (28 <=? n) && (n <=? 32)
   || (n =? 133) || (n =? 160))%nat.

Fixpoint lstrip (s : list ascii) : list ascii :=
  match s with
  | c :: t => if is_space c then lstrip t else s
  | [] => []
  end.

Definition strip (s : string) : string :=
  string_of_list_ascii
    (rev (lstrip (rev (lstrip (list_ascii_of_string s))))).

(** [s.find(pat)] for a non-empty pattern. *)
Fixpoint find_from (pat s : string) (i : nat) : option nat :=
  if String.prefix pat s then Some i
  else match s with
       | EmptyString => None
       | String _ t => find_from pat t (S i)
       end.

Definition find (pat s : string) : option nat := find_from pat s 0.

(** [s.rfind(pat)]. *)
Fixpoint rfind_from (pat s : string) (i : nat) (last : option nat) : option nat :=
  let last := if String.prefix pat s then Some i else last in
  match s with
  | EmptyString => last
  | String _ t => rfind_from pat t (S i) last
  end.

Definition rfind (pat s : string) : option nat := rfind_from pat s 0 None.

(** [s[start:stop]] for non-negative indices. *)
Definition slice (s : string) (start stop : nat) : string :=
  String.substring start (stop - start) s.

(** [s.replace(old, new)] for a non-empty [old]: [skip] counts the
    characters of a replaced occurrence that are still to be passed. *)
Fixpoint replace_from (old new : string) (skip : nat) (s : string) : string :=
  match s with
  | EmptyString => EmptyString
  | String c t =>
      match skip with
      | S k => replace_from old new k t
      | O =>
          if String.prefix old s
          then (new ++ replace_from old new (String.length old - 1) t)%string
          else String c (replace_from old new 0 t)
      end
  end.

Definition replace (old new s : string) : string := replace_from old new 0 s.

Definition is_digit (c : ascii) : bool :=
  let n := nat_of_ascii c in ((48 <=? n) && (n <=? 57))%nat.

(** The longest run of digits at the head of a text, and the rest. *)
Fixpoint span_digits (s : list ascii) : list ascii * list ascii :=
  match s with
  | c :: t =>
      if is_digit c then let (ds, rest) := span_digits t in (c :: ds, rest)
      else ([], s)
  | [] => ([], [])
  end.

(** A match of the pattern [(\d+),(\d+)] at the head of the text: the
    two groups. *)
Definition match_digits_comma_digits (s : list ascii)
    : option (list ascii * list ascii) :=
  match span_digits s with
  | ([], _) => None
  | (g1, rest) =>
      match rest with
      | ","%char :: rest' =>
          match span_digits rest' with
          | ([], _) => None
          | (g2, _) => Some (g1, g2)
          end
      | _ => None
      end
  end.

(** [re.sub(r'(\d+),(\d+)', r'\1.\2', s)]: matches are sought from left
    to right and do not overlap. *)
Fixpoint sub_decimal_from (skip : nat) (s : list ascii) : list ascii :=
  match s with
  | [] => []
  | c :: t =>
      match skip with
      | S k => sub_decimal_from k t
      | O =>
          match match_digits_comma_digits s with
          | Some (g1, g2) =>
              g1 ++ ["."%char] ++ g2
              ++ sub_decimal_from (length g1 + length g2) t
          | None => c :: sub_decimal_from 0 t
          end
      end
  end.

Definition sub_decimal (s : string) : string :=
  string_of_list_ascii (sub_decimal_from 0 (list_ascii_of_string s)).

(** The rest of the text after the literal [lit], when the text starts
    with it. *)
Definition starts_with (lit : string) (s : list ascii) : option (list ascii) :=
  let l := list_ascii_of_string lit in
  if String.eqb (string_of_list_ascii (firstn (length l) s)) lit
  then Some (skipn (length l) s) else None.

(** [pat in s]. *)
Definition contains (pat s : string) : bool :=
  match find pat s with Some _ => true | None => false end.

(** The longest prefix of characters other than [stop], and the rest. *)
Fixpoint span_until (stop : ascii) (s : list ascii) : list ascii * list ascii :=
  match s with
  | c :: t =>
      if Ascii.eqb c stop then ([], s)
      else let (taken, rest) := span_until stop t in (c :: taken, rest)
  | [] => ([], [])
  end.

(** A match at the head of the text of the pattern of the third parsing
    tier,
      an opening brace, the key "label" with a non-empty string value,
      a comma, the key "box_percent" or "box_2d" with a non-empty
      bracketed value, a closing brace,
    with optional whitespace where the pattern has [\s*]: the text of
    its one group and the length of the match. *)
Definition match_component (s : list ascii) : option (string * nat) :=
  s <- starts_with "{" s ;;
  s <- starts_with (quoted "'label':") (lstrip s) ;;
  s <- starts_with (quoted "'") (lstrip s) ;;
  let (name, s') := span_until dquote s in
  match name with
  | [] => None
  | _ =>
      s <- starts_with (quoted "',") s' ;;
      s <- starts_with (quoted "'") (lstrip s) ;;
      gs <- match starts_with "box_percent" s with
            | Some rest => Some ("box_percent", rest)
            | None =>
                match starts_with "box_2d" s with
                | Some rest => Some ("box_2d", rest)
                | None => None
                end
            end ;;
      let (group, s) := gs : string * list ascii in
      s <- starts_with (quoted "':") s ;;
      s <- starts_with "[" (lstrip s) ;;
      let (body, s') := span_until "]"%char s in
      match body with
      | [] => None
      | _ =>
          s <- starts_with "]" s' ;;
          s <- starts_with "}" (lstrip s) ;;
          Some (group, length s)
      end
  end.

(** [re.findall(pattern, text)] for that pattern: since the pattern has
    one group, the result lists the text of the group of every match. *)
Fixpoint findall_from (skip : nat) (s : list ascii) : list string :=
  match s with
  | [] => []
  | _ :: t =>
      match skip with
      | S k => findall_from k t
      | O =>
          match match_component s with
          | Some (group, remaining) =>
              group :: findall_from (length s - remaining - 1) t
          | None => findall_from 0 t
          end
      end
  end.

Definition findall_component (text : string) : list string :=
  findall_from 0 (list_ascii_of_string text).

End Text.

Module Json.
Import Text.

(** A decoded JSON value.  Numbers are exact rationals; an object is
    the list of its keys, each once, with their values. *)
#[warnings="-register-all"]
Inductive json :=
| JNull
| JBool (b : bool)
| JNum (q : Q)
| JStr (s : string)
| JArr (l : list json)
| JObj (m : list (string * json)).

(** [k in d] and [d[k]]. *)
Fixpoint dict_get (k : string) (m : list (string * json)) : option json :=
  match m with
  | [] => None
  | (k', v) :: t => if String.eqb k' k then Some v else dict_get k t
  end.

(** [d[k] = v]. *)
Fixpoint dict_set (k : string) (v : json) (m : list (string * json))
    : list (string * json) :=
  match m with
  | [] => [(k, v)]
  | (k', v') :: t =>
      if String.eqb k' k then (k, v) :: t else (k', v') :: dict_set k v t
  end.

(** The outcome of decoding: a value, a [JSONDecodeError], or the end
    of the recursion bound of the model. *)
Inductive decoded (A : Type) :=
| Parsed (a : A)
| SyntaxError
| Exhausted.
Arguments Parsed {A}.
Arguments SyntaxError {A}.
Arguments Exhausted {A}.

Definition dbind {A B : Type} (c : decoded A) (f : A -> decoded B) : decoded B :=
  match c with
  | Parsed a => f a
  | SyntaxError => SyntaxError
  | Exhausted => Exhausted
  end.

Definition of_option {A : Type} (o : option A) : decoded A :=
  match o with Some a => Parsed a | None => SyntaxError end.

(** The whitespace of JSON. *)
Definition is_ws (c : ascii) : bool :=
  match c with
  | " "%char | "009"%char | "010"%char | "013"%char => true
  | _ => false
  end.

Fixpoint skip_ws (s : list ascii) : list ascii :=
  match s with
  | c :: t => if is_ws c then skip_ws t else s
  | [] => []
  end.

Definition digit_value (c : ascii) : Z := Z.of_nat (nat_of_ascii c) - 48.

Definition digits_value (ds : list ascii) : Z :=
  fold_left (fun acc d => acc * 10 + digit_value d) ds 0.

(** The rest of the text after the character [c], when the text starts
    with it. *)
Definition next_is (c : ascii) (s : list ascii) : option (list ascii) :=
  match s with
  | c' :: t => if Ascii.eqb c' c then Some t else None
  | [] => None
  end.

(** The parts of a number: an optional minus sign, an integer part
    without a leading zero, an optional fraction and an optional
    exponent. *)
Definition take_sign (s : list ascii) : bool * list ascii :=
  match next_is "-"%char s with
  | Some t => (true, t)
  | None => (false, s)
  end.

Definition take_int (s : list ascii) : option (list ascii * list ascii) :=
  match s with
  | c :: t =>
      if is_digit c then
        Some (if Ascii.eqb c "0"%char then ([c], t) else span_digits s)
      else None
  | [] => None
  end.

Definition take_frac (s : list ascii) : list ascii * list ascii :=
  match next_is "."%char s with
  | Some (d :: t) => if is_digit d then span_digits (d :: t) else ([], s)
  | _ => ([], s)
  end.

Definition take_exp (s : list ascii) : Z * list ascii :=
  match s with
  | e :: t =>
      if Ascii.eqb e "e"%char || Ascii.eqb e "E"%char then
        let (esign, t') :=
          match next_is "+"%char t with
          | Some u => (1, u)
          | None =>
              match next_is "-"%char t with
              | Some u => (-1, u)
              | None => (1, t)
              end
          end in
        match span_digits t' with
        | ([], _) => (0, s)
        | (eds, rest) => (esign * digits_value eds, rest)
        end
      else (0, s)
  | [] => (0, s)
  end.

(** A number at the head of the text. *)
Definition parse_number (s : list ascii) : option (json * list ascii) :=
  let (negative, s) := take_sign s in
  ds <- take_int s ;;
  let (int_digits, s) := ds : list ascii * list ascii in
  let (frac_digits, s) := take_frac s in
  let (exponent, s) := take_exp s in
  let mantissa := inject_Z (digits_value (int_digits ++ frac_digits)) in
  let q := (mantissa * Qpower 10 (exponent - Z.of_nat (length frac_digits)))%Q in
  Some (JNum (if negative then Qopp q else q), s).

Definition hex_value (c : ascii) : option nat :=
  let n := nat_of_ascii c in
  if ((48 <=? n) && (n <=? 57))%nat then Some (n - 48)%nat
  else if ((97 <=? n) && (n <=? 102))%nat then Some (n - 87)%nat
  else if ((65 <=? n) && (n <=? 70))%nat then Some (n - 55)%nat
  else None.

(** The character of a one-letter escape. *)
Definition unescape (e : ascii) : option ascii :=
  match e with
  | "034"%char => Some "034"%char
  | "\"%char => Some "\"%char
  | "/"%char => Some "/"%char
  | "b"%char => Some "008"%char
  | "f"%char => Some "012"%char
  | "n"%char => Some "010"%char
  | "r"%char => Some "013"%char
  | "t"%char => Some "009"%char
  | _ => None
  end.

(** The text of a string after its opening quote, up to the closing
    one.  Control characters are refused; a [\u] escape is taken within
    the 8-bit range. *)
Fixpoint parse_string_body (s : list ascii) (acc : list ascii)
    : option (string * list ascii) :=
  match s with
  | [] => None
  | c :: rest =>
      if Ascii.eqb c dquote then Some (string_of_list_ascii (rev acc), rest)
      else if Ascii.eqb c "\"%char then
        match rest with
        | [] => None
        | e :: rest' =>
            match unescape e with
            | Some c' => parse_string_body rest' (c' :: acc)
            | None =>
                if Ascii.eqb e "u"%char then
                  match rest' with
                  | h1 :: h2 :: h3 :: h4 :: rest'' =>
                      match hex_value h1, hex_value h2, hex_value h3, hex_value h4 with
                      | Some 0%nat, Some 0%nat, Some a, Some b =>
                          parse_string_body rest'' (ascii_of_nat (16 * a + b) :: acc)
                      | _, _, _, _ => None
                      end
                  | _ => None
                  end
                else None
            end
        end
      else if (nat_of_ascii c <? 32)%nat then None
      else parse_string_body rest (c :: acc)
  end.

(** One of the literals [null], [true] and [false] at the head of the
    text. *)
Definition parse_literal (s : list ascii) : option (json * list ascii) :=
  match starts_with "null" s with
  | Some rest => Some (JNull, rest)
  | None =>
      match starts_with "true" s with
      | Some rest => Some (JBool true, rest)
      | None =>
          match starts_with "false" s with
          | Some rest => Some (JBool false, rest)
          | None => None
          end
      end
  end.

(** [scan_once], [JSONArray] and [JSONObject] of the decoder.  A value
    starts at the head of the text; the elements of an array and the
    members of an object are read after the opening bracket and the
    whitespace that follows it. *)
Fixpoint parse_value (fuel : nat) (s : list ascii) {struct fuel}
    : decoded (json * list ascii) :=
  match fuel with
  | O => Exhausted
  | S fuel' =>
      match s with
      | [] => SyntaxError
      | c :: rest =>
          if Ascii.eqb c dquote then
            dbind (of_option (parse_string_body rest []))
                  (fun r => Parsed (JStr (fst r), snd r))
          else if Ascii.eqb c "{"%char then
            match next_is "}"%char (skip_ws rest) with
            | Some rest' => Parsed (JObj [], rest')
            | None => parse_members fuel' (skip_ws rest) []
            end
          else if Ascii.eqb c "["%char then
            match next_is "]"%char (skip_ws rest) with
            | Some rest' => Parsed (JArr [], rest')
            | None => parse_elements fuel' (skip_ws rest) []
            end
          else
            match parse_literal s with
            | Some r => Parsed r
            | None => of_option (parse_number s)
            end
      end
  end

with parse_elements (fuel : nat) (s : list ascii) (acc : list json) {struct fuel}
    : decoded (json * list ascii) :=
  match fuel with
  | O => Exhausted
  | S fuel' =>
      dbind (parse_value fuel' s)
        (fun r =>
           let acc := acc ++ [fst r] in
           match next_is "]"%char (skip_ws (snd r)) with
           | Some rest => Parsed (JArr acc, rest)
           | None =>
               match next_is ","%char (skip_ws (snd r)) with
               | Some rest => parse_elements fuel' (skip_ws rest) acc
               | None => SyntaxError
               end
           end)
  end

with parse_members (fuel : nat) (s : list ascii) (acc : list (string * json))
    {struct fuel} : decoded (json * list ascii) :=
  match fuel with
  | O => Exhausted
  | S fuel' =>
      match next_is dquote s with
      | None => SyntaxError
      | Some rest =>
          dbind (of_option (parse_string_body rest []))
            (fun k =>
               match next_is ":"%char (skip_ws (snd k)) with
               | None => SyntaxError
               | Some rest =>
                   dbind (parse_value fuel' (skip_ws rest))
                     (fun r =>
                        let acc := dict_set (fst k) (fst r) acc in
                        match next_is "}"%char (skip_ws (snd r)) with
                        | Some rest => Parsed (JObj acc, rest)
                        | None =>
                            match next_is ","%char (skip_ws (snd r)) with
                            | Some rest => parse_members fuel' (skip_ws rest) acc
                            | None => SyntaxError
                            end
                        end)
               end)
      end
  end.

(** [json.loads]: one value, surrounded by whitespace only.  The
    constants [NaN], [Infinity] and [-Infinity], which the library also
    accepts, are not values of the model. *)
Definition loads (text : string) : decoded json :=
  let s := list_ascii_of_string text in
  dbind (parse_value (2 * length s + 2) (skip_ws s))
    (fun r =>
       match skip_ws (snd r) with
       | [] => Parsed (fst r)
       | _ => SyntaxError
       end).

(** The value of a number in arithmetic; [True] and [False] count as 1
    and 0, anything else raises [TypeError]. *)
Definition as_number (v : json) : option Q :=
  match v with
  | JNum q => Some q
  | JBool true => Some 1%Q
  | JBool false => Some 0%Q
  | _ => None
  end.

(** [len(v)]. *)
Definition py_len (v : json) : option nat :=
  match v with
  | JArr l => Some (length l)
  | JStr s => Some (String.length s)
  | JObj m => Some (length m)
  | _ => None
  end.

(** [a == b]. *)
Fixpoint json_eqb (a b : json) {struct a} : bool :=
  match a, b with
  | JNull, JNull => true
  | JStr s, JStr t => String.eqb s t
  | JArr l, JArr m =>
      (fix all2 (l m : list json) : bool :=
         match l, m with
         | [], [] => true
         | x :: l', y :: m' => json_eqb x y && all2 l' m'
         | _, _ => false
         end) l m
  | JObj l, JObj m =>
      (length l =? length m)%nat
      && (fix all_in (l : list (string * json)) : bool :=
            match l with
            | [] => true
            | (k, v) :: l' =>
                match dict_get k m with
                | Some w => json_eqb v w
                | None => false
                end && all_in l'
            end) l
  | JNum p, JNum q => Qeq_bool p q
  | JNum p, JBool c => Qeq_bool p (if c then 1 else 0)
  | JBool c, JNum q => Qeq_bool (if c then 1 else 0) q
  | JBool c, JBool d => Bool.eqb c d
  | _, _ => false
  end.

End Json.

(** ** Bounding-box post-processing *)

Module Bbox.
Import Text Json.

(** What a call does: it returns a value, raises, or meets the
    recursion bound of the decoder model. *)
Inductive outcome (A : Type) :=
| Returned (a : A)
| Raised
| OutOfFuel.
Arguments Returned {A}.
Arguments Raised {A}.
Arguments OutOfFuel {A}.

Definition fence : string := "```".
Definition json_fence : string := "```json".

(** Lines 148-156: the text between the code fences. *)
Definition strip_fences (response_text : string) : string :=
  let cleaned_text := strip response_text in
  if contains json_fence cleaned_text then
    match find json_fence cleaned_text, rfind fence cleaned_text with
    | Some i, Some stop => strip (slice cleaned_text (i + 7) stop)
    | _, _ => cleaned_text
    end
  else if contains fence cleaned_text then
    match find fence cleaned_text, rfind fence cleaned_text with
    | Some i, Some stop => strip (slice cleaned_text (i + 3) stop)
    | _, _ => cleaned_text
    end
  else cleaned_text.

(** [[x_min/10, y_min/10, x_max/10, y_max/10]] from the unpacked
    [box_2d]; a non-numeric coordinate raises. *)
Definition box_2d_to_percent (box_2d : json) : option json :=
  match box_2d with
  | JArr [y_min; x_min; y_max; x_max] =>
      x0 <- as_number x_min ;;
      y0 <- as_number y_min ;;
      x1 <- as_number x_max ;;
      y1 <- as_number y_max ;;
      Some (JArr [JNum (x0 / 10); JNum (y0 / 10); JNum (x1 / 10); JNum (y1 / 10)])
  | _ => None
  end.

(** The body of the loop of lines 195-206 for one item: [Returned None]
    when nothing is appended. *)
Definition standardize_item (item : json) : outcome (option json) :=
  match item with
  | JObj m =>
      match dict_get "label" m with
      | None => Returned None
      | Some label =>
          let percent_branch :=
            match dict_get "box_percent" m with
            | None => Returned None
            | Some box_percent =>
                match py_len box_percent with
                | None => Raised
                | Some n => if (n =? 4)%nat then Returned (Some item) else Returned None
                end
            end in
          match dict_get "box_2d" m with
          | None => percent_branch
          | Some box_2d =>
              match py_len box_2d with
              | None => Raised
              | Some n =>
                  if (n =? 4)%nat then
                    match box_2d_to_percent box_2d with
                    | Some box_percent =>
                        Returned (Some (JObj [("label", label);
                                              ("box_percent", box_percent)]))
                    | None => Raised
                    end
                  else percent_branch
              end
          end
      end
  | _ => Returned None
  end.

Fixpoint standardize_items (items : list json) : outcome (list json) :=
  match items with
  | [] => Returned []
  | item :: rest =>
      match standardize_item item with
      | Returned r =>
          match standardize_items rest with
          | Returned out =>
              Returned (match r with Some e => e :: out | None => out end)
          | Raised => Raised
          | OutOfFuel => OutOfFuel
          end
      | Raised => Raised
      | OutOfFuel => OutOfFuel
      end
  end.

(** Lines 194-209.  Iterating an object yields its keys and iterating
    a string its characters, none of which is a dictionary; a number, a
    boolean or [None] cannot be iterated. *)
Definition standardize (data : json) : outcome (list json) :=
  match data with
  | JArr items => standardize_items items
  | JObj _ | JStr _ => Returned []
  | _ => Raised
  end.

Definition newline : string := String "010"%char EmptyString.

(** The cleanup of the second tier (lines 163-165). *)
Definition cleanup (cleaned_text : string) : string :=
  let cleaned_text :=
    replace ",]" "]" (replace ("," ++ newline ++ "]") (newline ++ "]") cleaned_text) in
  sub_decimal cleaned_text.

(** Which tier produced the parsed data. *)
Inductive tier := Direct | Cleanup | Regex.

(** Lines 158-192: the three parsing tiers.  [Returned None] stands for
    the early [return []]. *)
Definition parse_tiers (cleaned_text : string) : outcome (option (tier * json)) :=
  match loads cleaned_text with
  | Parsed data => Returned (Some (Direct, data))
  | Exhausted => OutOfFuel
  | SyntaxError =>
      let cleaned_text := cleanup cleaned_text in
      match loads cleaned_text with
      | Parsed data => Returned (Some (Cleanup, data))
      | Exhausted => OutOfFuel
      | SyntaxError =>
          match findall_component cleaned_text with
          | [] => Returned None
          | matches =>
              let fixed_json := ("[" ++ String.concat "," matches ++ "]")%string in
              match loads fixed_json with
              | Parsed data => Returned (Some (Regex, data))
              | SyntaxError => Returned None
              | Exhausted => OutOfFuel
              end
          end
      end
  end.

Definition parse_gemini_response (response_text : string) : outcome (list json) :=
  if String.eqb response_text "" then Returned []
  else
    match parse_tiers (strip_fences response_text) with
    | Returned (Some (_, data)) => standardize data
    | Returned None => Returned []
    | Raised => Raised
    | OutOfFuel => OutOfFuel
    end.

(** *** The nested-element filter *)

Definition parent_elements : list string :=
  ["div"; "header"; "footer"; "sidebar"; "navbar"; "search-bar"; "form"].

(** [component['label'].lower()]. *)
Definition component_label (component : json) : option string :=
  match component with
  | JObj m =>
      match dict_get "label" m with
      | Some (JStr s) => Some (lower s)
      | _ => None
      end
  | _ => None
  end.

(** [component['box_percent']]. *)
Definition box_of (component : json) : option json :=
  match component with
  | JObj m => dict_get "box_percent" m
  | _ => None
  end.

Definition is_parent_label (label : string) : bool :=
  existsb (fun parent =>
             String.eqb label parent || String.prefix (parent ++ "_")%string label)
          parent_elements.

(** The first loop (lines 287-290). *)
Fixpoint collect_parents (components : list json) : option (list json) :=
  match components with
  | [] => Some []
  | component :: rest =>
      label <- component_label component ;;
      parents <- collect_parents rest ;;
      Some (if is_parent_label label then component :: parents else parents)
  end.

(** [box[i]] used as a number. *)
Definition item_number (box : json) (i : nat) : option Q :=
  match box with
  | JArr l => x <- nth_error l i ;; as_number x
  | _ => None
  end.

(** The test of lines 310-313, evaluated from left to right and only as
    far as needed. *)
Definition is_nested (box parent_box : json) : option bool :=
  let margin := (1#2)%Q in
  b0 <- item_number box 0 ;;
  p0 <- item_number parent_box 0 ;;
  if Qle_bool (p0 - margin) b0 then
    b2 <- item_number box 2 ;;
    p2 <- item_number parent_box 2 ;;
    if Qle_bool b2 (p2 + margin) then
      b1 <- item_number box 1 ;;
      p1 <- item_number parent_box 1 ;;
      if Qle_bool (p1 - margin) b1 then
        b3 <- item_number box 3 ;;
        p3 <- item_number parent_box 3 ;;
        if Qle_bool b3 (p3 + margin) then
          Some (negb (Qeq_bool b0 p0) || negb (Qeq_bool b1 p1)
                || negb (Qeq_bool b2 p2) || negb (Qeq_bool b3 p3))
        else Some false
      else Some false
    else Some false
  else Some false.

(** The loop over [parent_boxes] (lines 302-318): whether some parent
    other than the component itself holds the component's box. *)
Fixpoint nested_in_any (component box : json) (parent_boxes : list json)
    : option bool :=
  match parent_boxes with
  | [] => Some false
  | parent :: rest =>
      if json_eqb component parent then nested_in_any component box rest
      else
        parent_box <- box_of parent ;;
        nested <- is_nested box parent_box ;;
        if nested then Some true else nested_in_any component box rest
  end.

(** Whether the second loop keeps the component. *)
Definition keep_component (parent_boxes : list json) (component : json)
    : option bool :=
  label <- component_label component ;;
  box <- box_of component ;;
  if contains "image" label then Some true
  else
    nested <- nested_in_any component box parent_boxes ;;
    Some (negb nested).

Fixpoint filter_loop (parent_boxes components : list json) : option (list json) :=
  match components with
  | [] => Some []
  | component :: rest =>
      keep <- keep_component parent_boxes component ;;
      filtered <- filter_loop parent_boxes rest ;;
      Some (if keep then component :: filtered else filtered)
  end.

(** [filter_nested_elements]; [None] when the code raises. *)
Definition filter_nested_elements (components : list json) : option (list json) :=
  parent_boxes <- collect_parents components ;;
  filter_loop parent_boxes components.

(** A parent that does not remove the component with box [box]: the
    component itself, or a parent whose box does not hold [box]. *)
Definition harmless (component box parent : json) : Prop :=
  json_eqb component parent = true
  \/ exists parent_box,
       box_of parent = Some parent_box /\ is_nested box parent_box = Some false.

(** The response of the trailing-comma example. *)
Definition trailing_comma_response : string :=
  quoted "[{'label':'a','box_2d':[1,2,3,4]},]".

(** A response whose item carries a [box_percent] of four strings. *)
Definition text_box_response : string :=
  quoted "[{'label':'a','box_percent':['p','q','r','s']}]".

(** An element with a label and a [box_percent] of length four. *)
Definition valid_element (e : json) : Prop :=
  exists m label box,
    e = JObj m /\ dict_get "label" m = Some label
    /\ dict_get "box_percent" m = Some box /\ py_len box = Some 4%nat.

(** An element with a label and a [box_percent] of four numbers. *)
Definition numeric_element (e : json) : Prop :=
  exists m label a b c d,
    e = JObj m /\ dict_get "label" m = Some label
    /\ dict_get "box_percent" m = Some (JArr [JNum a; JNum b; JNum c; JNum d]).

(** What an item contributes to the returned list. *)
Definition kept (item : json) : list json :=
  match standardize_item item with
  | Returned (Some e) => [e]
  | _ => []
  end.

(** A component as the parser returns it for numeric boxes: a string
    label and a [box_percent] of four numbers. *)
Definition well_formed (c : json) : Prop :=
  exists m s l,
    c = JObj m /\ dict_get "label" m = Some (JStr s)
    /\ dict_get "box_percent" m = Some (JArr l)
    /\ length l = 4%nat /\ Forall (fun x => as_number x <> None) l.

(** A container, a button inside it, an image inside it and a header
    inside it, as the parser returns them. *)
Definition page_components : list json :=
  [ JObj [("label", JStr "div"); ("box_percent", JArr [JNum 0; JNum 0; JNum 100; JNum 100])];
    JObj [("label", JStr "button"); ("box_percent", JArr [JNum 1; JNum 1; JNum 5; JNum 5])];
    JObj [("label", JStr "image_1"); ("box_percent", JArr [JNum 1; JNum 1; JNum 5; JNum 5])];
    JObj [("label", JStr "Header"); ("box_percent", JArr [JNum 0; JNum 0; JNum 100; JNum 10])] ].

End Bbox.

(** ** Walking a hierarchy *)

Module HierarchyShape.
Import Tree Hierarchy.

(** The sort key of the parent search. *)
Definition area_of (p : nat * Element) : Z := calculate_area (bbox (snd p)).

(** All nodes of a tree, top down, and of a hierarchy. *)
Fixpoint nodes (c : Component) : list Component :=
  match c with
  | MkComponent _ _ _ d =>
      c :: match d with
           | Some {| children := Some l |} => flat_map nodes l
           | _ => []
           end
  end.

Definition forest_nodes (f : Forest) : list Component :=
  flat_map (fun e => nodes (snd e)) f.

(** The nodes below the top level. *)
Definition inner_nodes (f : Forest) : list Component :=
  flat_map (fun e => flat_map nodes (children_or_empty (snd e))) f.

(** No row of the table lists a child twice. *)
Definition children_nodup (t : list CompRec) : Prop :=
  forall p comp, nth_error t p = Some comp -> NoDup (children_indices comp).

(** The node that the builder makes of element [e] with id [i]: what
    it copies from the element. *)
Definition copies (i : nat) (e : Element) (node : Component) : Prop :=
  id node = Some (make_id i)
  /\ type node = Some (label e)
  /\ coordinates node
     = Some {| y1 := Some (box_y_min (bbox e)); x1 := Some (box_x_min (bbox e));
               y2 := Some (box_y_max (bbox e)); x2 := Some (box_x_max (bbox e)) |}
  /\ exists d, description node = Some d
       /\ description_type d = label e
       /\ description_text d = match element_description e with
                               | Some t => t | None => "" end
       /\ option_map text (content d)
          = Some (match element_text e with Some t => t | None => "" end)
       /\ styles d = None /\ layout d = None.

(** Two boxes side by side. *)
Definition side_by_side : list Element :=
  [ {| bbox := {| box_y_min := 0; box_x_min := 0; box_y_max := 100; box_x_max := 400 |};
       label := "button"; element_description := None; element_text := Some "Back" |};
    {| bbox := {| box_y_min := 0; box_x_min := 500; box_y_max := 100; box_x_max := 900 |};
       label := "button"; element_description := None; element_text := Some "Next" |} ].

(** A page with two top-level boxes: a header that holds a button, and
    a section that holds a card with a text and an image inside it. *)
Definition two_regions : list Element :=
  [ {| bbox := {| box_y_min := 0; box_x_min := 0; box_y_max := 100; box_x_max := 1000 |};
       label := "div"; element_description := None; element_text := None |};
    {| bbox := {| box_y_min := 10; box_x_min := 10; box_y_max := 90; box_x_max := 200 |};
       label := "button"; element_description := None; element_text := Some "Menu" |};
    {| bbox := {| box_y_min := 200; box_x_min := 0; box_y_max := 900; box_x_max := 1000 |};
       label := "section"; element_description := None; element_text := None |};
    {| bbox := {| box_y_min := 250; box_x_min := 50; box_y_max := 850; box_x_max := 500 |};
       label := "div"; element_description := None; element_text := None |};
    {| bbox := {| box_y_min := 300; box_x_min := 100; box_y_max := 400; box_x_max := 400 |};
       label := "text"; element_description := None; element_text := Some "Title" |};
    {| bbox := {| box_y_min := 450; box_x_min := 100; box_y_max := 800; box_x_max := 400 |};
       label := "image"; element_description := None; element_text := None |} ].

(** The hierarchy of [two_regions], built without and with an image. *)
Definition two_regions_forest : Forest :=
  Eval vm_compute in
    match convert_json_structure two_regions None with
    | Some forest => forest
    | None => []
    end.

Definition two_regions_forest_with_image : Forest :=
  Eval vm_compute in
    match convert_json_structure two_regions (Some sample_image) with
    | Some forest => forest
    | None => []
    end.

(** The media elements registered so far are listed as media of their
    parent: for every index of [done] whose crop is valid. *)
Definition media_registered (image : option ImageInfo) (done : list nat)
    (t : list CompRec) : Prop :=
  forall i m p, In i done ->
    nth_error t i = Some m -> parent_index m = Some p ->
    media_file image i (bbox (original_data m)) <> None ->
    exists cp, nth_error t p = Some cp /\ In i (media_indices cp).

End HierarchyShape.

(** ** Palettes *)

Module PaletteShape.
Import Colors.

(** A pixel of an 8-bit RGB image. *)
Definition eight_bit (p : pixel) : Prop :=
  let '(r, g, b) := p in
  0 <= r < 256 /\ 0 <= g < 256 /\ 0 <= b < 256.

(** The strict lexicographic order of pixels. *)
Definition pixel_lt (a b : pixel) : Prop := pixel_compare a b = Lt.

End PaletteShape.

(** ** Selections of a list *)

Module Sequences.

(** [m] is obtained from [l] by dropping elements. *)
Inductive sublist {A : Type} : list A -> list A -> Prop :=
| sublist_nil : sublist [] []
| sublist_skip a m l : sublist m l -> sublist m (a :: l)
| sublist_keep a m l : sublist m l -> sublist (a :: m) (a :: l).

End Sequences.

(** ** Color palettes of the components *)

Module Palette.
Import Tree.

Section Extraction.

(** What the run reads from the image with the media areas painted
    over: its size, and the palette that [_extract_dominant_colors]
    returns for the crop [(x1, y1, x2, y2)] of it. *)
Variable palette_of : Z -> Z -> Z -> Z -> list string.
Variable img_width img_height : Z.

(** [max(0, min(int(v * size / 1000), size))]. *)
Definition to_px (v size : Z) : Z :=
  Z.max 0 (Z.min (Z.quot (v * size) 1000) size).

Definition skipped_types : list string := ["media"; "icon"; "logo"; "image"].

(** The palette extracted for a component, when its box is present and
    its crop is not empty. *)
Definition crop_palette (co : option Coordinates) : option (list string) :=
  let coords := match co with Some c => c | None => no_coordinates end in
  if is_empty_dict coords then None
  else
    let x1 := to_px (get0 (x1 coords)) img_width in
    let y1 := to_px (get0 (y1 coords)) img_height in
    let x2 := to_px (get0 (x2 coords)) img_width in
    let y2 := to_px (get0 (y2 coords)) img_height in
    if (x1 <? x2) && (y1 <? y2) then Some (palette_of x1 y1 x2 y2) else None.

(** [styles["colorPalette"] = color_palette], where there are styles. *)
Definition with_palette (color_palette : option (list string)) (st : option Styles)
    : option Styles :=
  match color_palette, st with
  | Some pal, Some s =>
      Some {| width := width s; height := height s; colorPalette := pal |}
  | _, _ => st
  end.

(** [_process_component_for_color] on a component and the set
    [processed] of the ids seen so far; the result is the component as
    it is returned and the set as it is left. *)
Fixpoint _process_component_for_color (comp_data : Component)
    (processed : list string) {struct comp_data} : Component * list string :=
  match comp_data with
  | MkComponent i t co d =>
      if match i with Some s => str_in s processed | None => false end
      then (comp_data, processed)
      else if match t with Some s => str_in s skipped_types | None => false end
      then (comp_data, processed)
      else
        let processed := match i with Some s => s :: processed | None => processed end in
        let color_palette := crop_palette co in
        match d with
        | None => (comp_data, processed)
        | Some desc =>
            let styles' := with_palette color_palette (styles desc) in
            match children desc with
            | None =>
                (MkComponent i t co
                   (Some {| description_type := description_type desc;
                            description_text := description_text desc;
                            content := content desc;
                            children := None;
                            styles := styles';
                            layout := layout desc |}),
                 processed)
            | Some kids =>
                let (kids', processed') :=
                  (fix each (l : list Component) (p : list string)
                     : list Component * list string :=
                     match l with
                     | [] => ([], p)
                     | k :: r =>
                         let (k', p') := _process_component_for_color k p in
                         let (r', p'') := each r p' in
                         (k' :: r', p'')
                     end) kids processed in
                (MkComponent i t co
                   (Some {| description_type := description_type desc;
                            description_text := description_text desc;
                            content := content desc;
                            children := Some kids';
                            styles := styles';
                            layout := layout desc |}),
                 processed')
            end
        end
  end.

(** The loop over the children of a component. *)
Fixpoint color_children (l : list Component) (p : list string)
    : list Component * list string :=
  match l with
  | [] => ([], p)
  | k :: r =>
      let (k', p') := _process_component_for_color k p in
      let (r', p'') := color_children r p' in
      (k' :: r', p'')
  end.

(** The loop of [extract_color_palettes] over the top-level entries,
    with the one set [processed] shared by all of them. *)
Fixpoint color_entries (json_data : Forest) (processed : list string) : Forest :=
  match json_data with
  | [] => []
  | (comp_id, comp_data) :: rest =>
      let (comp_data', processed') :=
        _process_component_for_color comp_data processed in
      (comp_id, comp_data') :: color_entries rest processed'
  end.

Definition extract_color_palettes (json_data : Forest) : Forest :=
  color_entries json_data [].

End Extraction.

(** A component with every [colorPalette] of its tree emptied. *)
Fixpoint without_palettes (c : Component) : Component :=
  match c with
  | MkComponent i t co d =>
      MkComponent i t co
        (match d with
         | None => None
         | Some desc =>
             Some {| description_type := description_type desc;
                     description_text := description_text desc;
                     content := content desc;
                     children :=
                       match children desc with
                       | Some kids => Some (map without_palettes kids)
                       | None => None
                       end;
                     styles :=
                       match styles desc with
                       | Some s => Some {| width := width s; height := height s;
                                           colorPalette := [] |}
                       | None => None
                       end;
                     layout := layout desc |}
         end)
  end.

(** A component that carries no styles. *)
Definition no_styles (c : Component) : Prop :=
  match description c with
  | Some d => styles d = None
  | None => True
  end.

(** The subtrees below the children of a component. *)
Definition grandchildren (c : Component) : list (list Component) :=
  map children_or_empty (children_or_empty c).

End Palette.

(** ** Double precision *)

(** The percentage expression of [_process_component],
    [round(offset / extent * 100, 2) if extent else 0], as CPython
    evaluates it on integers: the true division of two integers, a
    multiplication of doubles and the two-digit [round] of a double.  A
    finite double is represented by the rational number it stands for
    (the two zeros are one value); results are rounded to the nearest
    double, ties to the one with the even significand, as IEEE 754
    binary64 prescribes, subnormal numbers and overflow included. *)
Module Float64.
Import Layout.

Inductive double :=
| Finite (value : Q)
| Infinite (negative : bool)
| NaN.

Definition pow2 (e : Z) : Q := (2 ^ e)%Q.

(** Half an ulp of 1, relative: [2 ** -53]. *)
Definition eps : Q := 1 # 9007199254740992.

(** The binary exponent of a non-zero number: [floor(log2(abs(x)))]. *)
Definition binade (x : Q) : Z :=
  let e := Z.log2 (Z.abs (Qnum x)) - Z.log2 (Zpos (Qden x)) in
  if Qle_bool (pow2 e) (Qabs x) then e else e - 1.

(** The distance between neighbouring doubles around [x]: 53 bits of
    significand, and [2 ** -1074] in the subnormal range. *)
Definition spacing (x : Q) : Q := pow2 (Z.max (binade x - 52) (-1074)).

(** Round to nearest, ties to even, with an unbounded exponent. *)
Definition nearest (x : Q) : Q :=
  if Qeq_bool x 0 then 0%Q
  else (inject_Z (round_half_even (x / spacing x)) * spacing x)%Q.

(** The double that an exact result is rounded to; a result that rounds
    to [2 ** 1024] or beyond overflows. *)
Definition of_exact (x : Q) : double :=
  let r := nearest x in
  if Qle_bool (pow2 1024) (Qabs r) then Infinite (Qltb x 0) else Finite r.

(** [a / b] on integers: correctly rounded; [ZeroDivisionError] and
    [OverflowError] are [None]. *)
Definition true_divide (a b : Z) : option double :=
  if b =? 0 then None
  else match of_exact (inject_Z a / inject_Z b) with
       | Finite v => Some (Finite v)
       | _ => None
       end.

(** [x * y] on doubles. *)
Definition float_mul (x y : double) : double :=
  match x, y with
  | Finite u, Finite v => of_exact (u * v)
  | Finite u, Infinite s | Infinite s, Finite u =>
      if Qeq_bool u 0 then NaN else Infinite (xorb s (Qltb u 0))
  | Infinite s, Infinite t => Infinite (xorb s t)
  | _, _ => NaN
  end.

(** [round(x, 2)] on a double: the exact value of [x] is rounded to two
    decimals, ties to the even hundredth, and the double nearest to that
    decimal is returned; infinities and NaN round to themselves. *)
Definition float_round2 (x : double) : double :=
  match x with
  | Finite v => of_exact (round2 v)
  | other => other
  end.

(** [round(offset / extent * 100, 2) if extent else 0]. *)
Definition percent_double (offset extent : Z) : option double :=
  if extent =? 0 then Some (Finite 0)
  else q <- true_divide offset extent ;;
       Some (float_round2 (float_mul q (Finite 100))).

(** The exact ratio [offset / extent * 100] lies halfway between two
    hundredths. *)
Definition halfway (offset extent : Z) : bool :=
  (20000 * offset) mod (2 * extent) =? extent.

(** *** Boxes inside the viewport *)

(** The pairs [(offset, extent)] with [0 <= offset <= extent <= 1000],
    [extent > 0]. *)
Fixpoint count_from (start : Z) (n : nat) : list Z :=
  match n with
  | O => []
  | S n' => start :: count_from (start + 1) n'
  end.

Definition viewport_pairs : list (Z * Z) :=
  flat_map (fun extent =>
              map (fun offset => (offset, extent))
                  (count_from 0 (S (Z.to_nat extent))))
           (count_from 1 1000).

(** Those of them at which the exact ratio is a tie. *)
Definition viewport_ties : list (Z * Z) :=
  filter (fun p => halfway (fst p) (snd p)) viewport_pairs.

(** Among them, the pairs for which the doubles settle one hundredth
    below, respectively above, the exact ratio rounded to two decimals. *)
Definition stored_below : list (Z * Z) :=
  [(23, 160); (51, 160); (87, 160); (46, 320); (102, 320); (174, 320);
   (69, 480); (153, 480); (261, 480); (92, 640); (204, 640); (348, 640);
   (115, 800); (203, 800); (207, 800); (251, 800); (255, 800); (427, 800);
   (431, 800); (435, 800); (439, 800); (138, 960); (306, 960); (522, 960)].

Definition stored_above : list (Z * Z) :=
  [(49, 160); (93, 160); (98, 320); (186, 320); (147, 480); (279, 480);
   (196, 640); (372, 640); (109, 800); (245, 800); (249, 800); (461, 800);
   (465, 800); (469, 800); (473, 800); (294, 960); (558, 960)].

Definition same_pair (p q : Z * Z) : bool := (fst p =? fst q) && (snd p =? snd q).

Definition listed (p : Z * Z) (l : list (Z * Z)) : bool := existsb (same_pair p) l.

Definition hundredths_shift (offset extent : Z) : Z :=
  if listed (offset, extent) stored_below then -1
  else if listed (offset, extent) stored_above then 1
  else 0.

(** Two rationals with the same numerator and the same denominator. *)
Definition same_fraction (x y : Q) : bool :=
  (Qnum x =? Qnum y) && Pos.eqb (Qden x) (Qden y).

(** The stored percentage of a pair is the double nearest to the
    exactly rounded hundredth, moved by the shift of the pair. *)
Definition stored_as_listed (p : Z * Z) : bool :=
  let '(offset, extent) := p in
  let k := round_half_even (inject_Z offset / inject_Z extent * 100 * 100)
           + hundredths_shift offset extent in
  match percent_double offset extent with
  | Some (Finite v) => same_fraction v (nearest (inject_Z k / 100))
  | _ => false
  end.

End Float64.
(** * Properties *)

(** ** Shared facts *)

Lemma Qltb_lt (a b : Q) : Qltb a b = true <-> (a < b)%Q.
Proof.
  unfold Qltb. rewrite negb_true_iff. split; intro H.
  - apply Qnot_le_lt. intro Hle. apply Qle_bool_iff in Hle. congruence.
  - destruct (Qle_bool b a) eqn:E; [|reflexivity].
    apply Qle_bool_iff in E. exfalso. apply (Qlt_not_le _ _ H E).
Qed.

Lemma Qltb_ge (a b : Q) : Qltb a b = false <-> (b <= a)%Q.
Proof.
  unfold Qltb. rewrite negb_false_iff. apply Qle_bool_iff.
Qed.

Lemma insert_pos_perm (p : Z) (l : list Z) : Permutation (p :: l) (insert_pos p l).
Proof.
  induction l as [|q t IH]; simpl; [reflexivity|].
  destruct (p <=? q); [reflexivity|].
  rewrite perm_swap. now constructor.
Qed.

Lemma sort_pos_perm (l : list Z) : Permutation l (sort_pos l).
Proof.
  induction l as [|p t IH]; simpl; [constructor|].
  rewrite <- insert_pos_perm. now constructor.
Qed.

Lemma insert_pos_sorted (p : Z) (l : list Z) :
  StronglySorted Z.le l -> StronglySorted Z.le (insert_pos p l).
Proof.
  induction 1 as [|q t Hs IH Hq]; simpl.
  - repeat constructor.
  - destruct (Z.leb_spec p q).
    + constructor; [now constructor|].
      constructor; [assumption|].
      eapply Forall_impl; [|exact Hq]. intros; lia.
    + constructor; [assumption|].
      rewrite <- (insert_pos_perm p t). constructor; [lia|assumption].
Qed.

Lemma sort_pos_sorted (l : list Z) : StronglySorted Z.le (sort_pos l).
Proof.
  induction l; simpl; [constructor|now apply insert_pos_sorted].
Qed.

(** A relation that holds between every element of a list and every
    later one holds so for any reordering, when it is symmetric. *)
Lemma StronglySorted_sym_perm {A : Type} (R : A -> A -> Prop) (l m : list A) :
  (forall a b, R a b -> R b a) ->
  Permutation l m -> StronglySorted R l -> StronglySorted R m.
Proof.
  intros Hsym Hp. induction Hp as [|x l m Hp IH|x y l|l m n H1 IH1 H2 IH2]; intro Hs.
  - constructor.
  - inversion Hs; subst. constructor; [now apply IH|].
    now rewrite <- Hp.
  - inversion Hs as [|? ? Hyl Hy]; subst.
    inversion Hyl as [|? ? Hl Hx]; subst.
    inversion Hy; subst.
    constructor; [constructor; assumption|].
    constructor; [now apply Hsym|assumption].
  - auto.
Qed.

Lemma StronglySorted_conj {A : Type} (R S T : A -> A -> Prop) (l : list A) :
  (forall a b, R a b -> S a b -> T a b) ->
  StronglySorted R l -> StronglySorted S l -> StronglySorted T l.
Proof.
  intros HT HR. induction HR as [|a t HRt IH Ha]; intro HS; [constructor|].
  inversion HS; subst. constructor; [now apply IH|].
  rewrite Forall_forall in *. intros x Hx. apply HT; auto.
Qed.

Lemma StronglySorted_snoc {A : Type} (R : A -> A -> Prop) (l : list A) (x : A) :
  StronglySorted R l -> Forall (fun a => R a x) l -> StronglySorted R (l ++ [x]).
Proof.
  induction 1 as [|a t Ht IH Ha]; intro Hx; simpl.
  - repeat constructor.
  - inversion Hx; subst. constructor; [now apply IH|].
    apply Forall_app. split; [assumption|now constructor].
Qed.

(** ** Facts about the separation-line detector and the segmenter *)

Module SegmentationFacts.
Import Segmentation.

Lemma apart_sym (d a b : Z) : apart d a b -> apart d b a.
Proof. unfold apart. lia. Qed.

Lemma insert_conf_perm (c : candidate) (l : list candidate) :
  Permutation (c :: l) (insert_conf c l).
Proof.
  induction l as [|d t IH]; simpl; [reflexivity|].
  destruct (Qltb (snd c) (snd d)); [|reflexivity].
  rewrite perm_swap. now constructor.
Qed.

Lemma sort_by_confidence_perm (l : list candidate) :
  Permutation l (sort_by_confidence l).
Proof.
  induction l as [|c t IH]; simpl; [constructor|].
  rewrite <- insert_conf_perm. now constructor.
Qed.

Lemma insert_conf_sorted (c : candidate) (l : list candidate) :
  StronglySorted conf_ge l -> StronglySorted conf_ge (insert_conf c l).
Proof.
  induction 1 as [|d t Hs IH Hd]; simpl.
  - repeat constructor.
  - destruct (Qltb (snd c) (snd d)) eqn:E.
    + apply Qltb_lt in E. constructor; [assumption|].
      rewrite <- (insert_conf_perm c t). constructor; [|assumption].
      unfold conf_ge. now apply Qlt_le_weak.
    + apply Qltb_ge in E. constructor; [now constructor|].
      constructor; [exact E|].
      eapply Forall_impl; [|exact Hd]. unfold conf_ge. intros x Hx.
      eapply Qle_trans; eassumption.
Qed.

Lemma sort_by_confidence_sorted (l : list candidate) :
  StronglySorted conf_ge (sort_by_confidence l).
Proof.
  induction l; simpl; [constructor|now apply insert_conf_sorted].
Qed.

Lemma far_enough_spec (d pos : Z) (selected : list Z) :
  far_enough d pos selected = true <-> Forall (fun q => apart d q pos) selected.
Proof.
  unfold far_enough. rewrite forallb_forall, Forall_forall.
  split; intros H x Hx; specialize (H x Hx); unfold apart in *; lia.
Qed.

(** The greedy loop processes a concatenation piece by piece. *)
Lemma greedy_app (d : Z) (l1 l2 : list candidate) (selected : list Z) :
  greedy d selected (l1 ++ l2) = greedy d (greedy d selected l1) l2.
Proof.
  revert selected. induction l1 as [|[p c] t IH]; intro selected; simpl; [reflexivity|].
  destruct (far_enough d p selected); apply IH.
Qed.

Lemma greedy_apart (d : Z) (cands : list candidate) (selected : list Z) :
  StronglySorted (apart d) selected ->
  StronglySorted (apart d) (greedy d selected cands).
Proof.
  revert selected. induction cands as [|[p c] t IH]; intros selected Hs; simpl; [assumption|].
  destruct (far_enough d p selected) eqn:E; [|now apply IH].
  apply IH. apply StronglySorted_snoc; [assumption|].
  now apply far_enough_spec.
Qed.

Lemma greedy_incl (d : Z) (cands : list candidate) (selected : list Z) (p : Z) :
  In p (greedy d selected cands) -> In p selected \/ In p (map fst cands).
Proof.
  revert selected. induction cands as [|[q c] t IH]; intros selected Hin; simpl in *; [now left|].
  destruct (far_enough d q selected).
  - apply IH in Hin. destruct Hin as [Hin|Hin]; [|now right; right].
    apply in_app_or in Hin. destruct Hin as [Hin|[Hin|[]]]; [now left|right; now left].
  - apply IH in Hin. destruct Hin; [now left|right; now right].
Qed.

Lemma greedy_keeps (d : Z) (cands : list candidate) (selected : list Z) (p : Z) :
  In p selected -> In p (greedy d selected cands).
Proof.
  revert selected. induction cands as [|[q c] t IH]; intros selected Hin; simpl; [assumption|].
  destruct (far_enough d q selected); apply IH; [|assumption].
  apply in_or_app. now left.
Qed.

Lemma greedy_thr_apart (thr : Q) (d : Z) (cands : list candidate) (selected : list Z) :
  StronglySorted (apart d) selected ->
  StronglySorted (apart d) (greedy_thr thr d selected cands).
Proof.
  revert selected. induction cands as [|[p c] t IH]; intros selected Hs; simpl; [assumption|].
  destruct (Qltb c thr); [now apply IH|].
  destruct (far_enough d p selected) eqn:E; [|now apply IH].
  apply IH. apply StronglySorted_snoc; [assumption|].
  now apply far_enough_spec.
Qed.

Lemma greedy_thr_incl (thr : Q) (d : Z) (cands : list candidate) (selected : list Z) (p : Z) :
  In p (greedy_thr thr d selected cands) -> In p selected \/ In p (map fst cands).
Proof.
  revert selected. induction cands as [|[q c] t IH]; intros selected Hin; simpl in *; [now left|].
  destruct (Qltb c thr).
  { apply IH in Hin. destruct Hin; [now left|right; now right]. }
  destruct (far_enough d q selected).
  - apply IH in Hin. destruct Hin as [Hin|Hin]; [|now right; right].
    apply in_app_or in Hin. destruct Hin as [Hin|[Hin|[]]]; [now left|right; now left].
  - apply IH in Hin. destruct Hin; [now left|right; now right].
Qed.

Lemma sort_pos_apart (d : Z) (l : list Z) :
  StronglySorted (apart d) l -> StronglySorted (apart d) (sort_pos l).
Proof.
  apply StronglySorted_sym_perm; [apply apart_sym|apply sort_pos_perm].
Qed.

Lemma first_pass_apart (cands : list candidate) (d : Z) :
  StronglySorted (apart d) (first_pass cands d).
Proof.
  unfold first_pass. apply sort_pos_apart, greedy_apart. constructor.
Qed.

Lemma second_pass_apart (cands : list candidate) (d : Z) :
  StronglySorted (apart (d / 2)) (second_pass cands d).
Proof.
  unfold second_pass. destruct (sort_by_confidence cands) as [|[top c] rest]; [constructor|].
  apply sort_pos_apart, greedy_apart. repeat constructor.
Qed.

Lemma sort_by_confidence_nonempty (c : candidate) (l : list candidate) :
  sort_by_confidence (c :: l) <> [].
Proof.
  intro H. pose proof (sort_by_confidence_perm (c :: l)) as Hp.
  rewrite H in Hp. apply Permutation_sym, Permutation_nil in Hp. discriminate.
Qed.

(** C3: selection among the detector's candidates.  The candidates are
    ordered by confidence, highest first (a reordering of the input).
    In the acceptance loop, whatever lines it starts from and whatever
    candidates it has walked, the next candidate is accepted exactly when
    its position is at least the minimum distance from every position
    accepted so far.  If the pass accepts at least three lines, its result is returned;
    otherwise the second pass starts from the highest-confidence
    candidate and repeats the acceptance rule on the remaining candidates
    with half the distance (floor division).  The returned positions are
    in ascending order and pairwise at least the effective distance of
    the pass that produced them apart. *)
Theorem separation_line_selection (cands : list candidate) (min_line_distance : Z) :
  let sorted := sort_by_confidence cands in
  let result := select_lines cands min_line_distance in
  (Permutation cands sorted /\ StronglySorted conf_ge sorted)
  /\ (forall d start before pos conf,
        let accepted := greedy d start before in
        (Forall (fun q => d <= Z.abs (pos - q)) accepted ->
           greedy d start (before ++ [(pos, conf)]) = accepted ++ [pos])
        /\ (~ Forall (fun q => d <= Z.abs (pos - q)) accepted ->
           greedy d start (before ++ [(pos, conf)]) = accepted))
  /\ ((3 <= length (first_pass cands min_line_distance))%nat ->
        result = sort_pos (greedy min_line_distance [] sorted))
  /\ ((length (first_pass cands min_line_distance) < 3)%nat -> cands <> [] ->
        exists top conf rest,
          sorted = (top, conf) :: rest
          /\ Forall (fun c => (snd c <= conf)%Q) cands
          /\ result = sort_pos (greedy (min_line_distance / 2) [top] rest)
          /\ In top result)
  /\ StronglySorted Z.le result
  /\ StronglySorted
       (fun a b => effective_distance cands min_line_distance <= Z.abs (a - b))
       result.
Proof.
  cbv zeta. split; [|split; [|split; [|split; [|split]]]].
  - split; [apply sort_by_confidence_perm|apply sort_by_confidence_sorted].
  - intros d start before pos conf. rewrite greedy_app. simpl.
    split; intro H.
    + assert (E : far_enough d pos (greedy d start before) = true).
      { apply far_enough_spec. eapply Forall_impl; [|exact H].
        intros q Hq. unfold apart. cbv beta in Hq. lia. }
      now rewrite E.
    + destruct (far_enough d pos (greedy d start before)) eqn:E; [|reflexivity].
      exfalso. apply H. apply far_enough_spec in E.
      eapply Forall_impl; [|exact E]. intros q Hq. unfold apart in Hq. cbv beta in *. lia.
  - intro H3. unfold select_lines. destruct cands as [|c t]; [cbv in H3; lia|].
    apply Nat.leb_le in H3. rewrite H3. reflexivity.
  - intros H3 Hne. unfold select_lines. destruct cands as [|c t]; [congruence|].
    apply Nat.leb_gt in H3. rewrite H3. unfold second_pass.
    pose proof (sort_by_confidence_sorted (c :: t)) as Hs.
    pose proof (sort_by_confidence_perm (c :: t)) as Hp.
    destruct (sort_by_confidence (c :: t)) as [|[top conf] rest] eqn:E.
    { exfalso. now apply (sort_by_confidence_nonempty c t). }
    exists top, conf, rest. split; [reflexivity|]. split; [|split; [reflexivity|]].
    + rewrite Forall_forall. intros x Hx.
      apply (Permutation_in _ Hp) in Hx. destruct Hx as [Hx|Hx].
      * subst x. simpl. apply Qle_refl.
      * inversion Hs as [|? ? _ Hall]; subst. rewrite Forall_forall in Hall.
        exact (Hall x Hx).
    + apply (Permutation_in _ (sort_pos_perm _)).
      apply greedy_keeps. now left.
  - unfold select_lines. destruct cands as [|c t]; [constructor|].
    destruct (3 <=? length (first_pass (c :: t) min_line_distance))%nat.
    + apply sort_pos_sorted.
    + unfold second_pass. destruct (sort_by_confidence (c :: t)) as [|[top conf] rest];
        [constructor|apply sort_pos_sorted].
  - unfold select_lines, effective_distance. destruct cands as [|c t]; [constructor|].
    destruct (3 <=? length (first_pass (c :: t) min_line_distance))%nat.
    + apply (first_pass_apart (c :: t) min_line_distance).
    + apply (second_pass_apart (c :: t) min_line_distance).
Qed.

Lemma separation_line_selection_witness :
  select_lines four_candidates 100 = [150; 400; 800]
  /\ select_lines three_candidates 100 = [100; 150; 800]
  /\ In 150 (select_lines three_candidates 100).
Proof.
  destruct (separation_line_selection four_candidates 100)
    as (_ & _ & Hfirst & _).
  destruct (separation_line_selection three_candidates 100)
    as (_ & _ & _ & Hsecond & _).
  split; [|split].
  - rewrite Hfirst; [vm_compute; reflexivity|].
    vm_compute. apply le_n.
  - destruct Hsecond as (top & conf & rest & Hsorted & _ & Heq & _).
    + vm_compute. apply le_n.
    + discriminate.
    + vm_compute in Hsorted. injection Hsorted as Htop _ Hrest. subst top rest.
      rewrite Heq. vm_compute. reflexivity.
  - destruct Hsecond as (top & conf & rest & Hsorted & _ & _ & Hin).
    + vm_compute. apply le_n.
    + discriminate.
    + vm_compute in Hsorted. injection Hsorted as Htop _ _. subst top.
      exact Hin.
Defined.

(** *** The segmenter *)

Lemma scan_row_pos img var_thr diff_thr portion_thr window_size i pos conf :
  In i (scan_range img window_size) ->
  scan_row img var_thr diff_thr portion_thr window_size i = Some (Some (pos, conf)) ->
  0 < pos < Z.of_nat (length img).
Proof.
  unfold scan_range. rewrite in_seq. intros Hi H.
  unfold scan_row, obind in H.
  destruct (nth_error img (i - window_size - 1)); [|discriminate].
  destruct (nth_error img i); [|discriminate].
  destruct (window_first _); [|discriminate].
  destruct (window_last _); [|discriminate].
  destruct (_ && _); [|discriminate].
  injection H as Hpos _. subst pos.
  destruct (is_border _ _ _); lia.
Qed.

Lemma scan_rows_pos img var_thr diff_thr portion_thr window_size rows cands :
  incl rows (scan_range img window_size) ->
  scan_rows img var_thr diff_thr portion_thr window_size rows = Some cands ->
  Forall (fun p => 0 < p < Z.of_nat (length img)) (map fst cands).
Proof.
  revert cands. induction rows as [|i rest IH]; intros cands Hincl H; simpl in H.
  - injection H as <-. constructor.
  - unfold obind in H.
    destruct (scan_row _ _ _ _ _ i) as [c|] eqn:Ec; [|discriminate].
    destruct (scan_rows _ _ _ _ _ rest) as [cs|] eqn:Ecs; [|discriminate].
    injection H as <-.
    assert (Hcs : Forall (fun p => 0 < p < Z.of_nat (length img)) (map fst cs)).
    { apply IH; [|reflexivity]. intros x Hx. apply Hincl. now right. }
    destruct c as [[pos conf]|]; [|assumption].
    simpl. constructor; [|assumption].
    eapply scan_row_pos; [|exact Ec]. apply Hincl. now left.
Qed.

Lemma scan_row_total img var_thr diff_thr portion_thr window_size i :
  (1 <= window_size)%nat ->
  In i (scan_range img window_size) ->
  exists c, scan_row img var_thr diff_thr portion_thr window_size i = Some c.
Proof.
  unfold scan_range. rewrite in_seq. intros Hw Hi.
  unfold scan_row, obind.
  destruct (nth_error img (i - window_size - 1)) eqn:E1.
  2:{ apply nth_error_None in E1. lia. }
  destruct (nth_error img i) eqn:E2.
  2:{ apply nth_error_None in E2. lia. }
  set (window := firstn window_size (skipn (i - window_size) img)).
  assert (Hlen : (1 <= length window)%nat).
  { unfold window. rewrite length_firstn, length_skipn. lia. }
  unfold window_first, window_last.
  destruct window as [|w0 wt] eqn:Ew; [simpl in Hlen; lia|].
  simpl hd_error at 1.
  destruct (rev (w0 :: wt)) as [|wl wr] eqn:Er.
  { apply (f_equal (@length _)) in Er. rewrite length_rev in Er. discriminate. }
  simpl. destruct (_ && _); eauto.
Qed.

Lemma scan_rows_total img var_thr diff_thr portion_thr window_size rows :
  (1 <= window_size)%nat ->
  incl rows (scan_range img window_size) ->
  exists cands, scan_rows img var_thr diff_thr portion_thr window_size rows = Some cands.
Proof.
  intros Hw. induction rows as [|i rest IH]; intro Hincl; simpl; [eauto|].
  destruct (scan_row_total img var_thr diff_thr portion_thr window_size i Hw) as [c Ec].
  { apply Hincl. now left. }
  destruct IH as [cs Ecs]. { intros x Hx. apply Hincl. now right. }
  rewrite Ec, Ecs. simpl. eauto.
Qed.

Lemma select_lines_incl cands d p :
  In p (select_lines cands d) -> In p (map fst cands).
Proof.
  unfold select_lines. destruct cands as [|c t]; [intros []|].
  set (cs := c :: t).
  assert (Hsorted : forall x, In x (map fst (sort_by_confidence cs)) -> In x (map fst cs)).
  { intro x. apply Permutation_in. apply Permutation_map, Permutation_sym,
      sort_by_confidence_perm. }
  destruct (3 <=? length (first_pass cs d))%nat.
  - unfold first_pass. intro H.
    apply (Permutation_in _ (Permutation_sym (sort_pos_perm _))) in H.
    apply greedy_incl in H. destruct H as [[]|H]. now apply Hsorted.
  - unfold second_pass.
    destruct (sort_by_confidence cs) as [|[top conf] rest] eqn:E; [intros []|].
    intro H. apply (Permutation_in _ (Permutation_sym (sort_pos_perm _))) in H.
    apply greedy_incl in H. apply Hsorted. simpl.
    destruct H as [[H|[]]|H]; [now left|now right].
Qed.

Lemma all_candidates_positions d lines_1 blank_regions color_regions :
  map fst (all_candidates d lines_1 blank_regions color_regions)
  = lines_1 ++ blank_regions ++ color_regions.
Proof.
  unfold all_candidates. rewrite !map_app, !map_map. simpl.
  now rewrite !map_id.
Qed.

Lemma adjacent_pairs_cons (a b : Z) (l : list Z) :
  adjacent_pairs (a :: b :: l) = (a, b) :: adjacent_pairs (b :: l).
Proof. reflexivity. Qed.

Lemma adjacent_pairs_fst (a : Z) (l : list Z) (b : Z) :
  map fst (adjacent_pairs (a :: l ++ [b])) = a :: l.
Proof.
  revert a. induction l as [|x t IH]; intro a; [reflexivity|].
  rewrite <- app_comm_cons, adjacent_pairs_cons, map_cons, IH. reflexivity.
Qed.

Lemma adjacent_pairs_snd (a : Z) (l : list Z) (b : Z) :
  map snd (adjacent_pairs (a :: l ++ [b])) = l ++ [b].
Proof.
  revert a. induction l as [|x t IH]; intro a; [reflexivity|].
  rewrite <- app_comm_cons, adjacent_pairs_cons, map_cons, IH. reflexivity.
Qed.

(** Strictly increasing boundaries cut the range between the first and
    the last of them into intervals of which exactly one holds a given
    row. *)
Lemma adjacent_pairs_partition (l : list Z) (a b y : Z) :
  StronglySorted Z.lt (a :: l ++ [b]) ->
  a <= y < b ->
  exists s, (In s (adjacent_pairs (a :: l ++ [b])) /\ fst s <= y < snd s)
    /\ forall s', In s' (adjacent_pairs (a :: l ++ [b])) ->
                  fst s' <= y < snd s' -> s' = s.
Proof.
  revert a. induction l as [|x t IH]; intros a Hs Hy.
  - exists (a, b). simpl. split; [split; [now left|assumption]|].
    intros s' [<-|[]] _. reflexivity.
  - rewrite <- app_comm_cons in *. rewrite adjacent_pairs_cons.
    inversion Hs as [|? ? Hs' Ha]; subst.
    assert (Hlow : forall s', In s' (adjacent_pairs (x :: t ++ [b])) -> x <= fst s').
    { intros s' Hin. apply (in_map fst) in Hin. rewrite adjacent_pairs_fst in Hin.
      destruct Hin as [<-|Hin]; [lia|].
      inversion Hs' as [|? ? _ Hx]; subst. rewrite Forall_forall in Hx.
      assert (x < fst s') by (apply Hx; apply in_or_app; now left). lia. }
    inversion Ha as [|? ? Hax _]; subst.
    destruct (Z_lt_le_dec y x) as [Hyx|Hyx].
    + exists (a, x). split; [split; [now left|simpl; lia]|].
      intros s' [<-|Hin] Hy'; [reflexivity|].
      specialize (Hlow s' Hin). lia.
    + destruct (IH x Hs') as [s [[Hin Hys] Huniq]]; [lia|].
      exists s. split; [split; [now right|assumption]|].
      intros s' [<-|Hin'] Hy'; [simpl in Hy'; lia|].
      now apply Huniq.
Qed.

Lemma boundaries_increasing (h : Z) (lines : list Z) :
  0 < h ->
  StronglySorted Z.lt lines ->
  Forall (fun p => 0 < p < h) lines ->
  StronglySorted Z.lt (0 :: lines ++ [h]).
Proof.
  intros Hh Hs Hr. constructor.
  - apply StronglySorted_snoc; [assumption|].
    eapply Forall_impl; [|exact Hr]. intros p Hp; cbv beta in Hp; lia.
  - apply Forall_app. split.
    + eapply Forall_impl; [|exact Hr]. intros p Hp; cbv beta in Hp; lia.
    + now repeat constructor.
Qed.

Lemma adjacent_pairs_nonempty (l : list Z) :
  StronglySorted Z.lt l -> Forall (fun s => fst s < snd s) (adjacent_pairs l).
Proof.
  induction 1 as [|a t Hs IH Ha]; [constructor|].
  destruct t as [|b t']; [constructor|].
  rewrite adjacent_pairs_cons. constructor; [|assumption].
  inversion Ha; subst. assumption.
Qed.

Lemma separation_lines_in_range img var_thr diff_thr portion_thr window_size d lines :
  separation_line_detection img var_thr diff_thr portion_thr window_size d = Some lines ->
  Forall (fun p => 0 < p < Z.of_nat (length img)) lines.
Proof.
  unfold separation_line_detection, obind, candidate_lines.
  destruct (scan_rows _ _ _ _ _ _) as [cands|] eqn:E; [|discriminate].
  intro H. injection H as <-.
  apply scan_rows_pos in E; [|apply incl_refl].
  rewrite Forall_forall in *. intros p Hp. apply E.
  eapply select_lines_incl. exact Hp.
Qed.

Lemma separation_line_detection_total img var_thr diff_thr portion_thr window_size d :
  (1 <= window_size)%nat ->
  exists lines,
    separation_line_detection img var_thr diff_thr portion_thr window_size d = Some lines.
Proof.
  intro Hw. unfold separation_line_detection, obind, candidate_lines.
  destruct (scan_rows_total img var_thr diff_thr portion_thr window_size
              (scan_range img window_size) Hw (incl_refl _)) as [cands ->].
  eauto.
Qed.

Lemma holds_row_spec (y : Z) (s : Z * Z) :
  holds_row y s = true <-> fst s <= y < snd s.
Proof. unfold holds_row. rewrite andb_true_iff, Z.leb_le, Z.ltb_lt. tauto. Qed.

(** Below the first of ascending boundaries no later section holds a
    row. *)
Lemma adjacent_pairs_above (x : Z) (t : list Z) (b y : Z) :
  Forall (Z.le x) t -> y < x ->
  filter (holds_row y) (adjacent_pairs (x :: t ++ [b])) = [].
Proof.
  intros Hx Hy.
  assert (H : Forall (fun s => x <= fst s) (adjacent_pairs (x :: t ++ [b]))).
  { rewrite Forall_forall. intros s Hs. apply (in_map fst) in Hs.
    rewrite adjacent_pairs_fst in Hs. destruct Hs as [<-|Hs]; [lia|].
    rewrite Forall_forall in Hx. now apply Hx. }
  induction H as [|s l Hs _ IH]; [reflexivity|].
  cbn [filter]. unfold holds_row at 1.
  replace (fst s <=? y) with false by (symmetry; apply Z.leb_gt; lia).
  exact IH.
Qed.

(** Ascending lines, whatever their values, cut the range between two
    bounds so that each row of the range is held by one section, counted
    by position. *)
Lemma adjacent_pairs_count (l : list Z) : forall a b y,
  StronglySorted Z.le l -> a <= y < b ->
  length (filter (holds_row y) (adjacent_pairs (a :: l ++ [b]))) = 1%nat.
Proof.
  induction l as [|x t IH]; intros a b y Hs Hy.
  - cbn. unfold holds_row. cbn [fst snd].
    replace (a <=? y) with true by (symmetry; apply Z.leb_le; lia).
    replace (y <? b) with true by (symmetry; apply Z.ltb_lt; lia).
    reflexivity.
  - rewrite <- app_comm_cons, adjacent_pairs_cons. cbn [filter].
    inversion Hs as [|? ? Hs' Hx]; subst.
    destruct (Z_lt_le_dec y x) as [Hyx|Hyx].
    + rewrite (adjacent_pairs_above x t b y Hx Hyx).
      replace (holds_row y (a, x)) with true; [reflexivity|].
      symmetry. apply holds_row_spec. cbn. lia.
    + replace (holds_row y (a, x)) with false.
      * apply IH; [assumption|lia].
      * symmetry. apply not_true_is_false. rewrite holds_row_spec. cbn. lia.
Qed.

Lemma single_section (y : Z) (sections : list (Z * Z)) :
  length (filter (holds_row y) sections) = 1%nat ->
  exists s, (In s sections /\ fst s <= y < snd s)
    /\ forall s', In s' sections -> fst s' <= y < snd s' -> s' = s.
Proof.
  intro H. destruct (filter (holds_row y) sections) as [|s [|? ?]] eqn:E;
    try discriminate.
  assert (Hin : forall s', In s' sections /\ holds_row y s' = true <-> s' = s).
  { intro s'. rewrite <- filter_In, E. cbn. intuition congruence. }
  exists s. split.
  - destruct (proj2 (Hin s) eq_refl) as [H1 H2]. split; [assumption|].
    now apply holds_row_spec.
  - intros s' H1 H2. apply Hin. split; [assumption|]. now apply holds_row_spec.
Qed.

(** No section is empty exactly when the boundaries strictly increase. *)
Lemma adjacent_pairs_strict (l : list Z) :
  Forall (fun s => fst s < snd s) (adjacent_pairs l) <-> StronglySorted Z.lt l.
Proof.
  split; [|apply adjacent_pairs_nonempty].
  induction l as [|a t IH]; [constructor|].
  destruct t as [|b t']; [repeat constructor|].
  rewrite adjacent_pairs_cons. intro H. inversion H as [|? ? Hab Hrest]; subst.
  specialize (IH Hrest). constructor; [assumption|].
  inversion IH as [|? ? _ Hb]; subst. constructor; [assumption|].
  eapply Forall_impl; [|exact Hb]. cbn in *. intros; lia.
Qed.

Lemma ascending_distinct (l : list Z) :
  StronglySorted Z.le l -> NoDup l -> StronglySorted Z.lt l.
Proof.
  induction 1 as [|a t Hs IH Ha]; intro Hn; [constructor|].
  inversion Hn as [|? ? Hnot Hn']; subst. constructor; [now apply IH|].
  rewrite Forall_forall in *. intros x Hx.
  assert (a <> x) by (intros ->; contradiction).
  specialize (Ha x Hx). lia.
Qed.

Lemma increasing_distinct (l : list Z) : StronglySorted Z.lt l -> NoDup l.
Proof.
  induction 1 as [|a t Hs IH Ha]; constructor; [|assumption].
  intro Hin. rewrite Forall_forall in Ha. specialize (Ha a Hin). lia.
Qed.

(** The boundary list strictly increases exactly when the image has a
    row, no line is repeated and every line lies inside the image. *)
Lemma boundaries_strict (h : Z) (lines : list Z) :
  StronglySorted Z.le lines ->
  StronglySorted Z.lt (0 :: lines ++ [h])
  <-> 0 < h /\ NoDup lines /\ Forall (fun p => 0 < p < h) lines.
Proof.
  intro Hle. split.
  - intro H. inversion H as [|? ? Hs H0]; subst.
    apply Forall_app in H0. destruct H0 as [H0 Hh].
    inversion Hh; subst.
    assert (Hl : StronglySorted Z.lt lines /\ Forall (fun p => p < h) lines).
    { clear - Hs. induction lines as [|x t IH]; [split; constructor|].
      rewrite <- app_comm_cons in Hs. inversion Hs as [|? ? Hs' Hx]; subst.
      destruct (IH Hs') as [IH1 IH2]. apply Forall_app in Hx.
      destruct Hx as [Hx Hxh]. inversion Hxh; subst.
      split; constructor; assumption. }
    destruct Hl as [Hl Hlh]. split; [assumption|].
    split; [now apply increasing_distinct|].
    rewrite Forall_forall in *. intros p Hp. split; [now apply H0|now apply Hlh].
  - intros (Hh & Hn & Hr). apply boundaries_increasing; [assumption| |assumption].
    now apply ascending_distinct.
Qed.

(** C1 (as amended): the segmenter returns for every window size of at
    least one row.  Whatever it returns, and whatever the two external
    detectors contribute, the sections are the adjacent pairs of the
    boundary list 0, line_1, ..., line_k, height, in that order: the
    first section starts at 0, the last one ends at the image height and
    each section ends where the next one starts.  The lines are in
    ascending order, and every row of [0, height) lies in exactly one
    section, whether sections are counted by position or by value: the
    sections leave no gap and do not overlap.  Only the strict increase
    is conditional: the boundary list is strictly increasing exactly
    when the image has a row, no line is returned twice and every line
    lies strictly between 0 and the height, and that is exactly when no
    section is empty.  No line is returned twice when the effective
    minimum distance is positive, and every line lies strictly between 0
    and the height when every value of the external detectors does; so
    under these conditions on an image with a row the boundary list is
    strictly increasing and no section is empty. *)
Theorem segmenter_sections (img : image) (blank_regions color_regions : list Z)
    (confidence_threshold : Q) (min_line_distance : Z)
    (blank_var_thr blank_diff_thr blank_portion_thr : Q) (window_size : nat) :
  let h := Z.of_nat (length img) in
  let run := enhanced_image_segmentation img blank_regions color_regions
               confidence_threshold min_line_distance
               blank_var_thr blank_diff_thr blank_portion_thr window_size in
  ((1 <= window_size)%nat -> exists r, run = Some r)
  /\ forall lines sections, run = Some (lines, sections) ->
       sections = adjacent_pairs (0 :: lines ++ [h])
       /\ map fst sections = 0 :: lines
       /\ map snd sections = lines ++ [h]
       /\ StronglySorted Z.le lines
       /\ (forall y, 0 <= y < h ->
             length (filter (holds_row y) sections) = 1%nat
             /\ exists s, (In s sections /\ fst s <= y < snd s)
                  /\ forall s', In s' sections -> fst s' <= y < snd s' -> s' = s)
       /\ (StronglySorted Z.lt (0 :: lines ++ [h])
           <-> 0 < h /\ NoDup lines /\ Forall (fun p => 0 < p < h) lines)
       /\ (Forall (fun s => fst s < snd s) sections
           <-> StronglySorted Z.lt (0 :: lines ++ [h]))
       /\ (0 < effective_min_distance h min_line_distance ->
             StronglySorted Z.lt lines /\ NoDup lines)
       /\ (Forall (fun p => 0 < p < h) (blank_regions ++ color_regions) ->
             Forall (fun p => 0 < p < h) lines)
       /\ (0 < h -> 0 < effective_min_distance h min_line_distance ->
           Forall (fun p => 0 < p < h) (blank_regions ++ color_regions) ->
             StronglySorted Z.lt (0 :: lines ++ [h])
             /\ Forall (fun s => fst s < snd s) sections).
Proof.
  cbv zeta. split.
  - intro Hw. unfold enhanced_image_segmentation, obind.
    destruct (separation_line_detection_total img blank_var_thr blank_diff_thr
                blank_portion_thr window_size
                (effective_min_distance (Z.of_nat (length img)) min_line_distance) Hw)
      as [lines_1 ->].
    eauto.
  - intros lines sections. unfold enhanced_image_segmentation, obind.
    set (h := Z.of_nat (length img)).
    set (d := effective_min_distance h min_line_distance).
    destruct (separation_line_detection _ _ _ _ _ d) as [lines_1|] eqn:E1; [|discriminate].
    intro H. injection H as <- <-.
    set (cands := sort_by_confidence (all_candidates d lines_1 blank_regions color_regions)).
    set (lines := sort_pos (greedy_thr confidence_threshold d [] cands)).
    assert (Hle : StronglySorted Z.le lines) by apply sort_pos_sorted.
    assert (Hap : StronglySorted (apart d) lines).
    { apply sort_pos_apart, greedy_thr_apart. constructor. }
    assert (Hlt : 0 < d -> StronglySorted Z.lt lines).
    { intro Hd. apply (StronglySorted_conj Z.le (apart d)); [|assumption|assumption].
      unfold apart. intros a b Hab Hd'. lia. }
    assert (Hrange : Forall (fun p => 0 < p < h) (blank_regions ++ color_regions) ->
                     Forall (fun p => 0 < p < h) lines).
    { intro Hext. rewrite Forall_forall. intros p Hp. unfold lines in Hp.
      apply (Permutation_in _ (Permutation_sym (sort_pos_perm _))) in Hp.
      apply greedy_thr_incl in Hp. destruct Hp as [[]|Hp].
      unfold cands in Hp.
      apply (Permutation_in _ (Permutation_map fst
               (Permutation_sym (sort_by_confidence_perm _)))) in Hp.
      rewrite all_candidates_positions in Hp.
      apply in_app_or in Hp. destruct Hp as [Hp|Hp].
      - apply separation_lines_in_range in E1. rewrite Forall_forall in E1.
        now apply E1.
      - rewrite Forall_forall in Hext. now apply Hext. }
    pose proof (boundaries_strict h lines Hle) as Hstrict.
    unfold get_content_sections. simpl app.
    split; [reflexivity|]. split; [apply adjacent_pairs_fst|].
    split; [apply adjacent_pairs_snd|]. split; [assumption|].
    split; [|split; [exact Hstrict|split; [apply adjacent_pairs_strict|split; [|split]]]].
    + intros y Hy.
      pose proof (adjacent_pairs_count lines 0 h y Hle Hy) as Hcount.
      split; [exact Hcount|]. now apply single_section.
    + intro Hd. split; [now apply Hlt|]. now apply increasing_distinct, Hlt.
    + exact Hrange.
    + intros Hh Hd Hext.
      assert (Hb : StronglySorted Z.lt (0 :: lines ++ [h])).
      { apply Hstrict. split; [assumption|].
        split; [now apply increasing_distinct, Hlt|now apply Hrange]. }
      split; [assumption|]. now apply adjacent_pairs_nonempty.
Qed.

(** With the source's default parameters and a ten-row image, two
    external detectors that both report row 5 give the line 5 twice:
    the lines are not strictly increasing and the section (5, 5) is
    empty. *)
Lemma segmenter_repeated_line :
  enhanced_image_segmentation (repeat [255] 10) [5] [5] (6#10) 0 80 40 (1#2) 10
    = Some ([5; 5], [(0, 5); (5, 5); (5, 10)])
  /\ ~ StronglySorted Z.lt (0 :: [5; 5] ++ [10]).
Proof.
  split; [vm_compute; reflexivity|].
  intro H. inversion H as [|? ? H1 _]; subst.
  inversion H1 as [|? ? _ H2]; subst.
  inversion H2; subst. lia.
Qed.

(** An external detector that reports a row outside the open range
    (0, height) breaks the order of the boundaries in the same way. *)
Example segmenter_line_outside_image :
  enhanced_image_segmentation (repeat [255] 100) [40] [70; 120] (6#10) 0 80 40 (1#2) 10
    = Some ([40; 70; 120], [(0, 40); (40, 70); (70, 120); (120, 100)]).
Proof. vm_compute; reflexivity. Qed.

Lemma segmenter_sections_witness :
  (length (filter (holds_row 5) [(0, 5); (5, 5); (5, 10)]) = 1%nat
   /\ length (filter (holds_row 99) [(0, 40); (40, 70); (70, 120); (120, 100)]) = 1%nat)
  /\ StronglySorted Z.lt (0 :: [40; 70] ++ [100])
  /\ Forall (fun s => fst s < snd s) [(0, 40); (40, 70); (70, 100)].
Proof.
  split; [split|].
  - destruct (segmenter_sections (repeat [255] 10) [5] [5] (6#10) 0 80 40 (1#2) 10)
      as [_ H].
    refine (proj1 (proj1 (proj2 (proj2 (proj2 (proj2 (H [5; 5] _ _))))) 5 _)).
    + vm_compute; reflexivity.
    + cbn; lia.
  - destruct (segmenter_sections (repeat [255] 100) [40] [70; 120] (6#10) 0 80 40
                (1#2) 10) as [_ H].
    refine (proj1 (proj1 (proj2 (proj2 (proj2 (proj2 (H [40; 70; 120] _ _))))) 99 _)).
    + vm_compute; reflexivity.
    + cbn; lia.
  - destruct (segmenter_sections (repeat [255] 100) [40] [70] (6#10) 0 80 40 (1#2) 10)
      as [_ H].
    assert (E : enhanced_image_segmentation (repeat [255] 100) [40] [70] (6#10) 0 80 40
                  (1#2) 10 = Some ([40; 70], [(0, 40); (40, 70); (70, 100)]))
      by (vm_compute; reflexivity).
    destruct (H _ _ E) as (_ & _ & _ & _ & _ & _ & _ & _ & _ & H').
    apply H'.
    + vm_compute; reflexivity.
    + vm_compute; reflexivity.
    + repeat constructor.
Defined.

(** *** The border test *)

(** Where the outside pixel is at least as bright as the edge pixel the
    wrapped difference is the absolute difference; where it is darker,
    the wrapped difference is 256 minus the absolute difference. *)
Lemma u8_sub_brighter (a b : Z) :
  0 <= b <= a -> a <= 255 -> u8_abs (u8_sub a b) = Z.abs (a - b).
Proof.
  intros H1 H2. unfold u8_abs, u8_sub. rewrite Z.mod_small; lia.
Qed.

Lemma u8_sub_darker (a b : Z) :
  0 <= a < b -> b <= 255 -> u8_abs (u8_sub a b) = 256 - Z.abs (a - b).
Proof.
  intros H1 H2. unfold u8_abs, u8_sub.
  replace (a - b) with ((a - b + 256) + (-1) * 256) by lia.
  rewrite Z.mod_add by lia. rewrite Z.mod_small; lia.
Qed.

(** C4: the border test on 8-bit rows.  For an outside pixel 10 and an
    edge pixel 20 the detector's difference is 246, not the absolute
    difference 10: with the default thresholds a border is flagged where
    the absolute difference flags none, and the 23-row image yields the
    line 1. *)
Theorem border_difference_wraps :
  row_diff [10] [20] = [246]
  /\ abs_diff [10] [20] = [10]
  /\ is_border (row_diff [10] [20]) 30 (1#2) = true
  /\ is_border (abs_diff [10] [20]) 30 (1#2) = false
  /\ option_map (map fst) (candidate_lines dark_over_light 100 30 (1#2) 10) = Some [1]
  /\ separation_line_detection dark_over_light 100 30 (1#2) 10 100 = Some [1].
Proof. repeat split; vm_compute; reflexivity. Qed.

End SegmentationFacts.

(** ** Facts about the layout synthesizer *)

Module LayoutFacts.
Import Tree Layout.

Lemma same_id_refl (a : option string) : same_id a a = true.
Proof. destruct a; simpl; [apply String.eqb_refl|reflexivity]. Qed.

(** C7: the positioning decision.  A component that has a box, and
    whose box strictly overlaps on both axes the box of another child of
    its parent, is placed [absolute].  A component that is the only
    child of a parent of type div, and whose own type is not one of the
    floating types, is placed [relative]. *)
Theorem positioning_decision :
  (forall component parent sibling cc sc,
     In sibling (children_or_empty parent) ->
     same_id (id sibling) (id component) = false ->
     coordinates component = Some cc -> is_empty_dict cc = false ->
     coordinates sibling = Some sc ->
     get0 (x1 cc) < get0 (x2 sc) -> get0 (x1 sc) < get0 (x2 cc) ->
     get0 (y1 cc) < get0 (y2 sc) -> get0 (y1 sc) < get0 (y2 cc) ->
     _determine_positioning component parent = Absolute)
  /\ (forall component parent,
        lower_type parent = "div" ->
        children_or_empty parent = [component] ->
        str_in (lower_type component) absolute_components = false ->
        _determine_positioning component parent = Relative).
Proof.
  split.
  - intros component parent sibling cc sc Hin Hid Hcc Hne Hsc Hx1 Hx2 Hy1 Hy2.
    unfold _determine_positioning.
    assert (E : _has_overlap_with_siblings component parent = true).
    { unfold _has_overlap_with_siblings. rewrite Hcc, Hne.
      apply existsb_exists. exists sibling. split; [exact Hin|].
      rewrite Hid, Hsc. unfold overlaps.
      repeat (apply andb_true_iff; split); apply Z.ltb_lt; assumption. }
    now rewrite E.
  - intros component parent Hdiv Hkids Hfloat.
    unfold _determine_positioning.
    assert (E : _has_overlap_with_siblings component parent = false).
    { unfold _has_overlap_with_siblings.
      destruct (is_empty_dict _); [reflexivity|].
      unfold children_or_empty in Hkids. rewrite Hkids. simpl.
      now rewrite same_id_refl. }
    rewrite E, Hfloat, Hdiv, Hkids. reflexivity.
Qed.

Lemma positioning_decision_witness :
  _determine_positioning
    (MkComponent (Some "comp_2") (Some "button")
       (Some {| y1 := Some 0; x1 := Some 0; y2 := Some 50; x2 := Some 50 |}) None)
    (MkComponent (Some "comp_1") (Some "nav") None
       (Some {| description_type := "nav"; description_text := ""; content := None;
                children :=
                  Some [MkComponent (Some "comp_3") (Some "link")
                          (Some {| y1 := Some 25; x1 := Some 25;
                                   y2 := Some 75; x2 := Some 75 |}) None];
                styles := None; layout := None |}))
  = Absolute
  /\ _determine_positioning
       (MkComponent (Some "comp_2") (Some "button") None None)
       (MkComponent (Some "comp_1") (Some "DIV") None
          (Some {| description_type := "DIV"; description_text := ""; content := None;
                   children := Some [MkComponent (Some "comp_2") (Some "button") None None];
                   styles := None; layout := None |}))
     = Relative.
Proof.
  destruct positioning_decision as [Habs Hrel]. split.
  - eapply Habs with
      (sibling := MkComponent (Some "comp_3") (Some "link")
                    (Some {| y1 := Some 25; x1 := Some 25;
                             y2 := Some 75; x2 := Some 75 |}) None).
    + simpl. left. reflexivity.
    + reflexivity.
    + reflexivity.
    + reflexivity.
    + reflexivity.
    + reflexivity.
    + reflexivity.
    + reflexivity.
    + reflexivity.
  - apply Hrel; reflexivity.
Defined.

(** *** What the synthesizer leaves untouched *)

Lemma process_component_keeps c v p c' :
  _process_component c v p = Some c' ->
  children_or_empty c' = children_or_empty c.
Proof.
  unfold _process_component, obind.
  destruct (description c) as [desc|] eqn:Ed; [|now intros [= <-]].
  destruct (match p with Some _ => _ | None => _ end); [|discriminate].
  destruct (if _ =? 0 then None else Some _); [|discriminate].
  destruct (if _ =? 0 then None else Some _); [|discriminate].
  intros [= <-]. unfold children_or_empty. rewrite Ed. reflexivity.
Qed.

Lemma process_children_keep v p cs : forall cs',
  omap_list (fun child => _process_component child v p) cs = Some cs' ->
  map children_or_empty cs' = map children_or_empty cs.
Proof.
  induction cs as [|c t IH]; intros cs' H; simpl in H.
  - now injection H as <-.
  - unfold obind in H.
    destruct (_process_component c v p) as [c'|] eqn:Ec; [|discriminate].
    destruct (omap_list _ t) as [t'|]; [|discriminate].
    injection H as <-. simpl. rewrite (IH t' eq_refl).
    now rewrite (process_component_keeps _ _ _ _ Ec).
Qed.

(** Below the children of a top-level component nothing is changed. *)
Lemma process_top_level_grandchildren c c' :
  process_top_level c = Some c' ->
  map children_or_empty (children_or_empty c')
  = map children_or_empty (children_or_empty c).
Proof.
  unfold process_top_level. unfold obind at 1.
  destruct (_process_component c viewport None) as [c1|] eqn:E1; [|discriminate].
  apply process_component_keeps in E1. rewrite <- E1. clear E1 c.
  unfold obind at 1.
  set (step2 := match description c1 with Some _ => _ | None => _ end).
  assert (H2 : forall c2, step2 = Some c2 ->
                          children_or_empty c2 = children_or_empty c1).
  { unfold step2. intro c2.
    destruct (description c1) as [desc|] eqn:Ed; [|now intros [= <-]].
    destruct (content desc) as [cont|]; [|now intros [= <-]].
    destruct (media cont) as [ms|]; [|now intros [= <-]].
    unfold obind. destruct (omap_list _ ms); [|discriminate].
    intros [= <-]. unfold children_or_empty. rewrite Ed. reflexivity. }
  destruct step2 as [c2|]; [|discriminate].
  rewrite <- (H2 c2 eq_refl). clear H2 c1.
  destruct (description c2) as [desc|] eqn:Ed; [|now intros [= <-]].
  destruct (children desc) as [cs|] eqn:Ecs; [|now intros [= <-]].
  unfold obind. destruct (omap_list _ cs) as [cs'|] eqn:Eo; [|discriminate].
  intros [= <-]. apply process_children_keep in Eo.
  unfold children_or_empty at 2 4. simpl. rewrite Ed, Ecs. exact Eo.
Qed.

(** A processed component carries a layout record, unless it has no
    description and is returned as it is. *)
Lemma process_component_layout c v p c' :
  _process_component c v p = Some c' ->
  description c <> None -> has_layout c' = true.
Proof.
  unfold _process_component, obind.
  destruct (description c) as [desc|] eqn:Ed; [|congruence].
  destruct (match p with Some _ => _ | None => _ end); [|discriminate].
  destruct (if _ =? 0 then None else Some _); [|discriminate].
  destruct (if _ =? 0 then None else Some _); [|discriminate].
  intros [= <-] _. reflexivity.
Qed.

Lemma process_children_layout v p cs : forall cs',
  omap_list (fun child => _process_component child v p) cs = Some cs' ->
  Forall (fun k => description k <> None) cs ->
  Forall (fun k => has_layout k = true) cs'.
Proof.
  induction cs as [|c t IH]; intros cs' H Hd; simpl in H.
  - injection H as <-. constructor.
  - unfold obind in H.
    destruct (_process_component c v p) as [c'|] eqn:Ec; [|discriminate].
    destruct (omap_list _ t) as [t'|]; [|discriminate].
    injection H as <-. inversion Hd; subst. constructor.
    + eapply process_component_layout; eassumption.
    + now apply IH.
Qed.

(** A top-level component and its children are annotated. *)
Lemma process_top_level_layout c c' :
  process_top_level c = Some c' ->
  description c <> None ->
  Forall (fun k => description k <> None) (children_or_empty c) ->
  has_layout c' = true
  /\ Forall (fun k => has_layout k = true) (children_or_empty c').
Proof.
  unfold process_top_level. unfold obind at 1.
  destruct (_process_component c viewport None) as [c1|] eqn:E1; [|discriminate].
  intros H Hd Hkids.
  pose proof (process_component_layout _ _ _ _ E1 Hd) as Hl1.
  rewrite <- (process_component_keeps _ _ _ _ E1) in Hkids. clear E1 Hd c.
  unfold obind at 1 in H.
  set (step2 := match description c1 with Some _ => _ | None => _ end) in H.
  assert (H2 : forall c2, step2 = Some c2 ->
            has_layout c2 = true /\ children_or_empty c2 = children_or_empty c1).
  { unfold step2. intro c2. unfold has_layout in Hl1.
    destruct (description c1) as [desc|] eqn:Ed; [|discriminate].
    destruct (content desc) as [cont|];
      [|intros [= <-]; unfold has_layout; rewrite Ed; auto].
    destruct (media cont) as [ms|];
      [|intros [= <-]; unfold has_layout; rewrite Ed; auto].
    unfold obind. destruct (omap_list _ ms); [|discriminate].
    intros [= <-]. unfold has_layout, children_or_empty. rewrite Ed. simpl. auto. }
  destruct step2 as [c2|]; [|discriminate].
  destruct (H2 c2 eq_refl) as [Hl2 Hk2]. rewrite <- Hk2 in Hkids. clear H2 Hk2 Hl1 c1.
  unfold has_layout in Hl2. unfold children_or_empty in Hkids.
  destruct (description c2) as [desc|] eqn:Ed; [|discriminate].
  destruct (children desc) as [cs|] eqn:Ecs.
  - unfold obind in H. destruct (omap_list _ cs) as [cs'|] eqn:Eo; [|discriminate].
    injection H as <-. unfold has_layout, children_or_empty. simpl. split; [exact Hl2|].
    eapply process_children_layout; eassumption.
  - injection H as <-. unfold has_layout, children_or_empty. rewrite Ed, Ecs.
    split; [exact Hl2|constructor].
Qed.

(** C2: the synthesizer on a tree of depth two.  The hierarchy built
    from a container, a section inside it and a button inside the
    section is annotated at the container and at the section, while the
    button, a grandchild, is returned without a layout record.  For any
    top-level component that is returned, the component and its
    children are annotated (where they carry a description), and the
    subtrees below its children are returned as they were given. *)
Theorem layout_stops_below_children :
  option_map forest_annotations
    (forest <- Hierarchy.convert_json_structure Hierarchy.nested_three None ;;
     process_component_structure forest)
  = Some [(Some "comp_1", true); (Some "comp_2", true); (Some "comp_3", false)]
  /\ (forall c c', process_top_level c = Some c' ->
        description c <> None ->
        Forall (fun k => description k <> None) (children_or_empty c) ->
        has_layout c' = true
        /\ Forall (fun k => has_layout k = true) (children_or_empty c'))
  /\ (forall c c', process_top_level c = Some c' ->
        map children_or_empty (children_or_empty c')
        = map children_or_empty (children_or_empty c)).
Proof.
  split; [vm_compute; reflexivity|].
  split; [exact process_top_level_layout|exact process_top_level_grandchildren].
Qed.

End LayoutFacts.

(** ** Facts about hierarchy construction *)

Module HierarchyFacts.
Import Tree Hierarchy.

(** *** List updates and enumeration *)

Lemma update_nth_length {A : Type} (i : nat) (f : A -> A) (l : list A) :
  length (update_nth i f l) = length l.
Proof.
  revert i. induction l as [|a t IH]; intro i; [reflexivity|].
  destruct i; simpl; [reflexivity|]. now rewrite IH.
Qed.

Lemma update_nth_same {A : Type} (i : nat) (f : A -> A) (l : list A) :
  nth_error (update_nth i f l) i = option_map f (nth_error l i).
Proof.
  revert i. induction l as [|a t IH]; intro i; [now destruct i|].
  destruct i; simpl; [reflexivity|]. apply IH.
Qed.

Lemma update_nth_other {A : Type} (i j : nat) (f : A -> A) (l : list A) :
  i <> j -> nth_error (update_nth i f l) j = nth_error l j.
Proof.
  revert i j. induction l as [|a t IH]; intros i j Hij; [now destruct i|].
  destruct i, j; simpl; try reflexivity; try congruence.
  apply IH. congruence.
Qed.

Lemma update_nth_map {A B : Type} (g : A -> B) (i : nat) (f : A -> A) (l : list A) :
  (forall a, g (f a) = g a) -> map g (update_nth i f l) = map g l.
Proof.
  intro Hg. revert i. induction l as [|a t IH]; intro i; [now destruct i|].
  destruct i; simpl; [now rewrite Hg|]. now rewrite IH.
Qed.

Lemma enumerate_from_nth {A : Type} (l : list A) (s i : nat) :
  nth_error (enumerate_from s l) i
  = option_map (fun a => ((s + i)%nat, a)) (nth_error l i).
Proof.
  revert s i. induction l as [|x t IH]; intros s i; [now destruct i|].
  destruct i; simpl.
  - now rewrite Nat.add_0_r.
  - rewrite IH. now rewrite Nat.add_succ_r.
Qed.

Lemma enumerate_nth {A : Type} (l : list A) (k : nat) (a : A) :
  In (k, a) (enumerate l) <-> nth_error l k = Some a.
Proof.
  unfold enumerate. split.
  - intro H. apply In_nth_error in H. destruct H as [i H].
    rewrite enumerate_from_nth in H.
    destruct (nth_error l i) eqn:E; [|discriminate].
    simpl in H. injection H as <- <-. exact E.
  - intro H. apply (nth_error_In _ k). rewrite enumerate_from_nth, H. reflexivity.
Qed.

Lemma enumerate_snd {A : Type} (l : list A) (s : nat) :
  map snd (enumerate_from s l) = l.
Proof.
  revert s. induction l as [|x t IH]; intro s; simpl; [reflexivity|]. now rewrite IH.
Qed.

(** *** The parent search *)

Lemma min_by_area_in (best : nat * Element) (rest : list (nat * Element)) :
  In (min_by_area best rest) (best :: rest).
Proof.
  revert best. induction rest as [|p t IH]; intro best; simpl; [now left|].
  destruct (_ <? _).
  - right. apply IH.
  - destruct (IH best) as [H|H]; [now left|right; now right].
Qed.

(** A parent that is found is another element whose box contains the
    element's box. *)
Lemma find_parent_sound (i : nat) (elements : list Element) (p : nat) :
  _find_parent_index i elements = Some p ->
  exists e ep,
    nth_error elements i = Some e /\ nth_error elements p = Some ep
    /\ p <> i /\ _is_contained_within (bbox e) (bbox ep) = true.
Proof.
  unfold _find_parent_index.
  destruct (nth_error elements i) as [e|] eqn:Ee; [|discriminate].
  set (cands := filter _ (enumerate elements)).
  destruct cands as [|q t] eqn:Ec; [discriminate|].
  intro H. injection H as <-.
  pose proof (min_by_area_in q t) as Hin. rewrite <- Ec in Hin.
  unfold cands in Hin. apply filter_In in Hin. destruct Hin as [Hin Hq].
  destruct (min_by_area q t) as [k ek]. simpl in *.
  apply enumerate_nth in Hin. apply andb_true_iff in Hq. destruct Hq as [Hk Hc].
  exists e, ek. repeat split; try assumption.
  apply negb_true_iff, Nat.eqb_neq in Hk. exact Hk.
Qed.

(** An element contained in another one has a parent. *)
Lemma find_parent_complete (i k : nat) (elements : list Element) (e ek : Element) :
  nth_error elements i = Some e -> nth_error elements k = Some ek ->
  k <> i -> _is_contained_within (bbox e) (bbox ek) = true ->
  _find_parent_index i elements <> None.
Proof.
  intros Hi Hk Hne Hc. unfold _find_parent_index. rewrite Hi.
  set (cands := filter _ (enumerate elements)).
  assert (Hin : In (k, ek) cands).
  { unfold cands. apply filter_In. split; [now apply enumerate_nth|].
    simpl. rewrite Hc. apply Nat.eqb_neq in Hne. now rewrite Hne. }
  destruct cands; [destruct Hin|discriminate].
Qed.

(** *** The component table *)

Lemma map_length_eq {A B : Type} (f : A -> B) (l : list A) (m : list B) :
  map f l = m -> length l = length m.
Proof. intros <-. now rewrite length_map. Qed.

Lemma initial_components_inv (input : list Element) :
  table_inv input 0 (initial_components input).
Proof.
  unfold initial_components.
  assert (Hnth : forall i comp,
             nth_error (map (fun p : nat * Element =>
               {| comp_id := make_id (fst p); original_data := snd p;
                  children_indices := []; media_indices := [];
                  parent_index := None |}) (enumerate input)) i = Some comp ->
             comp_id comp = make_id i /\ children_indices comp = []
             /\ parent_index comp = None).
  { intros i comp H. rewrite nth_error_map in H. unfold enumerate in H.
    rewrite enumerate_from_nth in H.
    destruct (nth_error input i); [|discriminate].
    injection H as <-. simpl. auto. }
  constructor.
  - rewrite map_map. simpl. apply enumerate_snd.
  - intros i comp H. now apply Hnth in H.
  - intros i comp H. apply Hnth in H. now destruct H as (_ & _ & ->).
  - intros p comp c H Hin. apply Hnth in H. destruct H as (_ & H & _).
    rewrite H in Hin. destruct Hin.
Qed.
Lemma update_nth_inv {A : Type} (i j : nat) (f : A -> A) (l : list A) (a' : A) :
  nth_error (update_nth i f l) j = Some a' ->
  exists a, nth_error l j = Some a /\ a' = if (i =? j)%nat then f a else a.
Proof.
  destruct (Nat.eqb_spec i j) as [->|Hne]; intro H.
  - rewrite update_nth_same in H. destruct (nth_error l j) as [a|]; [|discriminate].
    injection H as <-. eauto.
  - rewrite update_nth_other in H by assumption. eauto.
Qed.

Lemma table_inv_length input k t : table_inv input k t -> length t = length input.
Proof. intros [H _ _ _]. exact (map_length_eq original_data t input H). Qed.

Lemma link_step_inv input k t ms :
  table_inv input k t -> (k < length input)%nat ->
  table_inv input (S k) (fst (link_step (t, ms) k)).
Proof.
  intros Hinv Hk. pose proof (table_inv_length _ _ _ Hinv) as Hlen.
  destruct Hinv as [Ho Hi Hp Hc].
  unfold link_step.
  destruct (nth_error t k) as [component|] eqn:Ek.
  2:{ apply nth_error_None in Ek. lia. }
  rewrite Ho.
  destruct (_find_parent_index k input) as [p|] eqn:Ef; simpl.
  - destruct (find_parent_sound _ _ _ Ef) as (e & ep & _ & _ & Hpk & _).
    constructor.
    + rewrite update_nth_map by reflexivity.
      rewrite update_nth_map by reflexivity. exact Ho.
    + intros i comp H.
      apply update_nth_inv in H. destruct H as (c1 & H & ->).
      apply update_nth_inv in H. destruct H as (c0 & H & ->).
      specialize (Hi _ _ H).
      destruct (p =? i)%nat, (k =? i)%nat; exact Hi.
    + intros i comp H.
      apply update_nth_inv in H. destruct H as (c1 & H & ->).
      apply update_nth_inv in H. destruct H as (c0 & H & ->).
      specialize (Hp _ _ H).
      assert (Hgoal : parent_index (if (k =? i)%nat then set_parent p c0 else c0)
                      = if (i <? S k)%nat then _find_parent_index i input else None).
      { destruct (Nat.eqb_spec k i) as [<-|Hne]; simpl.
        - assert (E : (k <? S k)%nat = true) by (apply Nat.ltb_lt; lia).
          now rewrite E, Ef.
        - rewrite Hp. destruct (Nat.ltb_spec i k), (Nat.ltb_spec i (S k));
            try reflexivity; lia. }
      destruct (p =? i)%nat; exact Hgoal.
    + intros q comp c H Hin.
      apply update_nth_inv in H. destruct H as (c1 & H & ->).
      apply update_nth_inv in H. destruct H as (c0 & H & ->).
      assert (Hold : forall c, In c (children_indices c0) ->
                               (c < S k)%nat /\ _find_parent_index c input = Some q).
      { intros c' Hc'. destruct (Hc _ _ _ H Hc'). split; [lia|assumption]. }
      assert (Hc1 : children_indices (if (k =? q)%nat then set_parent p c0 else c0)
                    = children_indices c0) by (now destruct (k =? q)%nat).
      destruct (Nat.eqb_spec p q) as [<-|Hne].
      * simpl in Hin. rewrite Hc1 in Hin.
        apply in_app_or in Hin. destruct Hin as [Hin|[<-|[]]]; [now apply Hold|].
        split; [lia|assumption].
      * rewrite Hc1 in Hin. now apply Hold.
  - constructor; try assumption.
    + intros i comp H. rewrite (Hp _ _ H).
      destruct (Nat.ltb_spec i k), (Nat.ltb_spec i (S k)); try reflexivity; try lia.
      assert (i = k) by lia. subst. now rewrite Ef.
    + intros q comp c H Hin. destruct (Hc _ _ _ H Hin). split; [lia|assumption].
Qed.

Lemma link_fold_inv input m : forall k t ms,
  (k + m = length input)%nat -> table_inv input k t ->
  table_inv input (length input) (fst (fold_left link_step (seq k m) (t, ms))).
Proof.
  induction m as [|m IH]; intros k t ms Hkm Hinv; cbn [seq fold_left].
  - simpl. now replace (length input) with k by lia.
  - pose proof (link_step_inv input k t ms Hinv ltac:(lia)) as Hstep.
    destruct (link_step (t, ms) k) as [t' ms']. simpl in Hstep.
    apply IH; [lia|assumption].
Qed.

Lemma link_all_inv input :
  table_inv input (length input) (fst (link_all (initial_components input))).
Proof.
  unfold link_all.
  pose proof (initial_components_inv input) as Hinv.
  rewrite (table_inv_length _ _ _ Hinv).
  apply link_fold_inv; [reflexivity|assumption].
Qed.

Lemma media_step_inv input image k t m i :
  table_inv input k t -> table_inv input k (fst (media_step image (t, m) i)).
Proof.
  intros [Ho Hi Hp Hc]. unfold media_step.
  destruct (nth_error t i) as [media|]; [|now constructor].
  destruct (media_file _ _ _); [|now constructor].
  destruct (parent_index media) as [p|]; [|now constructor].
  simpl. constructor.
  - rewrite update_nth_map by reflexivity. exact Ho.
  - intros j comp H. apply update_nth_inv in H. destruct H as (c0 & H & ->).
    specialize (Hi _ _ H). now destruct (p =? j)%nat.
  - intros j comp H. apply update_nth_inv in H. destruct H as (c0 & H & ->).
    specialize (Hp _ _ H). now destruct (p =? j)%nat.
  - intros q comp c H Hin. apply update_nth_inv in H. destruct H as (c0 & H & ->).
    apply (Hc _ _ _ H). now destruct (p =? q)%nat.
Qed.

Lemma media_fold_inv input image k ms : forall t m,
  table_inv input k t ->
  table_inv input k (fst (fold_left (media_step image) ms (t, m))).
Proof.
  induction ms as [|i ms IH]; intros t m Hinv; cbn [fold_left]; [assumption|].
  pose proof (media_step_inv input image k t m i Hinv) as Hstep.
  destruct (media_step image (t, m) i) as [t' m']. now apply IH.
Qed.

Lemma component_table_inv input image :
  table_inv input (length input) (fst (component_table input image)).
Proof.
  unfold component_table.
  pose proof (link_all_inv input) as Hinv.
  destruct (link_all (initial_components input)) as [t ms].
  now apply media_fold_inv.
Qed.

(** *** Printing of identifiers *)

Lemma string_of_nat_inj (a b : nat) : string_of_nat a = string_of_nat b -> a = b.
Proof.
  unfold string_of_nat. intro H.
  apply DecimalNat.Unsigned.to_uint_inj.
  pose proof (DecimalString.NilEmpty.usu (Nat.to_uint a)) as Ha.
  pose proof (DecimalString.NilEmpty.usu (Nat.to_uint b)) as Hb.
  rewrite H in Ha. congruence.
Qed.

Lemma make_id_inj (i j : nat) : make_id i = make_id j -> i = j.
Proof.
  unfold make_id. simpl. intro H. injection H as H.
  apply string_of_nat_inj in H. lia.
Qed.

(** *** Mapping a function that may fail *)

Lemma omap_list_total {A B : Type} (f : A -> option B) (l : list A) :
  (forall a, In a l -> exists b, f a = Some b) ->
  exists bs, omap_list f l = Some bs.
Proof.
  induction l as [|a t IH]; intro H; simpl; [eauto|].
  destruct (H a (or_introl eq_refl)) as [b ->].
  destruct IH as [bs ->]; [intros; apply H; now right|].
  simpl. eauto.
Qed.

Lemma omap_list_in {A B : Type} (f : A -> option B) (l : list A) (bs : list B) :
  omap_list f l = Some bs ->
  (forall b, In b bs -> exists a, In a l /\ f a = Some b)
  /\ (forall a, In a l -> exists b, In b bs /\ f a = Some b).
Proof.
  revert bs. induction l as [|a t IH]; intros bs H; simpl in H.
  - injection H as <-. split; intros ? [].
  - unfold obind in H. destruct (f a) as [b|] eqn:Ea; [|discriminate].
    destruct (omap_list f t) as [bs'|]; [|discriminate].
    injection H as <-. destruct (IH bs' eq_refl) as [H1 H2]. split.
    + intros b' [<-|Hb]; [exists a; split; [now left|assumption]|].
      destruct (H1 _ Hb) as (a' & Ha' & Hf). exists a'. split; [now right|assumption].
    + intros a' [<-|Ha']; [exists b; split; [now left|assumption]|].
      destruct (H2 _ Ha') as (b' & Hb' & Hf). exists b'. split; [now right|assumption].
Qed.

(** *** The tree that the builder walks *)

Section Builder.

Variable input : list Element.
Variable table : list CompRec.
Variable tracking : tracking_map.
Hypothesis Hinv : table_inv input (length input) table.

Local Abbreviation child_of := (Hierarchy.child_of table).
Local Abbreviation at_depth := (Hierarchy.at_depth table).
Local Abbreviation under := (Hierarchy.under table).

Lemma child_of_parent (p c : nat) :
  child_of p c ->
  exists cc, nth_error table c = Some cc /\ parent_index cc = Some p.
Proof.
  intros (comp & Hp & Hc). unfold structural_children in Hc.
  apply filter_In in Hc. destruct Hc as [Hc _].
  destruct (inv_children _ _ _ Hinv _ _ _ Hp Hc) as [Hlt Hf].
  destruct (nth_error table c) as [cc|] eqn:Ec.
  2:{ apply nth_error_None in Ec. rewrite (table_inv_length _ _ _ Hinv) in Ec. lia. }
  exists cc. split; [reflexivity|].
  rewrite (inv_parent _ _ _ Hinv _ _ Ec).
  apply Nat.ltb_lt in Hlt. now rewrite Hlt.
Qed.

Lemma at_depth_unique d i : at_depth d i -> forall d', at_depth d' i -> d = d'.
Proof.
  induction 1 as [i comp Hi Hp|d p c Hd IH Hc]; intros d' H'.
  - inversion H' as [|d0 p0 c0 _ Hc0]; subst; [reflexivity|].
    apply child_of_parent in Hc0. destruct Hc0 as (cc & Hcc & Hpar). congruence.
  - inversion H' as [i0 comp0 Hi0 Hp0|d0 p0 c0 Hd0 Hc0]; subst.
    + apply child_of_parent in Hc. destruct Hc as (cc & Hcc & Hpar). congruence.
    + f_equal. apply IH.
      apply child_of_parent in Hc, Hc0.
      destruct Hc as (cc & Hcc & Hpar). destruct Hc0 as (cc0 & Hcc0 & Hpar0).
      assert (p = p0) by congruence. now subst.
Qed.

Lemma at_depth_index d i : at_depth d i -> (i < length input)%nat.
Proof.
  intro H. rewrite <- (table_inv_length _ _ _ Hinv). apply nth_error_Some.
  destruct H as [i comp Hi _|d p c _ Hc]; [congruence|].
  apply child_of_parent in Hc. destruct Hc as (cc & Hcc & _). congruence.
Qed.

(** The ancestors of a component at depth [d], from the root down. *)
Lemma at_depth_path d i :
  at_depth d i ->
  exists path, length path = S d
    /\ forall k v, nth_error path k = Some v -> at_depth k v.
Proof.
  induction 1 as [i comp Hi Hp|d p c Hd IH Hc].
  - exists [i]. split; [reflexivity|]. intros k v H.
    destruct k as [|k]; [|now destruct k].
    injection H as <-. econstructor; eassumption.
  - destruct IH as (path & Hlen & Hpath). exists (path ++ [c]). split.
    + rewrite length_app. simpl. lia.
    + intros k v H. destruct (Nat.lt_ge_cases k (length path)) as [Hk|Hk].
      * rewrite nth_error_app1 in H by assumption. now apply Hpath.
      * rewrite nth_error_app2 in H by assumption.
        destruct (k - length path)%nat as [|m] eqn:Em; [|now destruct m].
        injection H as <-. assert (k = S d) by lia. subst k.
        econstructor; eassumption.
Qed.

(** No component lies deeper than the number of components. *)
Lemma at_depth_bound d i : at_depth d i -> (d < length input)%nat.
Proof.
  intro H. destruct (at_depth_path _ _ H) as (path & Hlen & Hpath).
  assert (Hnd : NoDup path).
  { apply NoDup_nth_error. intros a b Ha Hab.
    destruct (nth_error path a) as [v|] eqn:Ea.
    2:{ apply nth_error_None in Ea. lia. }
    symmetry in Hab.
    exact (at_depth_unique _ _ (Hpath _ _ Ea) _ (Hpath _ _ Hab)). }
  assert (Hincl : incl path (seq 0 (length input))).
  { intros v Hv. apply In_nth_error in Hv. destruct Hv as [k Hk].
    apply in_seq. split; [lia|]. simpl. eapply at_depth_index. eauto. }
  pose proof (NoDup_incl_length Hnd Hincl) as Hle.
  rewrite length_seq in Hle. lia.
Qed.

Lemma build_total fuel : forall d i,
  at_depth d i -> (length input <= fuel + d)%nat ->
  exists node, _build_component_structure fuel table tracking i = Some node.
Proof.
  induction fuel as [|fuel IH]; intros d i Hd Hfuel.
  - apply at_depth_bound in Hd. lia.
  - simpl. unfold obind.
    destruct (nth_error table i) as [comp|] eqn:Ei.
    2:{ apply at_depth_index in Hd. apply nth_error_None in Ei.
        rewrite (table_inv_length _ _ _ Hinv) in Ei. lia. }
    destruct (omap_list_total
                (_build_component_structure fuel table tracking)
                (structural_children comp)) as [kids ->].
    { intros c Hc. apply (IH (S d)); [|lia].
      econstructor; [exact Hd|]. exists comp. auto. }
    eauto.
Qed.

Lemma under_snoc p c x : under p c -> child_of c x -> under p x.
Proof.
  induction 1 as [i|p c' c Hpc Hu IH]; intro Hx.
  - econstructor; [exact Hx|constructor].
  - econstructor; [exact Hpc|now apply IH].
Qed.

Lemma build_ids fuel : forall i node,
  _build_component_structure fuel table tracking i = Some node ->
  forall s, In s (node_ids node) <-> exists x, under i x /\ s = Some (make_id x).
Proof.
  induction fuel as [|fuel IH]; intros i node H; [discriminate|].
  simpl in H. unfold obind in H.
  destruct (nth_error table i) as [comp|] eqn:Ei; [|discriminate].
  destruct (omap_list _ (structural_children comp)) as [kids|] eqn:Ek; [|discriminate].
  injection H as <-. destruct (omap_list_in _ _ _ Ek) as [Hk1 Hk2].
  intro s. cbn [node_ids children]. rewrite (inv_ids _ _ _ Hinv _ _ Ei). split.
  - intros [<-|Hs]; [exists i; split; [constructor|reflexivity]|].
    apply in_flat_map in Hs. destruct Hs as (kid & Hkid & Hs).
    destruct (Hk1 _ Hkid) as (c & Hc & Hb).
    apply (IH _ _ Hb) in Hs. destruct Hs as (x & Hx & ->).
    exists x. split; [|reflexivity].
    econstructor; [|exact Hx]. exists comp. auto.
  - intros (x & Hx & ->). inversion Hx as [|p c x' Hc Hcx]; subst; [now left|].
    right. destruct Hc as (comp' & Hcomp' & Hc).
    assert (comp' = comp) by congruence. subst comp'.
    destruct (Hk2 _ Hc) as (kid & Hkid & Hb).
    apply in_flat_map. exists kid. split; [assumption|].
    apply (IH _ _ Hb). eauto.
Qed.

Lemma root_indices_spec r :
  In r (root_indices table)
  <-> exists comp, nth_error table r = Some comp /\ parent_index comp = None.
Proof.
  unfold root_indices. rewrite filter_In, in_seq. split.
  - intros [_ H]. destruct (nth_error table r) as [comp|]; [|discriminate].
    exists comp. split; [reflexivity|]. now destruct (parent_index comp).
  - intros (comp & Hr & Hp). rewrite Hr, Hp. split; [|reflexivity].
    split; [lia|]. simpl. apply nth_error_Some. congruence.
Qed.

Lemma reachable_under x :
  reachable structural_children table x
  <-> exists r, In r (root_indices table) /\ under r x.
Proof.
  split.
  - induction 1 as [i comp Hi Hp|p comp c Hr IH Hp Hc].
    + exists i. split; [|constructor]. apply root_indices_spec. eauto.
    + destruct IH as (r & Hroot & Hu). exists r. split; [assumption|].
      eapply under_snoc; [exact Hu|]. exists comp. auto.
  - intros (r & Hroot & Hu). apply root_indices_spec in Hroot.
    destruct Hroot as (comp & Hr & Hp).
    assert (Hreach : reachable structural_children table r)
      by (econstructor; eassumption).
    clear Hr Hp comp. induction Hu as [i|p c x Hc Hu IH]; [assumption|].
    apply IH. destruct Hc as (comp & Hp & Hc). econstructor; eassumption.
Qed.

Lemma reachable_depth x :
  reachable structural_children table x -> exists d, at_depth d x.
Proof.
  induction 1 as [i comp Hi Hp|p comp c Hr IH Hp Hc].
  - exists 0%nat. econstructor; eassumption.
  - destruct IH as [d Hd]. exists (S d). econstructor; [exact Hd|].
    exists comp. auto.
Qed.

End Builder.

(** In a table in which [i] and [j] are each other's parent, neither is
    reached from a parentless component. *)
Lemma reachable_avoids_cycle input table i j ci cj :
  table_inv input (length input) table ->
  nth_error table i = Some ci -> nth_error table j = Some cj ->
  parent_index ci = Some j -> parent_index cj = Some i ->
  forall x, reachable structural_children table x -> x <> i /\ x <> j.
Proof.
  intros Hinv Hi Hj Hpi Hpj x Hx.
  induction Hx as [x comp Hx Hp|p comp c Hr IH Hp Hc].
  - split; intros ->; congruence.
  - destruct (child_of_parent input table Hinv p c) as (cc & Hcc & Hpar).
    { exists comp. auto. }
    destruct IH as [IHi IHj]. split; intros ->.
    + assert (p = j) by congruence. contradiction.
    + assert (p = i) by congruence. contradiction.
Qed.

(** C9 (as amended): the hierarchy is always built, and its nodes are
    exactly the components reached from the parentless components along
    the child links that are not registered as media of their parent.
    In particular, when the boxes of two components contain each other
    within the margin and no third component contains either of them,
    each is the other's parent, neither is a root and neither occurs in
    the hierarchy. *)
Theorem hierarchy_nodes (input : list Element) (image : option ImageInfo) :
  let table := fst (component_table input image) in
  exists forest,
    convert_json_structure input image = Some forest
    /\ (forall s, In s (forest_ids forest) <->
           exists i, reachable structural_children table i /\ s = Some (make_id i))
    /\ (forall i j ei ej,
          i <> j ->
          nth_error input i = Some ei -> nth_error input j = Some ej ->
          _is_contained_within (bbox ei) (bbox ej) = true ->
          _is_contained_within (bbox ej) (bbox ei) = true ->
          (forall k ek, k <> i -> k <> j -> nth_error input k = Some ek ->
             _is_contained_within (bbox ei) (bbox ek) = false
             /\ _is_contained_within (bbox ej) (bbox ek) = false) ->
          (exists ci cj, nth_error table i = Some ci /\ nth_error table j = Some cj
             /\ parent_index ci = Some j /\ parent_index cj = Some i)
          /\ ~ In i (root_indices table) /\ ~ In j (root_indices table)
          /\ ~ In (Some (make_id i)) (forest_ids forest)
          /\ ~ In (Some (make_id j)) (forest_ids forest)).
Proof.
  cbv zeta. unfold convert_json_structure.
  pose proof (component_table_inv input image) as Hinv.
  destruct (component_table input image) as [table tracking]. simpl in Hinv. simpl fst.
  pose proof (table_inv_length _ _ _ Hinv) as Hlen.
  set (entry := fun idx : nat =>
         comp <- nth_error table idx ;;
         node <- _build_component_structure (length table) table tracking idx ;;
         Some (comp_id comp, node)).
  assert (Hentry : forall r, In r (root_indices table) ->
            exists comp node, nth_error table r = Some comp
              /\ _build_component_structure (length table) table tracking r = Some node
              /\ entry r = Some (comp_id comp, node)).
  { intros r Hr. apply root_indices_spec in Hr. destruct Hr as (comp & Hr & Hp).
    destruct (build_total input table tracking Hinv (length table) 0 r) as [node Hn].
    - econstructor; eassumption.
    - lia.
    - exists comp, node. unfold entry, obind. rewrite Hr, Hn. auto. }
  destruct (omap_list_total entry (root_indices table)) as [forest Hf].
  { intros r Hr. destruct (Hentry r Hr) as (comp & node & _ & _ & ->). eauto. }
  exists forest. split; [exact Hf|].
  destruct (omap_list_in _ _ _ Hf) as [Hf1 Hf2].
  assert (Hids : forall s, In s (forest_ids forest) <->
            exists i, reachable structural_children table i /\ s = Some (make_id i)).
  { intro s. unfold forest_ids. rewrite in_flat_map. split.
    - intros (e & He & Hs). destruct (Hf1 _ He) as (r & Hr & Her).
      destruct (Hentry r Hr) as (comp & node & _ & Hn & Her').
      rewrite Her in Her'. injection Her' as ->. simpl in Hs.
      apply (build_ids input table tracking Hinv _ _ _ Hn) in Hs.
      destruct Hs as (x & Hx & ->). exists x. split; [|reflexivity].
      apply (reachable_under table). eauto.
    - intros (x & Hx & ->). apply (reachable_under table) in Hx.
      destruct Hx as (r & Hr & Hu).
      destruct (Hf2 _ Hr) as (e & He & Her).
      destruct (Hentry r Hr) as (comp & node & _ & Hn & Her').
      rewrite Her in Her'. injection Her' as ->.
      exists (comp_id comp, node). split; [assumption|]. simpl.
      apply (build_ids input table tracking Hinv _ _ _ Hn). eauto. }
  split; [exact Hids|].
  intros i j ei ej Hij Hi Hj Hcij Hcji Hthird.
  assert (Hparent : forall a b ea eb,
            a <> b -> nth_error input a = Some ea -> nth_error input b = Some eb ->
            _is_contained_within (bbox ea) (bbox eb) = true ->
            (forall k ek, k <> a -> k <> b -> nth_error input k = Some ek ->
               _is_contained_within (bbox ea) (bbox ek) = false) ->
            exists ca, nth_error table a = Some ca /\ parent_index ca = Some b).
  { intros a b ea eb Hab Ha Hb Hc Hno.
    destruct (nth_error table a) as [ca|] eqn:Eca.
    2:{ apply nth_error_None in Eca.
        assert (a < length input)%nat by (apply nth_error_Some; congruence). lia. }
    exists ca. split; [reflexivity|].
    rewrite (inv_parent _ _ _ Hinv _ _ Eca).
    assert (Hlt : (a <? length input)%nat = true).
    { apply Nat.ltb_lt. apply nth_error_Some. congruence. }
    rewrite Hlt.
    destruct (_find_parent_index a input) as [p|] eqn:Ef.
    2:{ exfalso. eapply (find_parent_complete a b); eauto. }
    destruct (find_parent_sound _ _ _ Ef) as (e & ep & He & Hep & Hpa & Hcp).
    assert (e = ea) by congruence. subst e.
    destruct (Nat.eq_dec p b) as [->|Hpb]; [reflexivity|].
    rewrite (Hno p ep Hpa Hpb Hep) in Hcp. discriminate. }
  destruct (Hparent i j ei ej Hij Hi Hj Hcij) as (ci & Hci & Hpi).
  { intros k ek Hki Hkj Hk. now destruct (Hthird k ek Hki Hkj Hk). }
  destruct (Hparent j i ej ei (not_eq_sym Hij) Hj Hi Hcji) as (cj & Hcj & Hpj).
  { intros k ek Hkj Hki Hk. now destruct (Hthird k ek Hki Hkj Hk). }
  pose proof (reachable_avoids_cycle input table i j ci cj Hinv Hci Hcj Hpi Hpj) as Hav.
  split; [exists ci, cj; auto|].
  split; [|split; [|split]].
  - intro Hr. apply root_indices_spec in Hr. destruct Hr as (c & Hc & Hp). congruence.
  - intro Hr. apply root_indices_spec in Hr. destruct Hr as (c & Hc & Hp). congruence.
  - intro Hin. apply Hids in Hin. destruct Hin as (x & Hx & Hid).
    assert (Hid' : make_id i = make_id x) by congruence.
    apply make_id_inj in Hid'. subst x.
    destruct (Hav i Hx) as [H _]. now apply H.
  - intro Hin. apply Hids in Hin. destruct Hin as (x & Hx & Hid).
    assert (Hid' : make_id j = make_id x) by congruence.
    apply make_id_inj in Hid'. subst x.
    destruct (Hav j Hx) as [_ H]. now apply H.
Qed.

(** With a text box inside an image inside a container, the text box is
    linked as a child of the image and the image as a child of the
    container, yet the hierarchy holds the container alone. *)
Lemma hierarchy_drops_media_subtree :
  reachable children_indices (fst (component_table text_inside_image None)) 2
  /\ option_map forest_ids (convert_json_structure text_inside_image None)
     = Some [Some "comp_1"].
Proof.
  split; [|vm_compute; reflexivity].
  eapply (reach_child _ _ 1%nat); [| vm_compute; reflexivity | simpl; now left].
  eapply (reach_child _ _ 0%nat); [| vm_compute; reflexivity | simpl; now left].
  eapply reach_root; [vm_compute; reflexivity | reflexivity].
Qed.

(** The same holds when the image is read and the crop is saved. *)
Example hierarchy_drops_media_subtree_with_image :
  option_map forest_ids (convert_json_structure text_inside_image (Some sample_image))
  = Some [Some "comp_1"].
Proof. vm_compute; reflexivity. Qed.

(** Two components with the same box: the hierarchy is empty. *)
Example hierarchy_twin_buttons :
  convert_json_structure twin_buttons None = Some []
  /\ map parent_index (fst (component_table twin_buttons None)) = [Some 1%nat; Some 0%nat].
Proof. split; vm_compute; reflexivity. Qed.

Lemma hierarchy_nodes_witness :
  ~ In 0%nat (root_indices (fst (component_table twin_buttons None)))
  /\ ~ In 1%nat (root_indices (fst (component_table twin_buttons None))).
Proof.
  destruct (hierarchy_nodes twin_buttons None) as (forest & _ & _ & Hmutual).
  destruct (Hmutual 0%nat 1%nat twin_button twin_button)
    as (_ & H0 & H1 & _).
  - discriminate.
  - reflexivity.
  - reflexivity.
  - reflexivity.
  - reflexivity.
  - intros k ek Hk0 Hk1 Hk.
    destruct k as [|[|k]]; [now elim Hk0|now elim Hk1|].
    destruct k; discriminate.
  - split; assumption.
Defined.

End HierarchyFacts.

(** ** Facts about the fallback color extraction *)

Module ColorsFacts.
Import Colors.

Lemma unique_rows_white (pixels : list pixel) :
  Forall (fun p => p = white) pixels -> pixels <> [] -> unique_rows pixels = [white].
Proof.
  induction 1 as [|p t Hp Ht IH]; intro Hne; [congruence|].
  subst p. simpl. destruct t as [|q t'].
  - reflexivity.
  - rewrite IH by discriminate. reflexivity.
Qed.

(** C8: on an all-white RGB crop, for any non-negative number of
    requested colors, and on any crop of at most one pixel, the
    fallback extractor returns exactly the list holding "#ffffff". *)
Theorem fallback_white :
  (forall image max_colors,
     Forall (Forall (fun p => p = white)) image -> 0 <= max_colors ->
     _fallback_extract_colors image max_colors = ["#ffffff"])
  /\ (forall image max_colors,
        (length (concat image) <= 1)%nat ->
        _fallback_extract_colors image max_colors = ["#ffffff"]).
Proof.
  split.
  - intros image max_colors Hwhite Hmax. unfold _fallback_extract_colors.
    destruct (Nat.leb_spec (length (concat image)) 1) as [|Hlen]; [reflexivity|].
    assert (Hall : Forall (fun p => p = white) (concat image)).
    { apply Forall_concat. exact Hwhite. }
    rewrite (unique_rows_white _ Hall) by (intro E; rewrite E in Hlen; simpl in Hlen; lia).
    simpl length. destruct (Z.ltb_spec max_colors (Z.of_nat 1)) as [Hlt|Hge].
    + assert (max_colors = 0) by lia. subst. reflexivity.
    + unfold slice_to. destruct (Z.leb_spec 0 max_colors); [|lia].
      destruct (Z.to_nat max_colors) as [|n] eqn:En; [lia|].
      simpl. rewrite firstn_nil. reflexivity.
  - intros image max_colors Hlen. unfold _fallback_extract_colors.
    apply Nat.leb_le in Hlen. now rewrite Hlen.
Qed.

Lemma fallback_white_witness :
  _fallback_extract_colors (repeat (repeat white 4) 3) 5 = ["#ffffff"]
  /\ _fallback_extract_colors [[(12, 200, 7)]] 5 = ["#ffffff"].
Proof.
  destruct fallback_white as [Hwhite Hsmall]. split.
  - apply Hwhite.
    + repeat constructor.
    + discriminate.
  - apply Hsmall. simpl. apply le_n.
Defined.

(** The stride sampling on a crop with more distinct colors than
    requested. *)
Example fallback_sampling :
  _fallback_extract_colors
    [[(0, 0, 0); (255, 0, 0); (0, 255, 0)]; [(0, 0, 255); (0, 0, 0); (16, 32, 48)]] 2
  = ["#000000"; "#00ff00"].
Proof. vm_compute; reflexivity. Qed.

End ColorsFacts.

(** ** Facts about the decoder *)

Module JsonFacts.
Import Text Json.

Lemma skip_ws_length (s : list ascii) : (length (skip_ws s) <= length s)%nat.
Proof.
  induction s as [|c t IH]; simpl; [lia|].
  destruct (is_ws c); simpl; lia.
Qed.

Lemma next_is_length (c : ascii) (s rest : list ascii) :
  next_is c s = Some rest -> length s = S (length rest).
Proof.
  destruct s as [|c' t]; simpl; [discriminate|].
  destruct (Ascii.eqb c' c); [|discriminate]. now intros [= <-].
Qed.

Lemma span_digits_length (s : list ascii) :
  (length (snd (span_digits s)) <= length s)%nat.
Proof.
  induction s as [|c t IH]; simpl; [lia|].
  destruct (is_digit c); [|simpl; lia].
  destruct (span_digits t). simpl in *. lia.
Qed.

Lemma starts_with_length (lit : string) (s rest : list ascii) :
  starts_with lit s = Some rest ->
  (length rest + String.length lit = length s)%nat.
Proof.
  unfold starts_with.
  destruct (String.eqb_spec
              (string_of_list_ascii (firstn (length (list_ascii_of_string lit)) s)) lit)
    as [E|]; [|discriminate].
  intros [= <-].
  apply (f_equal list_ascii_of_string) in E.
  rewrite list_ascii_of_string_of_list_ascii in E.
  apply (f_equal (@length ascii)) in E.
  rewrite length_firstn in E.
  assert (Hl : length (list_ascii_of_string lit) = String.length lit).
  { clear. induction lit; simpl; [reflexivity|]. now rewrite IHlit. }
  rewrite length_skipn. lia.
Qed.

Lemma parse_string_body_length (s acc : list ascii) (str : string) (rest : list ascii) :
  parse_string_body s acc = Some (str, rest) -> (length rest < length s)%nat.
Proof.
  remember (length s) as n eqn:Hn. revert s acc Hn.
  induction n as [n IH] using lt_wf_ind. intros s acc -> H.
  destruct s as [|c t]; simpl in H; [discriminate|].
  destruct (Ascii.eqb c dquote).
  { injection H as _ <-. simpl. lia. }
  destruct (Ascii.eqb c "\"%char).
  - destruct t as [|e t']; [discriminate|].
    destruct (unescape e).
    + apply (IH (length t')) in H; simpl; try reflexivity; lia.
    + destruct (Ascii.eqb e "u"%char); [|discriminate].
      destruct t' as [|h1 [|h2 [|h3 [|h4 t'']]]]; try discriminate.
      destruct (hex_value h1) as [[|?]|]; try discriminate.
      destruct (hex_value h2) as [[|?]|]; try discriminate.
      destruct (hex_value h3); try discriminate.
      destruct (hex_value h4); try discriminate.
      apply (IH (length t'')) in H; simpl; try reflexivity; lia.
  - destruct (nat_of_ascii c <? 32)%nat; [discriminate|].
    apply (IH (length t)) in H; simpl; try reflexivity; lia.
Qed.

Lemma take_sign_length (s : list ascii) :
  (length (snd (take_sign s)) <= length s)%nat.
Proof.
  unfold take_sign. destruct (next_is "-"%char s) eqn:E; simpl; [|lia].
  apply next_is_length in E. lia.
Qed.

Lemma take_int_length (s ds rest : list ascii) :
  take_int s = Some (ds, rest) -> (length rest < length s)%nat.
Proof.
  unfold take_int. destruct s as [|c t]; [discriminate|].
  destruct (is_digit c) eqn:Ed; [|discriminate].
  destruct (Ascii.eqb c "0"%char).
  - intros [= _ <-]. simpl. lia.
  - simpl. rewrite Ed. pose proof (span_digits_length t) as Ht.
    destruct (span_digits t). intros [= _ <-]. simpl in *. lia.
Qed.

Lemma take_frac_length (s : list ascii) :
  (length (snd (take_frac s)) <= length s)%nat.
Proof.
  unfold take_frac. destruct (next_is "."%char s) as [[|d t]|] eqn:E;
    cbn [snd]; try lia.
  apply next_is_length in E.
  pose proof (span_digits_length (d :: t)) as H. cbn [length] in H, E.
  destruct (is_digit d); cbn [snd]; lia.
Qed.

Lemma take_exp_length (s : list ascii) :
  (length (snd (take_exp s)) <= length s)%nat.
Proof.
  unfold take_exp. destruct s as [|e t]; simpl; [lia|].
  destruct (_ || _); [|simpl; lia].
  assert (H : forall t' (x : Z), (length t' <= length t)%nat ->
            (length (snd (match span_digits t' with
                          | ([], _) => (0%Z, e :: t)
                          | (eds, rest) => ((x * digits_value eds)%Z, rest)
                          end)) <= S (length t))%nat).
  { intros t' x Hle. pose proof (span_digits_length t') as Hs.
    destruct (span_digits t') as [[|a l] rest]; simpl in *; lia. }
  destruct (next_is "+"%char t) as [u|] eqn:Ep.
  { apply next_is_length in Ep. cbv beta iota zeta. apply H. lia. }
  destruct (next_is "-"%char t) as [u|] eqn:Em.
  { apply next_is_length in Em. cbv beta iota zeta. apply H. lia. }
  cbv beta iota zeta. apply H. lia.
Qed.

Lemma parse_number_length (s : list ascii) (v : json) (rest : list ascii) :
  parse_number s = Some (v, rest) -> (length rest < length s)%nat.
Proof.
  unfold parse_number. pose proof (take_sign_length s) as H1.
  destruct (take_sign s) as [negative s1]. simpl in H1. unfold obind.
  destruct (take_int s1) as [[int_digits s2]|] eqn:E2; [|discriminate].
  apply take_int_length in E2.
  pose proof (take_frac_length s2) as H3. destruct (take_frac s2) as [frac s3].
  pose proof (take_exp_length s3) as H4. destruct (take_exp s3) as [e s4].
  simpl in *. intros [= _ <-]. lia.
Qed.

Lemma parse_literal_length (s : list ascii) (v : json) (rest : list ascii) :
  parse_literal s = Some (v, rest) -> (length rest < length s)%nat.
Proof.
  unfold parse_literal.
  destruct (starts_with "null" s) eqn:E1.
  { intros [= _ <-]. apply starts_with_length in E1. simpl in E1. lia. }
  destruct (starts_with "true" s) eqn:E2.
  { intros [= _ <-]. apply starts_with_length in E2. simpl in E2. lia. }
  destruct (starts_with "false" s) eqn:E3; [|discriminate].
  intros [= _ <-]. apply starts_with_length in E3. simpl in E3. lia.
Qed.

(** Whatever is decoded leaves a shorter text. *)
Lemma parse_progress (fuel : nat) :
  (forall s v rest, parse_value fuel s = Parsed (v, rest) ->
                    (length rest < length s)%nat)
  /\ (forall s acc v rest, parse_elements fuel s acc = Parsed (v, rest) ->
                           (length rest < length s)%nat)
  /\ (forall s acc v rest, parse_members fuel s acc = Parsed (v, rest) ->
                           (length rest < length s)%nat).
Proof.
  induction fuel as [|fuel (IHv & IHe & IHm)];
    [repeat split; intros; discriminate|].
  split; [|split].
  - intros s v rest H. simpl in H. destruct s as [|c t]; [discriminate|].
    destruct (Ascii.eqb c dquote).
    { destruct (parse_string_body t []) as [[str r]|] eqn:E; [|discriminate].
      simpl in H. injection H as _ <-.
      apply parse_string_body_length in E. simpl. lia. }
    pose proof (skip_ws_length t) as Hws.
    destruct (Ascii.eqb c "{"%char).
    { destruct (next_is "}"%char (skip_ws t)) as [r|] eqn:E.
      - injection H as _ <-. apply next_is_length in E. simpl. lia.
      - apply IHm in H. simpl. lia. }
    destruct (Ascii.eqb c "["%char).
    { destruct (next_is "]"%char (skip_ws t)) as [r|] eqn:E.
      - injection H as _ <-. apply next_is_length in E. simpl. lia.
      - apply IHe in H. simpl. lia. }
    destruct (parse_literal (c :: t)) as [[v' r]|] eqn:El.
    { injection H as _ <-. now apply parse_literal_length in El. }
    destruct (parse_number (c :: t)) as [[v' r]|] eqn:En; [|discriminate].
    injection H as _ <-. now apply parse_number_length in En.
  - intros s acc v rest H. simpl in H.
    destruct (parse_value fuel s) as [[v' r]| |] eqn:Ev; try discriminate.
    apply IHv in Ev. simpl in H. pose proof (skip_ws_length r) as Hws.
    destruct (next_is "]"%char (skip_ws r)) as [r'|] eqn:E1.
    { injection H as _ <-. apply next_is_length in E1. lia. }
    destruct (next_is ","%char (skip_ws r)) as [r'|] eqn:E2; [|discriminate].
    apply next_is_length in E2. apply IHe in H.
    pose proof (skip_ws_length r'). lia.
  - intros s acc v rest H. simpl in H.
    destruct (next_is dquote s) as [t|] eqn:Eq; [|discriminate].
    apply next_is_length in Eq.
    destruct (parse_string_body t []) as [[key r]|] eqn:Ek; [|discriminate].
    apply parse_string_body_length in Ek. simpl in H.
    pose proof (skip_ws_length r) as Hws.
    destruct (next_is ":"%char (skip_ws r)) as [r1|] eqn:Ec; [|discriminate].
    apply next_is_length in Ec. pose proof (skip_ws_length r1) as Hws1.
    destruct (parse_value fuel (skip_ws r1)) as [[v' r2]| |] eqn:Ev; try discriminate.
    apply IHv in Ev. simpl in H. pose proof (skip_ws_length r2) as Hws2.
    destruct (next_is "}"%char (skip_ws r2)) as [r3|] eqn:E1.
    { injection H as _ <-. apply next_is_length in E1. lia. }
    destruct (next_is ","%char (skip_ws r2)) as [r3|] eqn:E2; [|discriminate].
    apply next_is_length in E2. apply IHm in H.
    pose proof (skip_ws_length r3). lia.
Qed.

(** With a bound of twice the length of the text the decoder never
    stops for want of it. *)
Lemma parse_bound (fuel : nat) :
  (forall s, (2 * length s + 1 <= fuel)%nat -> parse_value fuel s <> Exhausted)
  /\ (forall s acc, (2 * length s + 2 <= fuel)%nat ->
                    parse_elements fuel s acc <> Exhausted)
  /\ (forall s acc, (2 * length s + 2 <= fuel)%nat ->
                    parse_members fuel s acc <> Exhausted).
Proof.
  induction fuel as [|fuel (IHv & IHe & IHm)];
    [repeat split; intros; lia|].
  destruct (parse_progress fuel) as (Pv & _ & _).
  split; [|split].
  - intros s Hf. simpl. destruct s as [|c t]; [discriminate|].
    destruct (Ascii.eqb c dquote).
    { destruct (parse_string_body t []); discriminate. }
    pose proof (skip_ws_length t) as Hws. simpl in Hf.
    destruct (Ascii.eqb c "{"%char).
    { destruct (next_is "}"%char (skip_ws t)); [discriminate|]. apply IHm. lia. }
    destruct (Ascii.eqb c "["%char).
    { destruct (next_is "]"%char (skip_ws t)); [discriminate|]. apply IHe. lia. }
    destruct (parse_literal (c :: t)); [discriminate|].
    destruct (parse_number (c :: t)); discriminate.
  - intros s acc Hf. simpl.
    destruct (parse_value fuel s) as [[v r]| |] eqn:Ev; simpl;
      [|discriminate|exfalso; eapply IHv; [|exact Ev]; lia].
    apply Pv in Ev. pose proof (skip_ws_length r) as Hws.
    destruct (next_is "]"%char (skip_ws r)); [discriminate|].
    destruct (next_is ","%char (skip_ws r)) as [r'|] eqn:E2; [|discriminate].
    apply next_is_length in E2. pose proof (skip_ws_length r').
    apply IHe. lia.
  - intros s acc Hf. simpl.
    destruct (next_is dquote s) as [t|] eqn:Eq; [|discriminate].
    apply next_is_length in Eq.
    destruct (parse_string_body t []) as [[key r]|] eqn:Ek; [|discriminate].
    apply parse_string_body_length in Ek. simpl.
    pose proof (skip_ws_length r) as Hws.
    destruct (next_is ":"%char (skip_ws r)) as [r1|] eqn:Ec; [|discriminate].
    apply next_is_length in Ec. pose proof (skip_ws_length r1) as Hws1.
    destruct (parse_value fuel (skip_ws r1)) as [[v r2]| |] eqn:Ev; simpl;
      [|discriminate|exfalso; eapply IHv; [|exact Ev]; lia].
    apply Pv in Ev. pose proof (skip_ws_length r2) as Hws2.
    destruct (next_is "}"%char (skip_ws r2)); [discriminate|].
    destruct (next_is ","%char (skip_ws r2)) as [r3|] eqn:E2; [|discriminate].
    apply next_is_length in E2. pose proof (skip_ws_length r3).
    apply IHm. lia.
Qed.

(** [loads] always decodes or reports a syntax error. *)
Lemma loads_decides (text : string) : loads text <> Exhausted.
Proof.
  unfold loads. set (s := list_ascii_of_string text).
  destruct (parse_bound (2 * length s + 2)) as (Hv & _ & _).
  specialize (Hv (skip_ws s)). pose proof (skip_ws_length s).
  destruct (parse_value _ (skip_ws s)) as [[v r]| |]; simpl;
    [destruct (skip_ws r); discriminate|discriminate|].
  exfalso. apply Hv; [lia|reflexivity].
Qed.

End JsonFacts.

(** ** Facts about bounding-box post-processing *)

Module BboxFacts.
Import Text Json Bbox.

(** *** The response parser *)

(** C5: the trailing-comma response.  The direct parse fails and the
    second tier parses the repaired text, but the repair has turned the
    four coordinates 1,2,3,4 into the two numbers 1.2 and 3.4: the item
    is dropped and the parser returns the empty list. *)
Theorem trailing_comma_recovery :
  loads trailing_comma_response = SyntaxError
  /\ cleanup (strip_fences trailing_comma_response)
     = quoted "[{'label':'a','box_2d':[1.2,3.4]}]"
  /\ parse_tiers (strip_fences trailing_comma_response)
     = Returned (Some (Cleanup,
         JArr [JObj [("label", JStr "a"); ("box_2d", JArr [JNum 1.2; JNum 3.4])]]))
  /\ parse_gemini_response trailing_comma_response = Returned [].
Proof. repeat split; vm_compute; reflexivity. Qed.

(** The same response with a space after each comma of the box is
    recovered by the second tier. *)
Example trailing_comma_with_spaces :
  parse_gemini_response (quoted "[{'label':'a','box_2d':[1, 2, 3, 4]},]")
  = Returned [JObj [("label", JStr "a");
                    ("box_percent", JArr [JNum 0.2; JNum 0.1; JNum 0.4; JNum 0.3])]].
Proof. vm_compute; reflexivity. Qed.

Lemma standardize_item_valid item e :
  standardize_item item = Returned (Some e) -> valid_element e.
Proof.
  unfold standardize_item. destruct item as [| | | |l|m]; try discriminate.
  destruct (dict_get "label" m) as [label|] eqn:El; [|discriminate].
  assert (Hpercent :
            match dict_get "box_percent" m with
            | None => Returned None
            | Some box_percent =>
                match py_len box_percent with
                | None => Raised
                | Some n => if (n =? 4)%nat then Returned (Some (JObj m)) else Returned None
                end
            end = Returned (Some e) -> valid_element e).
  { destruct (dict_get "box_percent" m) as [bp|] eqn:Ebp; [|discriminate].
    destruct (py_len bp) as [n|] eqn:En; [|discriminate].
    destruct (Nat.eqb_spec n 4) as [->|]; [|discriminate].
    intros [= <-]. exists m, label, bp. auto. }
  destruct (dict_get "box_2d" m) as [b2|]; [|exact Hpercent].
  destruct (py_len b2) as [n|]; [|discriminate].
  destruct (n =? 4)%nat; [|exact Hpercent].
  unfold box_2d_to_percent.
  destruct b2 as [| | | |[|y0 [|x0 [|y1 [|x1 [|? ?]]]]]|]; try discriminate.
  unfold obind.
  destruct (as_number x0); [|discriminate].
  destruct (as_number y0); [|discriminate].
  destruct (as_number x1); [|discriminate].
  destruct (as_number y1); [|discriminate].
  intros [= <-]. eexists _, label, _. repeat split; reflexivity.
Qed.

Lemma standardize_items_kept items : forall out,
  standardize_items items = Returned out -> out = flat_map kept items.
Proof.
  induction items as [|item rest IH]; intros out H; simpl in H.
  - now injection H as <-.
  - simpl. unfold kept at 1.
    destruct (standardize_item item) as [r| |]; try discriminate.
    destruct (standardize_items rest) as [out'| |]; try discriminate.
    injection H as <-. rewrite (IH out' eq_refl). now destruct r.
Qed.

Lemma kept_valid items : Forall valid_element (flat_map kept items).
Proof.
  apply Forall_flat_map. rewrite Forall_forall. intros item _.
  unfold kept. destruct (standardize_item item) as [[e|]| |] eqn:E;
    try constructor; [|constructor].
  eapply standardize_item_valid; eassumption.
Qed.

Lemma standardize_valid data out :
  standardize data = Returned out -> Forall valid_element out.
Proof.
  destruct data; simpl; try discriminate; try (intros [= <-]; constructor).
  intro H. apply standardize_items_kept in H. subst. apply kept_valid.
Qed.

Lemma standardize_items_decides items : standardize_items items <> OutOfFuel.
Proof.
  induction items as [|item rest IH]; simpl; [discriminate|].
  assert (Hitem : standardize_item item <> OutOfFuel).
  { unfold standardize_item. destruct item; try discriminate.
    destruct (dict_get "label" m); [|discriminate].
    assert (Hp : match dict_get "box_percent" m with
                 | None => Returned None
                 | Some box_percent =>
                     match py_len box_percent with
                     | None => Raised
                     | Some n => if (n =? 4)%nat then Returned (Some (JObj m))
                                 else Returned None
                     end
                 end <> OutOfFuel).
    { destruct (dict_get "box_percent" m) as [bp|]; [|discriminate].
      destruct (py_len bp) as [n|]; [|discriminate].
      destruct (n =? 4)%nat; discriminate. }
    destruct (dict_get "box_2d" m) as [b2|]; [|exact Hp].
    destruct (py_len b2) as [n|]; [|discriminate].
    destruct (n =? 4)%nat; [|exact Hp].
    destruct (box_2d_to_percent b2); discriminate. }
  destruct (standardize_item item); try discriminate; [|congruence].
  destruct (standardize_items rest); try discriminate. congruence.
Qed.

(** The parser returns or raises: the bound of the decoder model is
    never met. *)
Lemma parse_gemini_response_decides response :
  parse_gemini_response response <> OutOfFuel.
Proof.
  unfold parse_gemini_response.
  destruct (String.eqb response ""); [discriminate|].
  unfold parse_tiers.
  pose proof (JsonFacts.loads_decides (strip_fences response)) as H1.
  destruct (loads (strip_fences response)) as [data| |]; [| |congruence].
  { destruct data; simpl; try discriminate. apply standardize_items_decides. }
  pose proof (JsonFacts.loads_decides (cleanup (strip_fences response))) as H2.
  destruct (loads (cleanup (strip_fences response))) as [data| |]; [| |congruence].
  { destruct data; simpl; try discriminate. apply standardize_items_decides. }
  destruct (findall_component _) as [|g gs]; [discriminate|].
  match goal with |- context [loads ?t] =>
    pose proof (JsonFacts.loads_decides t) as H3; destruct (loads t) as [data| |]
  end; [|discriminate|congruence].
  destruct data; simpl; try discriminate. apply standardize_items_decides.
Qed.

(** C10 (as amended): every element that the parser returns is an
    object with a label and a [box_percent] of length four (and the
    bound of the decoder model is never what ends a call).  The
    returned list holds, in order, what each parsed item contributes: an
    item that is not an object or has no label contributes nothing, and
    neither does a labelled item whose boxes, where present, are lists
    of another length than four; a labelled item with a [box_2d] of four
    numbers contributes its label with the [box_percent] of the four
    tenths in x, y order; a labelled item without a four-element
    [box_2d] and with a four-element [box_percent] is passed on as it
    is. *)
Theorem parser_elements :
  (forall response out,
     parse_gemini_response response = Returned out -> Forall valid_element out)
  /\ (forall response, parse_gemini_response response <> OutOfFuel)
  /\ (forall items out,
        standardize (JArr items) = Returned out -> out = flat_map kept items)
  /\ (forall item,
        (forall m, item <> JObj m) -> standardize_item item = Returned None)
  /\ (forall m,
        dict_get "label" m = None -> standardize_item (JObj m) = Returned None)
  /\ (forall m,
        (forall k b, In k ["box_2d"; "box_percent"] -> dict_get k m = Some b ->
                     exists l, b = JArr l /\ length l <> 4%nat) ->
        standardize_item (JObj m) = Returned None)
  /\ (forall m label y_min x_min y_max x_max,
        dict_get "label" m = Some label ->
        dict_get "box_2d" m = Some (JArr [JNum y_min; JNum x_min; JNum y_max; JNum x_max]) ->
        standardize_item (JObj m)
        = Returned (Some (JObj [("label", label);
                                ("box_percent",
                                 JArr [JNum (x_min / 10); JNum (y_min / 10);
                                       JNum (x_max / 10); JNum (y_max / 10)])])))
  /\ (forall m label box,
        dict_get "label" m = Some label ->
        (forall b, dict_get "box_2d" m = Some b -> exists l, b = JArr l /\ length l <> 4%nat) ->
        dict_get "box_percent" m = Some box -> py_len box = Some 4%nat ->
        standardize_item (JObj m) = Returned (Some (JObj m))).
Proof.
  split; [|split; [|split; [|split; [|split; [|split; [|split]]]]]].
  - intros response out. unfold parse_gemini_response.
    destruct (String.eqb response ""); [intros [= <-]; constructor|].
    destruct (parse_tiers _) as [[[t data]|]| |]; try discriminate.
    + apply standardize_valid.
    + intros [= <-]. constructor.
  - exact parse_gemini_response_decides.
  - intros items out. apply standardize_items_kept.
  - intros item H. destruct item; try reflexivity. now elim (H m).
  - intros m H. simpl. now rewrite H.
  - intros m H. simpl.
    destruct (dict_get "label" m); [|reflexivity].
    assert (Hp : match dict_get "box_percent" m with
                 | None => Returned None
                 | Some box_percent =>
                     match py_len box_percent with
                     | None => Raised
                     | Some n => if (n =? 4)%nat then Returned (Some (JObj m))
                                 else Returned None
                     end
                 end = Returned None).
    { destruct (dict_get "box_percent" m) as [bp|] eqn:E; [|reflexivity].
      destruct (H "box_percent" bp) as (l & -> & Hl); [simpl; auto|exact E|].
      simpl. apply Nat.eqb_neq in Hl. now rewrite Hl. }
    destruct (dict_get "box_2d" m) as [b2|] eqn:E; [|exact Hp].
    destruct (H "box_2d" b2) as (l & -> & Hl); [simpl; auto|exact E|].
    simpl. apply Nat.eqb_neq in Hl. rewrite Hl. exact Hp.
  - intros m label y_min x_min y_max x_max Hl Hb. simpl. rewrite Hl, Hb. reflexivity.
  - intros m label box Hl H2 Hb Hlen. simpl. rewrite Hl, Hb, Hlen. simpl.
    destruct (dict_get "box_2d" m) as [b2|]; [|reflexivity].
    destruct (H2 b2 eq_refl) as (l & -> & Hne). simpl.
    apply Nat.eqb_neq in Hne. now rewrite Hne.
Qed.

(** A response with a [box_percent] of four strings is returned with
    those four strings. *)
Lemma parser_keeps_text_box :
  parse_gemini_response text_box_response
  = Returned [JObj [("label", JStr "a");
                    ("box_percent", JArr [JStr "p"; JStr "q"; JStr "r"; JStr "s"])]]
  /\ ~ numeric_element
        (JObj [("label", JStr "a");
               ("box_percent", JArr [JStr "p"; JStr "q"; JStr "r"; JStr "s"])]).
Proof.
  split; [vm_compute; reflexivity|].
  intros (m & label & a & b & c & d & Hm & _ & Hbox).
  injection Hm as <-. simpl in Hbox. discriminate.
Qed.

(** *** The nested-element filter *)

Lemma nested_in_any_false component box parent_boxes :
  nested_in_any component box parent_boxes = Some false
  <-> Forall (harmless component box) parent_boxes.
Proof.
  induction parent_boxes as [|p rest IH]; cbn [nested_in_any].
  - split; [constructor|reflexivity].
  - destruct (json_eqb component p) eqn:Eq.
    + rewrite IH. split; intro H.
      * constructor; [now left|assumption].
      * now inversion H.
    + unfold obind. split.
      * destruct (box_of p) as [pb|] eqn:Eb; [|discriminate].
        destruct (is_nested box pb) as [[|]|] eqn:En; try discriminate.
        intro H. constructor; [right; eauto|now apply IH].
      * intro H. inversion H as [|? ? [Hp|(pb & Hb & Hn)] Hrest]; subst; [congruence|].
        rewrite Hb, Hn. now apply IH.
Qed.

Lemma keep_component_true parent_boxes component :
  keep_component parent_boxes component = Some true
  <-> exists label box,
        component_label component = Some label /\ box_of component = Some box
        /\ (contains "image" label = true
            \/ Forall (harmless component box) parent_boxes).
Proof.
  unfold keep_component, obind. split.
  - destruct (component_label component) as [label|]; [|discriminate].
    destruct (box_of component) as [box|]; [|discriminate].
    destruct (contains "image" label) eqn:Ei.
    + intros _. exists label, box. auto.
    + destruct (nested_in_any component box parent_boxes) as [[|]|] eqn:En;
        try discriminate.
      intros _. exists label, box. repeat split; try reflexivity.
      right. now apply nested_in_any_false.
  - intros (label & box & -> & -> & [Hi|Hh]).
    + now rewrite Hi.
    + destruct (contains "image" label); [reflexivity|].
      apply nested_in_any_false in Hh. now rewrite Hh.
Qed.

(** Fewer parents keep what more parents keep. *)
Lemma keep_component_mono parents parents' component :
  incl parents' parents ->
  keep_component parents component = Some true ->
  keep_component parents' component = Some true.
Proof.
  intros Hincl H. apply keep_component_true in H.
  destruct H as (label & box & Hl & Hb & H).
  apply keep_component_true. exists label, box. repeat split; try assumption.
  destruct H as [H|H]; [now left|right].
  rewrite Forall_forall in *. auto.
Qed.

Lemma filter_loop_kept parents components : forall out,
  filter_loop parents components = Some out ->
  Forall (fun c => keep_component parents c = Some true) out
  /\ incl out components.
Proof.
  induction components as [|c rest IH]; intros out H; simpl in H.
  - injection H as <-. split; [constructor|apply incl_refl].
  - unfold obind in H.
    destruct (keep_component parents c) as [keep|] eqn:Ek; [|discriminate].
    destruct (filter_loop parents rest) as [out'|]; [|discriminate].
    injection H as <-. destruct (IH out' eq_refl) as [Hall Hincl].
    destruct keep.
    + split; [now constructor|]. intros x [<-|Hx]; [now left|right; auto].
    + split; [assumption|]. intros x Hx. right. auto.
Qed.

Lemma filter_loop_fixed parents components :
  Forall (fun c => keep_component parents c = Some true) components ->
  filter_loop parents components = Some components.
Proof.
  induction 1 as [|c rest Hc Hrest IH]; simpl; [reflexivity|].
  now rewrite Hc, IH.
Qed.

Lemma collect_parents_spec components : forall parents,
  collect_parents components = Some parents ->
  forall p, In p parents <->
            In p components
            /\ exists label, component_label p = Some label
                             /\ is_parent_label label = true.
Proof.
  induction components as [|c rest IH]; intros parents H p; simpl in H.
  - injection H as <-. simpl. tauto.
  - unfold obind in H.
    destruct (component_label c) as [label|] eqn:El; [|discriminate].
    destruct (collect_parents rest) as [ps|]; [|discriminate].
    injection H as <-. specialize (IH ps eq_refl p).
    destruct (is_parent_label label) eqn:Ep; simpl; rewrite ?IH.
    + split.
      * intros [<-|[Hin Hl]]; [split; [now left|eauto]|]. split; [now right|assumption].
      * intros [[<-|Hin] Hl]; [now left|right; auto].
    + split.
      * intros [Hin Hl]. split; [now right|assumption].
      * intros [[<-|Hin] Hl]; [|auto].
        destruct Hl as (l & Hl & Hp). congruence.
Qed.

Lemma collect_parents_total components :
  Forall (fun c => component_label c <> None) components ->
  exists parents, collect_parents components = Some parents.
Proof.
  induction 1 as [|c rest Hc Hrest IH]; simpl; [eauto|].
  destruct (component_label c); [|congruence].
  destruct IH as [ps ->]. simpl. eauto.
Qed.

Lemma well_formed_label c : well_formed c -> component_label c <> None.
Proof.
  intros (m & s & l & -> & Hl & _). simpl. now rewrite Hl.
Qed.

Lemma is_nested_total l l' :
  length l = 4%nat -> Forall (fun x => as_number x <> None) l ->
  length l' = 4%nat -> Forall (fun x => as_number x <> None) l' ->
  exists b, is_nested (JArr l) (JArr l') = Some b.
Proof.
  intros Hl Hn Hl' Hn'.
  assert (Hitem : forall (k : list json) i,
             length k = 4%nat -> Forall (fun x => as_number x <> None) k ->
             (i < 4)%nat -> exists q, item_number (JArr k) i = Some q).
  { intros k i Hk Hnum Hi. simpl. unfold obind.
    destruct (nth_error k i) as [x|] eqn:E.
    - rewrite Forall_forall in Hnum. specialize (Hnum x (nth_error_In _ _ E)).
      destruct (as_number x); [eauto|congruence].
    - apply nth_error_None in E. lia. }
  unfold is_nested, obind.
  destruct (Hitem l 0%nat Hl Hn ltac:(lia)) as [b0 ->].
  destruct (Hitem l' 0%nat Hl' Hn' ltac:(lia)) as [p0 ->].
  destruct (Qle_bool _ b0); [|eauto].
  destruct (Hitem l 2%nat Hl Hn ltac:(lia)) as [b2 ->].
  destruct (Hitem l' 2%nat Hl' Hn' ltac:(lia)) as [p2 ->].
  destruct (Qle_bool b2 _); [|eauto].
  destruct (Hitem l 1%nat Hl Hn ltac:(lia)) as [b1 ->].
  destruct (Hitem l' 1%nat Hl' Hn' ltac:(lia)) as [p1 ->].
  destruct (Qle_bool _ b1); [|eauto].
  destruct (Hitem l 3%nat Hl Hn ltac:(lia)) as [b3 ->].
  destruct (Hitem l' 3%nat Hl' Hn' ltac:(lia)) as [p3 ->].
  destruct (Qle_bool b3 _); eauto.
Qed.

Lemma keep_component_total parents c :
  Forall well_formed parents -> well_formed c ->
  exists keep, keep_component parents c = Some keep.
Proof.
  intros Hps (m & s & l & -> & Hlabel & Hbox & Hlen & Hnum).
  unfold keep_component, obind. simpl. rewrite Hlabel, Hbox.
  destruct (contains "image" (lower s)); [eauto|].
  assert (H : exists b, nested_in_any (JObj m) (JArr l) parents = Some b).
  { induction Hps as [|p rest Hp Hrest IH]; cbn [nested_in_any]; [eauto|].
    destruct (json_eqb (JObj m) p); [exact IH|].
    destruct Hp as (m' & s' & l' & -> & _ & Hbox' & Hlen' & Hnum').
    cbn [box_of]. rewrite Hbox'. unfold obind at 1.
    destruct (is_nested_total l l' Hlen Hnum Hlen' Hnum') as [b ->].
    unfold obind at 1. destruct b; [eauto|exact IH]. }
  destruct H as [b ->]. eauto.
Qed.

(** C6: the nested-element filter is idempotent.  It returns for every
    list of components with a string label and a box of four numbers;
    and whenever it returns, filtering its output returns that output
    unchanged. *)
Theorem filter_idempotent :
  (forall components,
     Forall well_formed components ->
     exists out, filter_nested_elements components = Some out)
  /\ (forall components out,
        filter_nested_elements components = Some out ->
        filter_nested_elements out = Some out).
Proof.
  split.
  - intros components Hwf. unfold filter_nested_elements, obind.
    destruct (collect_parents_total components) as [parents Hp].
    { eapply Forall_impl; [|exact Hwf]. apply well_formed_label. }
    rewrite Hp.
    assert (Hps : Forall well_formed parents).
    { rewrite Forall_forall in *. intros p Hin.
      apply (collect_parents_spec _ _ Hp) in Hin. now apply Hwf. }
    clear Hp. induction Hwf as [|c rest Hc Hrest IH]; simpl; [eauto|].
    destruct (keep_component_total parents c Hps Hc) as [keep ->].
    destruct IH as [out ->]. simpl. eauto.
  - intros components out. unfold filter_nested_elements, obind.
    destruct (collect_parents components) as [parents|] eqn:Ep; [|discriminate].
    intro H. destruct (filter_loop_kept _ _ _ H) as [Hkept Hincl].
    destruct (collect_parents_total out) as [parents' Hp'].
    { eapply Forall_impl; [|exact Hkept]. intros c Hc.
      apply keep_component_true in Hc. destruct Hc as (label & _ & -> & _).
      discriminate. }
    rewrite Hp'. apply filter_loop_fixed.
    eapply Forall_impl; [|exact Hkept]. intros c.
    apply keep_component_mono. intros p Hin.
    apply (collect_parents_spec _ _ Hp') in Hin. destruct Hin as [Hin Hl].
    apply (collect_parents_spec _ _ Ep). split; [now apply Hincl|assumption].
Qed.

Lemma parser_elements_witness :
  standardize_item
    (JObj [("label", JStr "a"); ("box_2d", JArr [JNum 10; JNum 20; JNum 30; JNum 40])])
  = Returned (Some (JObj [("label", JStr "a");
                          ("box_percent",
                           JArr [JNum (20 / 10); JNum (10 / 10);
                                 JNum (40 / 10); JNum (30 / 10)])]))
  /\ standardize_item
       (JObj [("label", JStr "a"); ("box_2d", JArr [JNum 1; JNum 2])])
     = Returned None.
Proof.
  destruct parser_elements as (_ & _ & _ & _ & _ & Hdrop & Hconv & _). split.
  - apply Hconv; reflexivity.
  - apply Hdrop. intros k b [<-|[<-|[]]] Hb.
    + injection Hb as <-. exists [JNum 1; JNum 2]. split; [reflexivity|discriminate].
    + discriminate.
Defined.

Lemma filter_idempotent_witness :
  filter_nested_elements page_components
  = Some [nth 0 page_components JNull; nth 2 page_components JNull]
  /\ filter_nested_elements [nth 0 page_components JNull; nth 2 page_components JNull]
     = Some [nth 0 page_components JNull; nth 2 page_components JNull].
Proof.
  assert (E : filter_nested_elements page_components
              = Some [nth 0 page_components JNull; nth 2 page_components JNull])
    by (vm_compute; reflexivity).
  split; [exact E|].
  destruct filter_idempotent as [_ H]. exact (H _ _ E).
Defined.

End BboxFacts.
(** * Further properties *)

(** ** The detector and the segmenter at their edges *)

Module SegmentationProperties.
Import Segmentation SegmentationFacts.

(** A candidate found at row [i] of the scanned band lies between row 1
    and row [height - window_size - 2]. *)
Lemma scan_row_band img var_thr diff_thr portion_thr window_size i pos conf :
  In i (scan_range img window_size) ->
  scan_row img var_thr diff_thr portion_thr window_size i = Some (Some (pos, conf)) ->
  1 <= pos <= Z.of_nat (length img) - Z.of_nat window_size - 2.
Proof.
  unfold scan_range. rewrite in_seq. intros Hi H.
  unfold scan_row, obind in H.
  destruct (nth_error img (i - window_size - 1)); [|discriminate].
  destruct (nth_error img i); [|discriminate].
  destruct (window_first _); [|discriminate].
  destruct (window_last _); [|discriminate].
  destruct (_ && _); [|discriminate].
  injection H as Hpos _. subst pos.
  destruct (is_border _ _ _); lia.
Qed.

Lemma scan_rows_band img var_thr diff_thr portion_thr window_size rows cands :
  incl rows (scan_range img window_size) ->
  scan_rows img var_thr diff_thr portion_thr window_size rows = Some cands ->
  Forall (fun p => 1 <= p <= Z.of_nat (length img) - Z.of_nat window_size - 2)
         (map fst cands)
  /\ (length cands <= length rows)%nat.
Proof.
  revert cands. induction rows as [|i rest IH]; intros cands Hincl H; simpl in H.
  - injection H as <-. split; [constructor|apply le_n].
  - unfold obind in H.
    destruct (scan_row _ _ _ _ _ i) as [c|] eqn:Ec; [|discriminate].
    destruct (scan_rows _ _ _ _ _ rest) as [cs|] eqn:Ecs; [|discriminate].
    injection H as <-.
    destruct (IH cs) as [Hcs Hlen]; [intros x Hx; apply Hincl; now right|reflexivity|].
    destruct c as [[pos conf]|]; simpl.
    + split; [|lia]. constructor; [|assumption].
      eapply scan_row_band; [|exact Ec]. apply Hincl. now left.
    + split; [assumption|lia].
Qed.

Lemma select_lines_length cands d :
  (length (select_lines cands d) <= length cands)%nat.
Proof.
  assert (Hg : forall e sel cs, (length (greedy e sel cs) <= length sel + length cs)%nat).
  { intros e sel cs. revert sel. induction cs as [|[p c] t IH]; intro sel; simpl; [lia|].
    destruct (far_enough e p sel).
    - specialize (IH (sel ++ [p])). rewrite length_app in IH. simpl in IH. lia.
    - specialize (IH sel). lia. }
  unfold select_lines. destruct cands as [|c t]; [apply le_n|].
  set (cs := c :: t).
  pose proof (Permutation_length (sort_by_confidence_perm cs)) as Hs.
  destruct (3 <=? length (first_pass cs d))%nat.
  - unfold first_pass. rewrite <- (Permutation_length (sort_pos_perm _)).
    specialize (Hg d [] (sort_by_confidence cs)). cbn [length] in Hg. lia.
  - unfold second_pass. destruct (sort_by_confidence cs) as [|[top conf] rest].
    + apply Nat.le_0_l.
    + rewrite <- (Permutation_length (sort_pos_perm _)).
      specialize (Hg (d / 2) [top] rest). cbn [length] in Hg, Hs. lia.
Qed.

(** The head of the confidence order is among the selected lines in
    both passes. *)
Lemma select_lines_top cands d top conf rest :
  sort_by_confidence cands = (top, conf) :: rest ->
  In top (select_lines cands d).
Proof.
  intro E. unfold select_lines. destruct cands as [|c t]; [discriminate|].
  destruct (3 <=? length (first_pass (c :: t) d))%nat.
  - unfold first_pass. rewrite E.
    apply (Permutation_in _ (sort_pos_perm _)).
    simpl. apply greedy_keeps. now left.
  - unfold second_pass. rewrite E.
    apply (Permutation_in _ (sort_pos_perm _)).
    apply greedy_keeps. now left.
Qed.

(** The detector keeps its strongest candidate.  Whatever the minimum
    distance, the selection returns only candidate positions and never
    more lines than there are candidates; as soon as there is one
    candidate it returns at least one line, and the position of the
    candidate that heads the confidence order (the first of those with
    the highest confidence) is always among the lines. *)
Theorem selection_keeps_strongest (cands : list candidate) (min_line_distance : Z) :
  let result := select_lines cands min_line_distance in
  incl result (map fst cands)
  /\ (length result <= length cands)%nat
  /\ (cands <> [] ->
        result <> []
        /\ exists top conf rest,
             sort_by_confidence cands = (top, conf) :: rest
             /\ Forall (fun c => (snd c <= conf)%Q) cands
             /\ In top result).
Proof.
  cbv zeta. split; [|split].
  - intros p Hp. now apply select_lines_incl in Hp.
  - apply select_lines_length.
  - intro Hne. destruct cands as [|c t]; [congruence|].
    pose proof (sort_by_confidence_sorted (c :: t)) as Hs.
    pose proof (sort_by_confidence_perm (c :: t)) as Hp.
    destruct (sort_by_confidence (c :: t)) as [|[top conf] rest] eqn:E.
    { exfalso. now apply (sort_by_confidence_nonempty c t). }
    assert (Hin : In top (select_lines (c :: t) min_line_distance)).
    { eapply select_lines_top. exact E. }
    split.
    + intro Hnil. rewrite Hnil in Hin. destruct Hin.
    + exists top, conf, rest. split; [reflexivity|]. split; [|exact Hin].
      rewrite Forall_forall. intros x Hx.
      apply (Permutation_in _ Hp) in Hx. destruct Hx as [Hx|Hx].
      * subst x. simpl. apply Qle_refl.
      * inversion Hs as [|? ? _ Hall]; subst. rewrite Forall_forall in Hall.
        exact (Hall x Hx).
Qed.

Lemma selection_keeps_strongest_witness :
  four_candidates <> []
  /\ select_lines four_candidates 1000 <> []
  /\ In 150 (select_lines four_candidates 1000).
Proof.
  destruct (selection_keeps_strongest four_candidates 1000) as (_ & _ & H).
  assert (Hne : four_candidates <> []) by discriminate.
  destruct (H Hne) as (Hres & top & conf & rest & Hsorted & _ & Hin).
  split; [exact Hne|]. split; [exact Hres|].
  vm_compute in Hsorted. injection Hsorted as Htop _ _. subst top. exact Hin.
Defined.

(** The detector never places a line in the first row or in the last
    [window_size + 1] rows: every line it returns lies between row 1 and
    row [height - window_size - 2], and there are no more lines than
    scanned rows.  An image of at most [2 * window_size + 2] rows has no
    scanned row at all and yields the empty list, for every window size
    and every threshold. *)
Theorem detector_band (img : image) (var_thr diff_thr portion_thr : Q)
    (window_size : nat) (min_line_distance : Z) :
  let h := Z.of_nat (length img) in
  let run := separation_line_detection img var_thr diff_thr portion_thr
               window_size min_line_distance in
  (forall lines, run = Some lines ->
     Forall (fun p => 1 <= p <= h - Z.of_nat window_size - 2) lines
     /\ (length lines <= length (scan_range img window_size))%nat)
  /\ ((length img <= 2 * window_size + 2)%nat -> run = Some []).
Proof.
  cbv zeta. split.
  - intros lines. unfold separation_line_detection, obind, candidate_lines.
    destruct (scan_rows _ _ _ _ _ _) as [cands|] eqn:E; [|discriminate].
    intro H. injection H as <-.
    apply scan_rows_band in E; [|apply incl_refl]. destruct E as [Hband Hlen].
    split.
    + rewrite Forall_forall in *. intros p Hp. apply Hband.
      now apply select_lines_incl in Hp.
    + pose proof (select_lines_length cands
        (if min_line_distance <=? 0
         then percent_of 3 (Z.of_nat (length img)) else min_line_distance)).
      lia.
  - intro Hshort. unfold separation_line_detection, obind, candidate_lines, scan_range.
    replace (length img - window_size - 1 - (window_size + 1))%nat with 0%nat by lia.
    reflexivity.
Qed.

Lemma detector_band_witness :
  separation_line_detection (repeat [255; 0] 22) 80 40 (1#2) 10 0 = Some [].
Proof.
  apply (detector_band (repeat [255; 0] 22) 80 40 (1#2) 10 0).
  vm_compute. apply le_n.
Defined.

(** *** Images without vertical variation *)

Lemma sumZ_zeros (n : nat) : sumZ (repeat 0 n) = 0.
Proof. induction n as [|n IH]; [reflexivity|]. simpl. exact IH. Qed.

Lemma row_diff_same (r : row) : row_diff r r = repeat 0 (length r).
Proof.
  unfold row_diff, u8_abs. rewrite map_id.
  induction r as [|a t IH]; simpl; [reflexivity|].
  rewrite IH. f_equal. unfold u8_sub. now rewrite Z.sub_diag.
Qed.

Lemma is_border_same (r : row) (diff_thr portion_thr : Q) :
  (0 <= diff_thr)%Q -> is_border (row_diff r r) diff_thr portion_thr = false.
Proof.
  intro Hthr. unfold is_border. rewrite row_diff_same.
  replace (Qltb diff_thr (mean (repeat 0 (length r)))) with false; [reflexivity|].
  symmetry. apply Qltb_ge. unfold mean. rewrite sumZ_zeros.
  unfold Qdiv. rewrite Qmult_0_l. exact Hthr.
Qed.

Lemma nth_error_repeat_lt {A : Type} (a : A) (n k : nat) :
  (k < n)%nat -> nth_error (repeat a n) k = Some a.
Proof.
  revert k. induction n as [|n IH]; intros k Hk; [lia|].
  destruct k as [|k]; [reflexivity|]. simpl. apply IH. lia.
Qed.

Lemma skipn_repeat {A : Type} (a : A) (n k : nat) :
  skipn k (repeat a n) = repeat a (n - k).
Proof.
  revert k. induction n as [|n IH]; intro k; [now destruct k|].
  destruct k as [|k]; [reflexivity|]. simpl. apply IH.
Qed.

Lemma firstn_repeat {A : Type} (a : A) (n k : nat) :
  (k <= n)%nat -> firstn k (repeat a n) = repeat a k.
Proof.
  revert k. induction n as [|n IH]; intros k Hk.
  - replace k with 0%nat by lia. reflexivity.
  - destruct k as [|k]; [reflexivity|]. simpl. f_equal. apply IH. lia.
Qed.

Lemma rev_repeat {A : Type} (a : A) (n : nat) : rev (repeat a n) = repeat a n.
Proof.
  induction n as [|n IH]; [reflexivity|].
  simpl. rewrite IH. clear IH. induction n as [|n IH]; [reflexivity|].
  simpl. now rewrite IH.
Qed.

Lemma scan_row_uniform r n var_thr diff_thr portion_thr window_size i :
  (1 <= window_size)%nat -> (0 <= diff_thr)%Q ->
  In i (scan_range (repeat r n) window_size) ->
  scan_row (repeat r n) var_thr diff_thr portion_thr window_size i = Some None.
Proof.
  unfold scan_range. rewrite in_seq, repeat_length. intros Hw Hthr Hi.
  unfold scan_row, obind.
  rewrite !nth_error_repeat_lt by lia.
  rewrite skipn_repeat, firstn_repeat by lia.
  unfold window_first, window_last. rewrite rev_repeat.
  destruct window_size as [|w]; [lia|]. simpl hd_error. cbv beta iota.
  rewrite !is_border_same by assumption.
  now rewrite andb_false_r.
Qed.

Lemma scan_rows_uniform r n var_thr diff_thr portion_thr window_size rows :
  (1 <= window_size)%nat -> (0 <= diff_thr)%Q ->
  incl rows (scan_range (repeat r n) window_size) ->
  scan_rows (repeat r n) var_thr diff_thr portion_thr window_size rows = Some [].
Proof.
  intros Hw Hthr. induction rows as [|i rest IH]; intro Hincl; simpl; [reflexivity|].
  rewrite scan_row_uniform; [|assumption|assumption|apply Hincl; now left].
  rewrite IH; [reflexivity|]. intros x Hx. apply Hincl. now right.
Qed.

(** An image whose rows are all the same row (any width, any height, any
    intensities) has no separation line: with a window of at least one
    row and a non-negative difference threshold no row of it passes the
    border test, whatever the variance and portion thresholds and the
    minimum distance are. *)
Theorem uniform_image_has_no_line (r : row) (n : nat)
    (var_thr diff_thr portion_thr : Q) (window_size : nat) (min_line_distance : Z) :
  (1 <= window_size)%nat ->
  (0 <= diff_thr)%Q ->
  separation_line_detection (repeat r n) var_thr diff_thr portion_thr
    window_size min_line_distance = Some [].
Proof.
  intros Hw Hthr. unfold separation_line_detection, candidate_lines, obind.
  rewrite scan_rows_uniform; [reflexivity|assumption|assumption|apply incl_refl].
Qed.

Lemma uniform_image_has_no_line_witness :
  separation_line_detection (repeat [12; 200; 37] 40) 80 40 (1#2) 3 0 = Some [].
Proof.
  apply (uniform_image_has_no_line [12; 200; 37] 40 80 40 (1#2) 3 0).
  - apply le_S, le_S, le_n.
  - discriminate.
Defined.

(** *** The fusion stage *)

Lemma greedy_thr_none (thr : Q) (d : Z) (selected : list Z) (cands : list candidate) :
  Forall (fun c => (snd c < thr)%Q) cands ->
  greedy_thr thr d selected cands = selected.
Proof.
  induction 1 as [|[p c] t Hc _ IH]; simpl; [reflexivity|].
  simpl in Hc. apply Qltb_lt in Hc. now rewrite Hc.
Qed.

Lemma all_candidates_conf d lines_1 blank_regions color_regions :
  Forall (fun c => (snd c <= 9#10)%Q)
         (all_candidates d lines_1 blank_regions color_regions).
Proof.
  unfold all_candidates. rewrite !Forall_app, !Forall_map. repeat split;
    rewrite Forall_forall; intros x _; simpl;
    repeat match goal with |- context [if ?b then _ else _] => destruct b end;
    discriminate.
Qed.

(** A position that only the color detector reports, away from the
    other two signals, has confidence 0.6; every other candidate has at
    least 0.7. *)
Lemma all_candidates_sources d lines_1 blank_regions color_regions p c :
  In (p, c) (all_candidates d lines_1 blank_regions color_regions) ->
  (In p lines_1 /\ c = (8#10)%Q)
  \/ (In p blank_regions /\ (7#10 <= c)%Q)
  \/ (In p color_regions
      /\ ((near_any d p lines_1 = true /\ c = (9#10)%Q)
          \/ (near_any d p lines_1 = false /\ near_any d p blank_regions = true
              /\ c = (75#100)%Q)
          \/ (near_any d p lines_1 = false /\ near_any d p blank_regions = false
              /\ c = (6#10)%Q))).
Proof.
  unfold all_candidates. rewrite !in_app_iff, !in_map_iff.
  intros [(x & E & Hx)|[(x & E & Hx)|(x & E & Hx)]]; injection E as <- <-.
  - left. now split.
  - right. left. split; [assumption|].
    destruct (near_any d x lines_1); discriminate.
  - right. right. split; [assumption|].
    destruct (near_any d x lines_1); [now left|].
    destruct (near_any d x blank_regions); [right; left|right; right]; now repeat split.
Qed.

Lemma greedy_thr_conf (thr : Q) (d : Z) (cands : list candidate) (selected : list Z) p :
  In p (greedy_thr thr d selected cands) ->
  In p selected \/ exists c, In (p, c) cands /\ (thr <= c)%Q.
Proof.
  revert selected. induction cands as [|[q c] t IH]; intros selected Hin; simpl in *;
    [now left|].
  destruct (Qltb c thr) eqn:Ec.
  { apply IH in Hin. destruct Hin as [Hin|(c' & Hc' & Hle)]; [now left|].
    right. exists c'. split; [now right|assumption]. }
  apply Qltb_ge in Ec.
  destruct (far_enough d q selected).
  - apply IH in Hin. destruct Hin as [Hin|(c' & Hc' & Hle)].
    + apply in_app_or in Hin. destruct Hin as [Hin|[Hin|[]]]; [now left|].
      subst q. right. exists c. split; [now left|assumption].
    + right. exists c'. split; [now right|assumption].
  - apply IH in Hin. destruct Hin as [Hin|(c' & Hc' & Hle)]; [now left|].
    right. exists c'. split; [now right|assumption].
Qed.

(** The fusion stage invents no line and honours the confidence
    threshold.  Every line of the segmenter is a line of the detector or
    a value of one of the two external detectors.  With a threshold
    above 0.6 (the use case passes 0.7) a line is a detector line, a
    blank-region value, or a color value that lies within half the
    minimum distance of a detector line or of a blank-region value: a
    color transition that nothing else corroborates is never cut at.
    With a threshold above 0.9 no candidate qualifies, and the result is
    no line and the whole image as the single section. *)
Theorem fusion_threshold (img : image) (blank_regions color_regions : list Z)
    (confidence_threshold : Q) (min_line_distance : Z)
    (blank_var_thr blank_diff_thr blank_portion_thr : Q) (window_size : nat)
    (lines : list Z) (sections : list (Z * Z)) :
  let h := Z.of_nat (length img) in
  let d := effective_min_distance h min_line_distance in
  enhanced_image_segmentation img blank_regions color_regions
    confidence_threshold min_line_distance
    blank_var_thr blank_diff_thr blank_portion_thr window_size
  = Some (lines, sections) ->
  exists lines_1,
    separation_line_detection img blank_var_thr blank_diff_thr blank_portion_thr
      window_size d = Some lines_1
    /\ incl lines (lines_1 ++ blank_regions ++ color_regions)
    /\ ((6#10 < confidence_threshold)%Q ->
          forall p, In p lines ->
            In p lines_1 \/ In p blank_regions
            \/ (In p color_regions
                /\ near_any d p (lines_1 ++ blank_regions) = true))
    /\ ((9#10 < confidence_threshold)%Q ->
          lines = [] /\ sections = [(0, h)]).
Proof.
  cbv zeta. unfold enhanced_image_segmentation, obind.
  set (h := Z.of_nat (length img)).
  set (d := effective_min_distance h min_line_distance).
  destruct (separation_line_detection _ _ _ _ _ d) as [lines_1|] eqn:E1; [|discriminate].
  intro H. injection H as <- <-.
  exists lines_1. split; [reflexivity|].
  set (pool := all_candidates d lines_1 blank_regions color_regions).
  split; [|split].
  - intros p Hp.
    apply (Permutation_in _ (Permutation_sym (sort_pos_perm _))) in Hp.
    apply greedy_thr_incl in Hp. destruct Hp as [[]|Hp].
    apply (Permutation_in _ (Permutation_map fst
             (Permutation_sym (sort_by_confidence_perm _)))) in Hp.
    unfold pool in Hp. now rewrite all_candidates_positions in Hp.
  - intros Hthr p Hp.
    apply (Permutation_in _ (Permutation_sym (sort_pos_perm _))) in Hp.
    apply greedy_thr_conf in Hp. destruct Hp as [[]|(c & Hc & Hle)].
    apply (Permutation_in _ (Permutation_sym (sort_by_confidence_perm _))) in Hc.
    apply all_candidates_sources in Hc.
    destruct Hc as [[Hc _]|[[Hc _]|[Hc Hnear]]]; [now left|right; now left|].
    right. right. split; [assumption|].
    unfold near_any in *. rewrite existsb_app.
    destruct Hnear as [[-> _]|[(_ & -> & _)|(_ & _ & ->)]];
      [reflexivity|apply orb_true_r|].
    exfalso. apply (Qlt_irrefl (6#10)). eapply Qlt_le_trans; eassumption.
  - intro Hthr.
    assert (Hnone : greedy_thr confidence_threshold d [] (sort_by_confidence pool) = []).
    { apply greedy_thr_none. rewrite Forall_forall. intros c Hc.
      apply (Permutation_in _ (Permutation_sym (sort_by_confidence_perm _))) in Hc.
      pose proof (all_candidates_conf d lines_1 blank_regions color_regions) as Hall.
      rewrite Forall_forall in Hall. eapply Qle_lt_trans; [apply Hall, Hc|exact Hthr]. }
    rewrite Hnone. split; reflexivity.
Qed.

Lemma fusion_threshold_witness :
  enhanced_image_segmentation (repeat [255] 10) [5] [7] (95#100) 0 80 40 (1#2) 10
    = Some ([], [(0, 10)])
  /\ enhanced_image_segmentation (repeat [255] 10) [5] [7] (6#10) 0 80 40 (1#2) 10
    = Some ([5; 7], [(0, 5); (5, 7); (7, 10)])
  /\ incl [5; 7] ([] ++ [5] ++ [7]).
Proof.
  assert (E : enhanced_image_segmentation (repeat [255] 10) [5] [7] (6#10) 0
                80 40 (1#2) 10
              = Some ([5; 7], [(0, 5); (5, 7); (7, 10)]))
    by (vm_compute; reflexivity).
  split; [vm_compute; reflexivity|]. split; [exact E|].
  destruct (fusion_threshold _ _ _ _ _ _ _ _ _ _ _ E) as (lines_1 & Hdet & Hincl & _).
  vm_compute in Hdet. injection Hdet as <-. exact Hincl.
Defined.

(** *** Sections *)

Lemma adjacent_pairs_length (a : Z) (l : list Z) :
  length (adjacent_pairs (a :: l)) = length l.
Proof.
  revert a. induction l as [|b t IH]; intro a; [reflexivity|].
  rewrite adjacent_pairs_cons. cbn [length]. now rewrite IH.
Qed.

Lemma adjacent_pairs_heights (a : Z) (l : list Z) (b : Z) :
  sumZ (map (fun s => snd s - fst s) (adjacent_pairs (a :: l ++ [b]))) = b - a.
Proof.
  revert a. induction l as [|x t IH]; intro a.
  - simpl. lia.
  - rewrite <- app_comm_cons, adjacent_pairs_cons, map_cons.
    change (sumZ (?y :: ?m)) with (y + sumZ m). rewrite IH. simpl. lia.
Qed.

(** Sections are never missing and never lose a row: for an image of
    height [h] and any list of [k] lines (ordered or not, inside the
    image or not) there are exactly [k + 1] sections, so the list of
    sections is never empty, and the section heights [y_max - y_min]
    that the use case records add up to [h]. *)
Theorem sections_cover_height (img_height : Z) (lines : list Z) :
  let sections := get_content_sections img_height lines in
  length sections = S (length lines)
  /\ sections <> []
  /\ sumZ (map (fun s => snd s - fst s) sections) = img_height.
Proof.
  cbv zeta. unfold get_content_sections. simpl app.
  assert (Hlen : length (adjacent_pairs (0 :: lines ++ [img_height])) = S (length lines)).
  { rewrite adjacent_pairs_length, length_app. simpl. lia. }
  split; [exact Hlen|]. split.
  - intro H. rewrite H in Hlen. discriminate.
  - rewrite adjacent_pairs_heights. lia.
Qed.

End SegmentationProperties.


(** ** The parent search and the shape of the hierarchy *)

Module HierarchyProperties.
Import Tree Hierarchy HierarchyFacts HierarchyShape.

(** *** The parent search *)

(** The minimum splits the list: strictly larger areas before it, no
    smaller area after it. *)
Lemma min_by_area_split (best : nat * Element) (rest : list (nat * Element)) :
  exists l1 l2,
    best :: rest = l1 ++ min_by_area best rest :: l2
    /\ Forall (fun x => area_of (min_by_area best rest) < area_of x) l1
    /\ Forall (fun x => area_of (min_by_area best rest) <= area_of x) l2.
Proof.
  revert best. induction rest as [|p t IH]; intro best.
  - exists [], []. repeat split; constructor.
  - cbn [min_by_area]. fold (area_of p). fold (area_of best).
    destruct (Z.ltb_spec (area_of p) (area_of best)) as [Hlt|Hge].
    + destruct (IH p) as (l1 & l2 & E & H1 & H2).
      assert (Hp : area_of (min_by_area p t) <= area_of p).
      { assert (Hin : In p (l1 ++ min_by_area p t :: l2)) by (rewrite <- E; now left).
        rewrite Forall_forall in H1, H2.
        apply in_app_or in Hin. destruct Hin as [Hin|[Hin|Hin]].
        - specialize (H1 _ Hin). lia.
        - rewrite Hin. lia.
        - now apply H2. }
      exists (best :: l1), l2. split; [simpl; now rewrite E|].
      split; [|assumption]. constructor; [lia|assumption].
    + destruct (IH best) as (l1 & l2 & E & H1 & H2).
      destruct l1 as [|b l1'].
      * simpl in E. injection E as Eb Et.
        exists [], (p :: l2). split; [simpl; now rewrite <- Eb, <- Et|].
        split; [constructor|]. constructor; [rewrite <- Eb; lia|assumption].
      * simpl in E. injection E as Eb Et. subst b.
        exists (best :: p :: l1'), l2. split; [simpl; now rewrite <- Et|].
        split; [|assumption].
        inversion H1 as [|? ? Hb Hl]; subst.
        constructor; [assumption|]. constructor; [lia|assumption].
Qed.

Lemma enumerate_from_sorted {A : Type} (l : list A) (s : nat) :
  StronglySorted (fun a b : nat * A => (fst a < fst b)%nat) (enumerate_from s l)
  /\ Forall (fun a : nat * A => (s <= fst a)%nat) (enumerate_from s l).
Proof.
  revert s. induction l as [|x t IH]; intro s; simpl.
  - split; constructor.
  - destruct (IH (S s)) as [Hs Hf]. split.
    + constructor; [assumption|]. eapply Forall_impl; [|exact Hf].
      intros a Ha. simpl in *. lia.
    + constructor; [simpl; lia|]. eapply Forall_impl; [|exact Hf].
      intros a Ha. simpl in *. lia.
Qed.

Lemma StronglySorted_filter {A : Type} (R : A -> A -> Prop) (f : A -> bool) (l : list A) :
  StronglySorted R l -> StronglySorted R (filter f l).
Proof.
  induction 1 as [|a t Ht IH Ha]; simpl; [constructor|].
  destruct (f a); [|assumption].
  constructor; [assumption|].
  rewrite Forall_forall in *. intros x Hx. apply filter_In in Hx. now apply Ha.
Qed.

Lemma StronglySorted_after {A : Type} (R : A -> A -> Prop) (l1 l2 : list A) (m : A) :
  StronglySorted R (l1 ++ m :: l2) -> Forall (R m) l2.
Proof.
  induction l1 as [|a t IH]; simpl; intro H; inversion H; subst; auto.
Qed.

(** The parent of an element is the smallest box that contains it: a
    parent that is found is another element, its box contains the
    element's box within the margin, no other containing element has a
    smaller area, and among the containing elements of the same area it
    is the one that comes first in the list.  No parent is found exactly
    when no other element contains the element. *)
Theorem parent_is_smallest_container (i : nat) (elements : list Element) :
  match _find_parent_index i elements with
  | Some p =>
      exists e ep,
        nth_error elements i = Some e /\ nth_error elements p = Some ep
        /\ p <> i /\ _is_contained_within (bbox e) (bbox ep) = true
        /\ forall k ek, nth_error elements k = Some ek -> k <> i ->
             _is_contained_within (bbox e) (bbox ek) = true ->
             calculate_area (bbox ep) <= calculate_area (bbox ek)
             /\ (calculate_area (bbox ek) = calculate_area (bbox ep) -> (p <= k)%nat)
  | None =>
      forall e k ek, nth_error elements i = Some e ->
        nth_error elements k = Some ek -> k <> i ->
        _is_contained_within (bbox e) (bbox ek) = false
  end.
Proof.
  destruct (_find_parent_index i elements) as [p|] eqn:Ef.
  - destruct (find_parent_sound _ _ _ Ef) as (e & ep & He & Hep & Hpi & Hc).
    exists e, ep. repeat (split; [assumption|]).
    intros k ek Hk Hki Hck.
    unfold _find_parent_index in Ef. rewrite He in Ef.
    set (keep := fun p : nat * Element =>
           negb (fst p =? i)%nat && _is_contained_within (bbox e) (bbox (snd p))) in Ef.
    destruct (filter keep (enumerate elements)) as [|q t] eqn:Ec; [discriminate|].
    injection Ef as Ep.
    destruct (min_by_area_split q t) as (l1 & l2 & E & H1 & H2).
    assert (Hm : min_by_area q t = (p, ep)).
    { assert (Hin : In (min_by_area q t) (filter keep (enumerate elements))).
      { rewrite Ec. apply min_by_area_in. }
      apply filter_In in Hin. destruct Hin as [Hin _].
      destruct (min_by_area q t) as [p' ep']. simpl in Ep. subst p'.
      apply enumerate_nth in Hin. congruence. }
    rewrite Hm in *.
    assert (Hin : In (k, ek) (l1 ++ (p, ep) :: l2)).
    { rewrite <- E, <- Ec. apply filter_In. split; [now apply enumerate_nth|].
      unfold keep. simpl. rewrite Hck. apply Nat.eqb_neq in Hki. now rewrite Hki. }
    assert (Hsorted : StronglySorted (fun a b : nat * Element => (fst a < fst b)%nat)
                        (l1 ++ (p, ep) :: l2)).
    { rewrite <- E, <- Ec. apply StronglySorted_filter, enumerate_from_sorted. }
    apply StronglySorted_after in Hsorted.
    rewrite Forall_forall in H1, H2, Hsorted. unfold area_of in H1, H2. simpl in H1, H2.
    apply in_app_or in Hin. destruct Hin as [Hin|[Hin|Hin]].
    + specialize (H1 _ Hin). simpl in H1. split; lia.
    + injection Hin as <- <-. split; [lia|intros _; apply le_n].
    + specialize (H2 _ Hin). specialize (Hsorted _ Hin). simpl in *. split; lia.
  - intros e k ek He Hk Hki.
    destruct (_is_contained_within (bbox e) (bbox ek)) eqn:Hc; [|reflexivity].
    exfalso. exact (find_parent_complete i k elements e ek He Hk Hki Hc Ef).
Qed.

Lemma parent_is_smallest_container_witness :
  calculate_area {| box_y_min := 100; box_x_min := 100; box_y_max := 900; box_x_max := 900 |}
  <= calculate_area {| box_y_min := 0; box_x_min := 0; box_y_max := 1000; box_x_max := 1000 |}.
Proof.
  pose proof (parent_is_smallest_container 2 nested_three) as H.
  assert (E : _find_parent_index 2 nested_three = Some 1%nat) by (vm_compute; reflexivity).
  rewrite E in H. destruct H as (e & ep & He & Hep & _ & _ & Hleast).
  injection He as <-. injection Hep as <-.
  refine (proj1 (Hleast 0%nat _ eq_refl _ _)); [discriminate|vm_compute; reflexivity].
Defined.

(** *** No child is listed twice *)

Lemma link_step_nodup input k t ms :
  table_inv input k t -> (k < length input)%nat ->
  children_nodup t -> children_nodup (fst (link_step (t, ms) k)).
Proof.
  intros Hinv Hk Hnd. pose proof (table_inv_length _ _ _ Hinv) as Hlen.
  unfold link_step.
  destruct (nth_error t k) as [component|] eqn:Ek; [|exact Hnd].
  destruct (_find_parent_index k (map original_data t)) as [p|] eqn:Ef; simpl;
    [|exact Hnd].
  intros q comp H.
  apply update_nth_inv in H. destruct H as (c1 & H & ->).
  apply update_nth_inv in H. destruct H as (c0 & H & ->).
  assert (Hc1 : children_indices (if (k =? q)%nat then set_parent p c0 else c0)
                = children_indices c0) by (now destruct (k =? q)%nat).
  destruct (p =? q)%nat; [|rewrite Hc1; exact (Hnd _ _ H)].
  simpl. rewrite Hc1. apply NoDup_app; [exact (Hnd _ _ H)|repeat constructor; intros []|].
  intros c Hc [<-|[]].
  destruct (inv_children _ _ _ Hinv _ _ _ H Hc) as [Hlt _]. lia.
Qed.

Lemma link_fold_nodup input m : forall k t ms,
  (k + m = length input)%nat -> table_inv input k t -> children_nodup t ->
  children_nodup (fst (fold_left link_step (seq k m) (t, ms))).
Proof.
  induction m as [|m IH]; intros k t ms Hkm Hinv Hnd; cbn [seq fold_left];
    [exact Hnd|].
  pose proof (link_step_inv input k t ms Hinv ltac:(lia)) as Hstep.
  pose proof (link_step_nodup input k t ms Hinv ltac:(lia) Hnd) as Hstep'.
  destruct (link_step (t, ms) k) as [t' ms']. simpl in Hstep, Hstep'.
  apply IH; [lia|assumption|assumption].
Qed.

Lemma media_step_nodup image t m i :
  children_nodup t -> children_nodup (fst (media_step image (t, m) i)).
Proof.
  intro Hnd. unfold media_step.
  destruct (nth_error t i) as [media|]; [|exact Hnd].
  destruct (media_file _ _ _); [|exact Hnd].
  destruct (parent_index media) as [p|]; [|exact Hnd].
  simpl. intros q comp H. apply update_nth_inv in H. destruct H as (c0 & H & ->).
  specialize (Hnd _ _ H). now destruct (p =? q)%nat.
Qed.

Lemma media_fold_nodup image ms : forall t m,
  children_nodup t -> children_nodup (fst (fold_left (media_step image) ms (t, m))).
Proof.
  induction ms as [|i ms IH]; intros t m Hnd; cbn [fold_left]; [assumption|].
  pose proof (media_step_nodup image t m i Hnd) as Hstep.
  destruct (media_step image (t, m) i) as [t' m']. now apply IH.
Qed.

Lemma component_table_nodup input image :
  children_nodup (fst (component_table input image)).
Proof.
  unfold component_table.
  assert (Hnd : children_nodup (fst (link_all (initial_components input)))).
  { unfold link_all. pose proof (initial_components_inv input) as Hinv.
    rewrite (table_inv_length _ _ _ Hinv).
    apply (link_fold_nodup input); [reflexivity|assumption|].
    intros p comp H. destruct Hinv as [_ _ _ Hc].
    destruct (children_indices comp) as [|c l] eqn:E; [constructor|].
    destruct (Hc p comp c H) as [Hlt _]; [rewrite E; now left|lia]. }
  destruct (link_all (initial_components input)) as [t ms].
  now apply media_fold_nodup.
Qed.

(** *** Lists built by a function that may fail *)

Lemma omap_list_map {A B C : Type} (f : A -> option B) (h : B -> C) (k : A -> C)
    (l : list A) (bs : list B) :
  omap_list f l = Some bs ->
  (forall a b, In a l -> f a = Some b -> h b = k a) ->
  map h bs = map k l.
Proof.
  revert bs. induction l as [|a t IH]; intros bs H Hk; simpl in H.
  - now injection H as <-.
  - unfold obind in H. destruct (f a) as [b|] eqn:Ea; [|discriminate].
    destruct (omap_list f t) as [bs'|]; [|discriminate].
    injection H as <-. simpl. f_equal.
    + apply Hk; [now left|assumption].
    + apply IH; [reflexivity|]. intros a' b' Ha'. apply Hk. now right.
Qed.

Lemma omap_list_flat_nodup {A B C : Type} (f : A -> option B) (g : B -> list C)
    (l : list A) (bs : list B) :
  omap_list f l = Some bs ->
  NoDup l ->
  (forall a b, In a l -> f a = Some b -> NoDup (g b)) ->
  (forall a a' b b' s, In a l -> In a' l -> f a = Some b -> f a' = Some b' ->
     In s (g b) -> In s (g b') -> a = a') ->
  NoDup (flat_map g bs).
Proof.
  revert bs. induction l as [|a t IH]; intros bs H Hnd Hg Hdisj; simpl in H.
  - injection H as <-. constructor.
  - unfold obind in H. destruct (f a) as [b|] eqn:Ea; [|discriminate].
    destruct (omap_list f t) as [bs'|] eqn:Et; [|discriminate].
    injection H as <-. simpl. inversion Hnd as [|? ? Hnotin Hnd']; subst.
    apply NoDup_app.
    + apply (Hg a); [now left|assumption].
    + apply (IH bs' eq_refl Hnd').
      * intros a' b' Ha'. apply Hg. now right.
      * intros a1 a2 b1 b2 s H1 H2. apply Hdisj; now right.
    + intros s Hs Hs'. apply in_flat_map in Hs'. destruct Hs' as (b' & Hb' & Hs').
      destruct (omap_list_in _ _ _ Et) as [Hin _].
      destruct (Hin _ Hb') as (a' & Ha' & Hfa').
      assert (a = a').
      { apply (Hdisj a a' b b' s); auto; [now left|now right]. }
      subst a'. contradiction.
Qed.

Lemma NoDup_map_inj {A B : Type} (f : A -> B) (l : list A) :
  (forall a b, f a = f b -> a = b) -> NoDup l -> NoDup (map f l).
Proof.
  intros Hinj. induction 1 as [|a t Ha Ht IH]; simpl; constructor; [|assumption].
  intro Hin. apply in_map_iff in Hin. destruct Hin as (b & Hb & Hin).
  apply Hinj in Hb. now subst b.
Qed.

(** *** What a node holds *)

Lemma build_copies input table tracking :
  table_inv input (length input) table ->
  forall fuel i node,
  _build_component_structure fuel table tracking i = Some node ->
  exists comp,
    nth_error table i = Some comp
    /\ copies i (original_data comp) node
    /\ omap_list (_build_component_structure (pred fuel) table tracking)
         (structural_children comp) = Some (children_or_empty node).
Proof.
  intros Hinv fuel i node H. destruct fuel as [|fuel]; [discriminate|].
  simpl in H. unfold obind in H.
  destruct (nth_error table i) as [comp|] eqn:Ei; [|discriminate].
  destruct (omap_list _ (structural_children comp)) as [kids|] eqn:Ek; [|discriminate].
  injection H as <-. exists comp. split; [reflexivity|]. split; [|exact Ek].
  unfold copies. simpl. rewrite (inv_ids _ _ _ Hinv _ _ Ei).
  repeat split. eexists. split; [reflexivity|]. simpl. repeat split.
Qed.

(** *** Subtrees do not meet *)

Section Subtrees.

Variable input : list Element.
Variable table : list CompRec.
Variable tracking : tracking_map.
Hypothesis Hinv : table_inv input (length input) table.
Hypothesis Hnd : children_nodup table.

Local Abbreviation child_of := (Hierarchy.child_of table).
Local Abbreviation at_depth := (Hierarchy.at_depth table).
Local Abbreviation under := (Hierarchy.under table).

Lemma under_depth p x : under p x -> forall d, at_depth d p ->
  exists k, at_depth (d + k) x.
Proof.
  induction 1 as [i|p c x Hc Hu IH]; intros d Hd.
  - exists 0%nat. now rewrite Nat.add_0_r.
  - destruct (IH (S d)) as [k Hk]; [econstructor; eassumption|].
    exists (S k). now rewrite Nat.add_succ_r.
Qed.

Lemma under_last p x : under p x -> p = x \/ exists y, under p y /\ child_of y x.
Proof.
  induction 1 as [i|p c x Hc Hu IH]; [now left|]. right.
  destruct IH as [->|(y & Hy & Hyx)].
  - exists p. split; [constructor|assumption].
  - exists y. split; [econstructor; eassumption|assumption].
Qed.

Lemma child_of_same_parent p q c : child_of p c -> child_of q c -> p = q.
Proof.
  intros Hp Hq.
  apply (child_of_parent input table Hinv) in Hp, Hq.
  destruct Hp as (cc & Hcc & Hpar). destruct Hq as (cc' & Hcc' & Hpar'). congruence.
Qed.

(** Two components of the same depth with a common descendant are the
    same component. *)
Lemma under_same_depth k : forall x c1 c2 e,
  at_depth e c1 -> at_depth e c2 -> at_depth (e + k) x ->
  under c1 x -> under c2 x -> c1 = c2.
Proof.
  induction k as [|k IH]; intros x c1 c2 e H1 H2 Hx Hu1 Hu2.
  - rewrite Nat.add_0_r in Hx.
    assert (Hself : forall c, at_depth e c -> under c x -> c = x).
    { intros c Hc Hu. destruct (under_last _ _ Hu) as [->|(y & Hy & Hyx)]; [reflexivity|].
      destruct (under_depth _ _ Hy _ Hc) as [j Hj].
      assert (Hd : at_depth (S (e + j)) x) by (econstructor; eassumption).
      pose proof (at_depth_unique input table Hinv _ _ Hx _ Hd). lia. }
    rewrite (Hself c1 H1 Hu1), (Hself c2 H2 Hu2). reflexivity.
  - assert (Hup : forall c, at_depth e c -> under c x ->
              exists y, under c y /\ child_of y x /\ at_depth (e + k) y).
    { intros c Hc Hu. destruct (under_last _ _ Hu) as [->|(y & Hy & Hyx)].
      - pose proof (at_depth_unique input table Hinv _ _ Hx _ Hc). lia.
      - exists y. split; [assumption|]. split; [assumption|].
        destruct (under_depth _ _ Hy _ Hc) as [j Hj].
        assert (Hd : at_depth (S (e + j)) x) by (econstructor; eassumption).
        pose proof (at_depth_unique input table Hinv _ _ Hx _ Hd) as Heq.
        replace (e + k)%nat with (e + j)%nat by lia. exact Hj. }
    destruct (Hup c1 H1 Hu1) as (y1 & Hy1 & Hc1 & Hd1).
    destruct (Hup c2 H2 Hu2) as (y2 & Hy2 & Hc2 & Hd2).
    assert (y1 = y2) by (eapply child_of_same_parent; eassumption). subst y2.
    exact (IH y1 c1 c2 e H1 H2 Hd1 Hy1 Hy2).
Qed.

Lemma under_same_depth_any x c1 c2 e :
  at_depth e c1 -> at_depth e c2 -> under c1 x -> under c2 x -> c1 = c2.
Proof.
  intros H1 H2 Hu1 Hu2. destruct (under_depth _ _ Hu1 _ H1) as [k Hk].
  exact (under_same_depth k x c1 c2 e H1 H2 Hk Hu1 Hu2).
Qed.

Lemma structural_children_nodup comp p :
  nth_error table p = Some comp -> NoDup (structural_children comp).
Proof. intro H. apply NoDup_filter. exact (Hnd _ _ H). Qed.

Lemma build_nodup fuel : forall d i node,
  at_depth d i ->
  _build_component_structure fuel table tracking i = Some node ->
  NoDup (node_ids node).
Proof.
  induction fuel as [|fuel IH]; intros d i node Hd H; [discriminate|].
  pose proof H as Hbuild.
  simpl in H. unfold obind in H.
  destruct (nth_error table i) as [comp|] eqn:Ei; [|discriminate].
  destruct (omap_list _ (structural_children comp)) as [kids|] eqn:Ek; [|discriminate].
  injection H as <-. cbn [node_ids children].
  assert (Hchild : forall c, In c (structural_children comp) -> at_depth (S d) c).
  { intros c Hc. econstructor; [exact Hd|]. exists comp. auto. }
  constructor.
  - intro Hin. apply in_flat_map in Hin. destruct Hin as (kid & Hkid & Hs).
    destruct (omap_list_in _ _ _ Ek) as [Hk1 _].
    destruct (Hk1 _ Hkid) as (c & Hc & Hb).
    apply (build_ids input table tracking Hinv _ _ _ Hb) in Hs.
    destruct Hs as (x & Hx & Hid).
    rewrite (inv_ids _ _ _ Hinv _ _ Ei) in Hid.
    assert (Hix : make_id i = make_id x) by congruence.
    apply make_id_inj in Hix. subst x.
    destruct (under_depth _ _ Hx _ (Hchild c Hc)) as [k Hk].
    pose proof (at_depth_unique input table Hinv _ _ Hd _ Hk). lia.
  - apply (omap_list_flat_nodup _ _ _ _ Ek).
    + exact (structural_children_nodup comp i Ei).
    + intros c kid Hc Hb. exact (IH (S d) c kid (Hchild c Hc) Hb).
    + intros c c' kid kid' s Hc Hc' Hb Hb' Hs Hs'.
      apply (build_ids input table tracking Hinv _ _ _ Hb) in Hs.
      apply (build_ids input table tracking Hinv _ _ _ Hb') in Hs'.
      destruct Hs as (x & Hx & ->). destruct Hs' as (x' & Hx' & Hid).
      assert (Hxx : make_id x = make_id x') by congruence.
      apply make_id_inj in Hxx. subst x'.
      exact (under_same_depth_any x c c' (S d) (Hchild c Hc) (Hchild c' Hc') Hx Hx').
Qed.

End Subtrees.

(** No component occurs twice.  The top-level keys of the hierarchy
    are the ids of the parentless components, in input order; each key
    is the id of the node it maps to; no key is repeated, so that the
    dictionary of the source holds one entry per root; and no id occurs
    at two nodes of the hierarchy, however the boxes nest. *)
Theorem hierarchy_has_no_duplicates (input : list Element) (image : option ImageInfo)
    (forest : Forest) :
  convert_json_structure input image = Some forest ->
  map fst forest = map make_id (root_indices (fst (component_table input image)))
  /\ Forall (fun e => id (snd e) = Some (fst e)) forest
  /\ NoDup (map fst forest)
  /\ NoDup (forest_ids forest).
Proof.
  unfold convert_json_structure.
  pose proof (component_table_inv input image) as Hinv.
  pose proof (component_table_nodup input image) as Hnd.
  destruct (component_table input image) as [table tracking]. simpl in Hinv, Hnd. simpl fst.
  set (entry := fun idx : nat =>
         comp <- nth_error table idx ;;
         node <- _build_component_structure (length table) table tracking idx ;;
         Some (comp_id comp, node)).
  intro Hf.
  assert (Hentry : forall r e, entry r = Some e ->
            exists comp, nth_error table r = Some comp
              /\ _build_component_structure (length table) table tracking r = Some (snd e)
              /\ fst e = make_id r).
  { intros r e He. unfold entry, obind in He.
    destruct (nth_error table r) as [comp|] eqn:Er; [|discriminate].
    destruct (_build_component_structure _ _ _ r) as [node|]; [|discriminate].
    injection He as <-. exists comp. repeat split.
    exact (inv_ids _ _ _ Hinv _ _ Er). }
  assert (Hroot : forall r, In r (root_indices table) -> at_depth table 0 r).
  { intros r Hr. apply root_indices_spec in Hr. destruct Hr as (comp & Hr & Hp).
    econstructor; eassumption. }
  assert (Hkeys : map fst forest = map make_id (root_indices table)).
  { apply (omap_list_map _ _ _ _ _ Hf). intros r e _ He.
    now destruct (Hentry r e He) as (_ & _ & _ & ->). }
  split; [exact Hkeys|]. split; [|split].
  - rewrite Forall_forall. intros e He.
    destruct (omap_list_in _ _ _ Hf) as [Hf1 _].
    destruct (Hf1 _ He) as (r & Hr & Her).
    destruct (Hentry r e Her) as (comp & Hcomp & Hb & ->).
    destruct (build_copies input table tracking Hinv _ _ _ Hb) as (c & _ & Hcopy & _).
    exact (proj1 Hcopy).
  - rewrite Hkeys. apply NoDup_map_inj; [exact make_id_inj|].
    apply NoDup_filter, seq_NoDup.
  - unfold forest_ids. apply (omap_list_flat_nodup _ _ _ _ Hf).
    + apply NoDup_filter, seq_NoDup.
    + intros r e Hr He. destruct (Hentry r e He) as (comp & _ & Hb & _).
      exact (build_nodup input table tracking Hinv Hnd _ 0 r _ (Hroot r Hr) Hb).
    + intros r r' e e' s Hr Hr' He He' Hs Hs'.
      destruct (Hentry r e He) as (comp & _ & Hb & _).
      destruct (Hentry r' e' He') as (comp' & _ & Hb' & _).
      apply (build_ids input table tracking Hinv _ _ _ Hb) in Hs.
      apply (build_ids input table tracking Hinv _ _ _ Hb') in Hs'.
      destruct Hs as (x & Hx & ->). destruct Hs' as (x' & Hx' & Hid).
      assert (Hxx : make_id x = make_id x') by congruence.
      apply make_id_inj in Hxx. subst x'.
      exact (under_same_depth_any input table Hinv x r r' 0 (Hroot r Hr) (Hroot r' Hr')
               Hx Hx').
Qed.

Lemma hierarchy_has_no_duplicates_witness :
  (map fst two_regions_forest = ["comp_1"; "comp_3"]
   /\ forest_ids two_regions_forest
      = map Some ["comp_1"; "comp_2"; "comp_3"; "comp_4"; "comp_5"])
  /\ Forall (fun e => id (snd e) = Some (fst e)) two_regions_forest
  /\ NoDup (map fst two_regions_forest)
  /\ NoDup (forest_ids two_regions_forest).
Proof.
  split; [split; vm_compute; reflexivity|].
  refine (proj2 (hierarchy_has_no_duplicates two_regions None two_regions_forest _)).
  vm_compute. reflexivity.
Defined.

(** *** Every node is built from one element *)

Lemma nodes_unfold (c : Component) :
  nodes c = c :: flat_map nodes (children_or_empty c).
Proof.
  destruct c as [i t co [[dt dx ct [l|] st ly]|]]; simpl; try reflexivity.
Qed.

Lemma build_nodes table tracking fuel : forall i node,
  _build_component_structure fuel table tracking i = Some node ->
  (forall n, In n (nodes node) ->
     exists x fuel', under table i x
       /\ _build_component_structure fuel' table tracking x = Some n)
  /\ (forall n, In n (flat_map nodes (children_or_empty node)) ->
     exists c x fuel', child_of table i c /\ under table c x
       /\ _build_component_structure fuel' table tracking x = Some n).
Proof.
  induction fuel as [|fuel IH]; intros i node H; [discriminate|].
  pose proof H as Hbuild.
  simpl in H. unfold obind in H.
  destruct (nth_error table i) as [comp|] eqn:Ei; [|discriminate].
  destruct (omap_list _ (structural_children comp)) as [kids|] eqn:Ek; [|discriminate].
  assert (Hkids : children_or_empty node = kids) by (now injection H as <-).
  clear H.
  assert (Hinner : forall n, In n (flat_map nodes (children_or_empty node)) ->
            exists c x fuel', child_of table i c /\ under table c x
              /\ _build_component_structure fuel' table tracking x = Some n).
  { intros n Hn. rewrite Hkids in Hn.
    apply in_flat_map in Hn. destruct Hn as (kid & Hkid & Hn).
    destruct (omap_list_in _ _ _ Ek) as [Hk1 _].
    destruct (Hk1 _ Hkid) as (c & Hc & Hb).
    destruct (IH _ _ Hb) as [Hall _].
    destruct (Hall _ Hn) as (x & fuel' & Hx & Hbx).
    exists c, x, fuel'. split; [exists comp; auto|]. split; assumption. }
  split; [|exact Hinner].
  intros n Hn. rewrite nodes_unfold in Hn. destruct Hn as [<-|Hn].
  - exists i, (S fuel). split; [constructor|exact Hbuild].
  - destruct (Hinner _ Hn) as (c & x & fuel' & Hc & Hx & Hbx).
    exists x, fuel'. split; [econstructor; eassumption|assumption].
Qed.

Lemma table_original input k table i comp :
  table_inv input k table -> nth_error table i = Some comp ->
  nth_error input i = Some (original_data comp).
Proof.
  intros Hinv H. rewrite <- (inv_originals _ _ _ Hinv), nth_error_map, H. reflexivity.
Qed.

Lemma convert_entries input image forest :
  convert_json_structure input image = Some forest ->
  forall e, In e forest ->
    exists r, In r (root_indices (fst (component_table input image)))
      /\ fst e = make_id r
      /\ _build_component_structure
           (length (fst (component_table input image)))
           (fst (component_table input image))
           (snd (component_table input image)) r = Some (snd e).
Proof.
  unfold convert_json_structure.
  destruct (component_table input image) as [table tracking] eqn:Et. simpl.
  intros Hf e He. destruct (omap_list_in _ _ _ Hf) as [Hf1 _].
  destruct (Hf1 _ He) as (r & Hr & Her). exists r. split; [assumption|].
  unfold obind in Her.
  destruct (nth_error table r) as [comp|] eqn:Er; [|discriminate].
  destruct (_build_component_structure _ _ _ r) as [node|]; [|discriminate].
  injection Her as <-. split; [|reflexivity]. simpl.
  pose proof (component_table_inv input image) as Hinv. rewrite Et in Hinv.
  exact (inv_ids _ _ _ Hinv _ _ Er).
Qed.

Lemma convert_total input image :
  exists forest, convert_json_structure input image = Some forest.
Proof.
  unfold convert_json_structure.
  pose proof (component_table_inv input image) as Hinv.
  destruct (component_table input image) as [table tracking]. simpl in Hinv.
  pose proof (table_inv_length _ _ _ Hinv) as Hlen.
  apply omap_list_total. intros r Hr.
  apply root_indices_spec in Hr. destruct Hr as (comp & Hr & Hp).
  destruct (build_total input table tracking Hinv (length table) 0 r) as [node Hn].
  - econstructor; eassumption.
  - lia.
  - unfold obind. rewrite Hr, Hn. eauto.
Qed.

(** Every node of the hierarchy, at any depth, is built from one input
    element: its id is [comp_<position + 1>], its type is the element's
    label, its coordinates are the element's box, its description holds
    the element's description and text (empty when absent) and carries
    no styles and no layout yet; and the ids of its children are, in
    order, the ids of the structural children of its row in the table. *)
Theorem nodes_copy_their_elements (input : list Element) (image : option ImageInfo)
    (forest : Forest) :
  convert_json_structure input image = Some forest ->
  Forall (fun node =>
            exists i e comp,
              nth_error input i = Some e
              /\ nth_error (fst (component_table input image)) i = Some comp
              /\ copies i e node
              /\ map id (children_or_empty node)
                 = map (fun c => Some (make_id c)) (structural_children comp))
         (forest_nodes forest).
Proof.
  intro Hf. rewrite Forall_forall. intros n Hn.
  unfold forest_nodes in Hn. apply in_flat_map in Hn. destruct Hn as (e & He & Hn).
  destruct (convert_entries _ _ _ Hf e He) as (r & _ & _ & Hb).
  pose proof (component_table_inv input image) as Hinv.
  destruct (component_table input image) as [table tracking]. simpl in *.
  destruct (build_nodes _ _ _ _ _ Hb) as [Hall _].
  destruct (Hall _ Hn) as (x & fuel' & _ & Hbx).
  destruct (build_copies input table tracking Hinv _ _ _ Hbx) as (comp & Hx & Hcopy & Hkids).
  exists x, (original_data comp), comp.
  split; [exact (table_original _ _ _ _ _ Hinv Hx)|]. split; [assumption|].
  split; [assumption|].
  apply (omap_list_map _ _ _ _ _ Hkids). intros c kid _ Hkid.
  destruct (build_copies input table tracking Hinv _ _ _ Hkid) as (cc & _ & Hc & _).
  exact (proj1 Hc).
Qed.

Lemma nodes_copy_their_elements_witness :
  Forall (fun node => exists t, type node = Some t)
    (forest_nodes
       [("comp_1", MkComponent (Some "comp_1") (Some "button")
                     (Some {| y1 := Some 10; x1 := Some 10;
                              y2 := Some 60; x2 := Some 200 |})
                     (Some {| description_type := "button"; description_text := "";
                              content := Some {| text := ""; media := Some [] |};
                              children := Some []; styles := None;
                              layout := None |}))]).
Proof.
  eapply Forall_impl; [|apply (nodes_copy_their_elements [twin_button] None);
                         vm_compute; reflexivity].
  intros node (i & e & comp & _ & _ & Hcopy & _).
  exists (label e). exact (proj1 (proj2 Hcopy)).
Defined.

(** *** Input without containment *)

Lemma filter_keeps_all {A : Type} (keep : A -> bool) (l : list A) :
  forallb keep l = true -> filter keep l = l.
Proof.
  induction l as [|a t IH]; simpl; [reflexivity|].
  intro H. apply andb_true_iff in H. destruct H as [Ha Ht].
  rewrite Ha. f_equal. now apply IH.
Qed.

(** When no box of the input lies within another one (margin
    included), the hierarchy is flat: it is built, it has one top-level
    entry per input element, in input order, and no entry has a child. *)
Theorem flat_input_gives_flat_hierarchy (input : list Element) (image : option ImageInfo) :
  (forall i j ei ej, i <> j ->
     nth_error input i = Some ei -> nth_error input j = Some ej ->
     _is_contained_within (bbox ei) (bbox ej) = false) ->
  exists forest,
    convert_json_structure input image = Some forest
    /\ map fst forest = map make_id (seq 0 (length input))
    /\ Forall (fun e => children_or_empty (snd e) = []) forest.
Proof.
  intro Hflat. destruct (convert_total input image) as [forest Hf].
  exists forest. split; [exact Hf|].
  pose proof (convert_entries _ _ _ Hf) as Hentries.
  pose proof (component_table_inv input image) as Hinv.
  assert (Hnone : forall i, _find_parent_index i input = None).
  { intro i. destruct (_find_parent_index i input) as [p|] eqn:Ef; [|reflexivity].
    destruct (find_parent_sound _ _ _ Ef) as (e & ep & He & Hep & Hpi & Hc).
    rewrite (Hflat i p e ep) in Hc; [discriminate| |assumption|assumption].
    congruence. }
  split.
  - unfold convert_json_structure in Hf.
    destruct (component_table input image) as [table tracking]. simpl in Hinv.
    rewrite (omap_list_map _ fst make_id _ _ Hf).
    + f_equal. unfold root_indices.
      rewrite (table_inv_length _ _ _ Hinv).
      apply filter_keeps_all, forallb_forall. intros i Hi. apply in_seq in Hi.
      destruct (nth_error table i) as [comp|] eqn:Ei.
      * rewrite (inv_parent _ _ _ Hinv _ _ Ei), Hnone.
        now destruct (i <? length input)%nat.
      * apply nth_error_None in Ei. rewrite (table_inv_length _ _ _ Hinv) in Ei. lia.
    + intros r e _ He. unfold obind in He.
      destruct (nth_error table r) as [comp|] eqn:Er; [|discriminate].
      destruct (_build_component_structure _ _ _ r); [|discriminate].
      injection He as <-. exact (inv_ids _ _ _ Hinv _ _ Er).
  - rewrite Forall_forall. intros e He.
    destruct (Hentries e He) as (r & _ & _ & Hb).
    destruct (component_table input image) as [table tracking]. simpl in *.
    destruct (build_copies input table tracking Hinv _ _ _ Hb) as (comp & Hr & _ & Hkids).
    assert (Hno : structural_children comp = []).
    { unfold structural_children.
      destruct (children_indices comp) as [|c l] eqn:Ec; [reflexivity|].
      destruct (inv_children _ _ _ Hinv r comp c Hr) as [_ Hp]; [rewrite Ec; now left|].
      rewrite Hnone in Hp. discriminate. }
    rewrite Hno in Hkids. simpl in Hkids. now injection Hkids as <-.
Qed.

Lemma flat_input_gives_flat_hierarchy_witness :
  exists forest,
    convert_json_structure side_by_side None = Some forest
    /\ map fst forest = ["comp_1"; "comp_2"]
    /\ Forall (fun e => children_or_empty (snd e) = []) forest.
Proof.
  apply (flat_input_gives_flat_hierarchy side_by_side None).
  intros i j ei ej Hij Hi Hj.
  destruct i as [|[|i]], j as [|[|j]];
    try (now elim Hij);
    try (destruct i; discriminate); try (destruct j; discriminate);
    injection Hi as <-; injection Hj as <-; reflexivity.
Defined.

(** *** Media elements *)

Lemma link_step_media t ms k :
  snd (link_step (t, ms) k)
  = match nth_error t k with
    | Some component =>
        if is_media_label (label (original_data component)) then ms ++ [k] else ms
    | None => ms
    end.
Proof.
  unfold link_step. destruct (nth_error t k) as [component|]; [|reflexivity].
  now destruct (_find_parent_index k (map original_data t)).
Qed.

Lemma link_fold_media input m : forall k t ms,
  (k + m = length input)%nat -> table_inv input k t ->
  forall i e, nth_error input i = Some e -> is_media_label (label e) = true ->
    In i ms \/ (k <= i)%nat ->
    In i (snd (fold_left link_step (seq k m) (t, ms))).
Proof.
  induction m as [|m IH]; intros k t ms Hkm Hinv i e Hi He Hin; cbn [seq fold_left].
  - simpl. destruct Hin as [Hin|Hin]; [assumption|].
    assert (i < length input)%nat by (apply nth_error_Some; congruence). lia.
  - pose proof (link_step_inv input k t ms Hinv ltac:(lia)) as Hstep.
    pose proof (link_step_media t ms k) as Hms.
    destruct (link_step (t, ms) k) as [t' ms']. simpl in Hstep, Hms.
    apply (IH (S k) t' ms' ltac:(lia) Hstep i e Hi He).
    destruct Hin as [Hin|Hin].
    + left. rewrite Hms. destruct (nth_error t k) as [c|]; [|assumption].
      destruct (is_media_label (label (original_data c)));
        [apply in_or_app; now left|assumption].
    + destruct (Nat.eq_dec k i) as [->|Hne]; [|right; lia].
      left. rewrite Hms.
      destruct (nth_error t i) as [component|] eqn:Ei.
      * rewrite (table_original _ _ _ _ _ Hinv Ei) in Hi. injection Hi as ->.
        rewrite He. apply in_or_app. right. now left.
      * apply nth_error_None in Ei. rewrite (table_inv_length _ _ _ Hinv) in Ei. lia.
Qed.

Lemma media_step_registered input image t m j done :
  table_inv input (length input) t ->
  media_registered image done t ->
  media_registered image (done ++ [j]) (fst (media_step image (t, m) j)).
Proof.
  intros Hinv Hreg.
  assert (Hsame : forall q (f : CompRec -> CompRec),
            (forall c, parent_index (f c) = parent_index c
                       /\ original_data (f c) = original_data c
                       /\ incl (media_indices c) (media_indices (f c))) ->
            media_registered image done (update_nth q f t)).
  { intros q f Hf i mi p Hi Hmi Hp Hfile.
    apply update_nth_inv in Hmi. destruct Hmi as (m0 & Hm0 & ->).
    assert (Hp0 : parent_index m0 = Some p).
    { destruct (q =? i)%nat; [now rewrite (proj1 (Hf m0)) in Hp|assumption]. }
    assert (Hfile0 : media_file image i (bbox (original_data m0)) <> None).
    { destruct (q =? i)%nat; [now rewrite (proj1 (proj2 (Hf m0))) in Hfile|assumption]. }
    destruct (Hreg i m0 p Hi Hm0 Hp0 Hfile0) as (cp & Hcp & Hin).
    destruct (Nat.eq_dec q p) as [->|Hne].
    - exists (f cp). split; [now rewrite update_nth_same, Hcp|].
      now apply (proj2 (proj2 (Hf cp))).
    - exists cp. split; [now rewrite update_nth_other|assumption]. }
  unfold media_step.
  destruct (nth_error t j) as [media|] eqn:Ej.
  2:{ simpl. intros i mi p Hi Hmi Hp Hfile.
      apply in_app_or in Hi. destruct Hi as [Hi|[<-|[]]]; [eauto|congruence]. }
  destruct (media_file image j (bbox (original_data media))) as [path|] eqn:Efile.
  2:{ simpl. intros i mi p Hi Hmi Hp Hfile.
      apply in_app_or in Hi. destruct Hi as [Hi|[<-|[]]]; [eauto|].
      assert (mi = media) by congruence. subst mi. contradiction. }
  destruct (parent_index media) as [q|] eqn:Eq.
  2:{ simpl. intros i mi p Hi Hmi Hp Hfile.
      apply in_app_or in Hi. destruct Hi as [Hi|[<-|[]]]; [eauto|].
      assert (mi = media) by congruence. subst mi. congruence. }
  simpl. intros i mi p Hi Hmi Hp Hfile.
  apply in_app_or in Hi. destruct Hi as [Hi|[<-|[]]].
  - apply (Hsame q (add_media j)) with (m := mi); try assumption.
    intro c. repeat split. intros x Hx. simpl. apply in_or_app. now left.
  - apply update_nth_inv in Hmi. destruct Hmi as (m0 & Hm0 & ->).
    assert (m0 = media) by congruence. subst m0.
    assert (Hpq : p = q).
    { destruct (q =? j)%nat; simpl in Hp; congruence. }
    subst p.
    assert (Hq : (q < length t)%nat).
    { rewrite (inv_parent _ _ _ Hinv _ _ Ej) in Eq.
      destruct (j <? length input)%nat; [|discriminate].
      destruct (find_parent_sound _ _ _ Eq) as (e & ep & _ & Hep & _).
      rewrite (table_inv_length _ _ _ Hinv). apply nth_error_Some. congruence. }
    destruct (nth_error t q) as [cq|] eqn:Ecq.
    2:{ apply nth_error_None in Ecq. lia. }
    exists (add_media j cq). split; [now rewrite update_nth_same, Ecq|].
    simpl. apply in_or_app. right. now left.
Qed.

Lemma media_fold_registered input image ms : forall t m done,
  table_inv input (length input) t ->
  media_registered image done t ->
  media_registered image (done ++ ms) (fst (fold_left (media_step image) ms (t, m))).
Proof.
  induction ms as [|j ms IH]; intros t m done Hinv Hreg; cbn [fold_left].
  - now rewrite app_nil_r.
  - pose proof (media_step_inv input image _ t m j Hinv) as Hinv'.
    pose proof (media_step_registered input image t m j done Hinv Hreg) as Hreg'.
    destruct (media_step image (t, m) j) as [t' m'].
    replace (done ++ j :: ms) with ((done ++ [j]) ++ ms) by (now rewrite <- app_assoc).
    now apply IH.
Qed.

(** In the final table a structural child is never a media element
    whose crop is valid. *)
Lemma structural_child_not_media input image q c comp e :
  nth_error (fst (component_table input image)) q = Some comp ->
  In c (structural_children comp) ->
  nth_error input c = Some e ->
  is_media_label (label e) = true ->
  media_file image c (bbox e) = None.
Proof.
  pose proof (component_table_inv input image) as Hinv.
  unfold component_table in *.
  pose proof (link_all_inv input) as Hlink.
  assert (Hmedia : forall i e, nth_error input i = Some e ->
            is_media_label (label e) = true ->
            In i (snd (link_all (initial_components input)))).
  { intros i e' Hi He'. unfold link_all.
    pose proof (initial_components_inv input) as Hinit.
    rewrite (table_inv_length _ _ _ Hinit).
    apply (link_fold_media input (length input) 0 _ [] eq_refl Hinit i e' Hi He').
    right. lia. }
  destruct (link_all (initial_components input)) as [t ms]. simpl in Hlink, Hmedia.
  assert (Hreg : media_registered image ([] ++ ms)
                   (fst (fold_left (media_step image) ms (t, [])))).
  { apply (media_fold_registered input); [exact Hlink|intros ? ? ? []]. }
  destruct (fold_left (media_step image) ms (t, [])) as [table tracking].
  simpl in *. intros Hq Hc Hce Hlabel.
  destruct (media_file image c (bbox e)) as [path|] eqn:Efile; [exfalso|reflexivity].
  destruct (child_of_parent input table Hinv q c) as (cc & Hcc & Hpar);
    [exists comp; auto|].
  pose proof (table_original _ _ _ _ _ Hinv Hcc) as Horig.
  assert (He : original_data cc = e) by congruence.
  destruct (Hreg c cc q (Hmedia c e Hce Hlabel) Hcc Hpar) as (cp & Hcp & Hin).
  { rewrite He, Efile. discriminate. }
  assert (cp = comp) by congruence. subst cp.
  unfold structural_children in Hc. apply filter_In in Hc. destruct Hc as [_ Hc].
  apply negb_true_iff in Hc.
  assert (Hmem : mem_index c (media_indices comp) = true).
  { unfold mem_index. apply existsb_exists. exists c. split; [assumption|].
    apply Nat.eqb_refl. }
  congruence.
Qed.

(** A media element is never a node below the top level.  Every node
    of the hierarchy that has a parent node is built from an element
    that either is not labelled image, logo or icon (in any letter
    case), or whose crop is degenerate so that no asset was written for
    it.  When the hierarchy is built without an image, no crop is
    degenerate, and no node below the top level has such a label. *)
Theorem media_is_never_nested (input : list Element) (image : option ImageInfo)
    (forest : Forest) :
  convert_json_structure input image = Some forest ->
  Forall (fun node =>
            exists i e,
              nth_error input i = Some e
              /\ copies i e node
              /\ (is_media_label (label e) = true ->
                  media_file image i (bbox e) = None)
              /\ (image = None -> is_media_label (label e) = false))
         (inner_nodes forest).
Proof.
  intro Hf. rewrite Forall_forall. intros n Hn.
  unfold inner_nodes in Hn. apply in_flat_map in Hn. destruct Hn as (e & He & Hn).
  destruct (convert_entries _ _ _ Hf e He) as (r & _ & _ & Hb).
  pose proof (component_table_inv input image) as Hinv.
  pose proof (structural_child_not_media input image) as Hchild.
  destruct (component_table input image) as [table tracking]. simpl in *.
  destruct (build_nodes _ _ _ _ _ Hb) as [_ Hinner].
  destruct (Hinner _ Hn) as (c & x & fuel' & Hc & Hx & Hbx).
  destruct (build_copies input table tracking Hinv _ _ _ Hbx) as (comp & Hxc & Hcopy & _).
  assert (Hparent : exists q, child_of table q x).
  { destruct (under_last table _ _ Hx) as [<-|(y & _ & Hy)]; eauto. }
  destruct Hparent as (q & cq & Hq & Hqx).
  pose proof (table_original _ _ _ _ _ Hinv Hxc) as Hxe.
  exists x, (original_data comp). split; [assumption|]. split; [assumption|].
  assert (Hdeg : is_media_label (label (original_data comp)) = true ->
                 media_file image x (bbox (original_data comp)) = None).
  { intro Hl. exact (Hchild q x cq (original_data comp) Hq Hqx Hxe Hl). }
  split; [exact Hdeg|].
  intros ->. destruct (is_media_label (label (original_data comp))); [|reflexivity].
  specialize (Hdeg eq_refl). discriminate.
Qed.

Lemma media_is_never_nested_witness :
  (map type (inner_nodes two_regions_forest)
     = [Some "button"; Some "div"; Some "text"]
   /\ Forall (fun node => exists t, type node = Some t /\ is_media_label t = false)
        (inner_nodes two_regions_forest))
  /\ (map type (inner_nodes two_regions_forest_with_image)
        = [Some "button"; Some "div"; Some "text"]
      /\ Forall (fun node => exists t, type node = Some t /\ is_media_label t = false)
           (inner_nodes two_regions_forest_with_image)).
Proof.
  split; (split; [vm_compute; reflexivity|]).
  - eapply Forall_impl; [|apply (media_is_never_nested two_regions None);
                           vm_compute; reflexivity].
    intros node (i & e & _ & Hcopy & _ & Hnone).
    exists (label e). split; [exact (proj1 (proj2 Hcopy))|now apply Hnone].
  - eapply Forall_impl; [|apply (media_is_never_nested two_regions (Some sample_image));
                           vm_compute; reflexivity].
    intros node (i & e & Hi & Hcopy & Hmedia & _).
    exists (label e). split; [exact (proj1 (proj2 Hcopy))|].
    destruct (is_media_label (label e)) eqn:El; [|reflexivity].
    specialize (Hmedia eq_refl).
    do 6 (destruct i as [|i]; [vm_compute in Hi; injection Hi as <-;
                               vm_compute in El, Hmedia; discriminate|]).
    cbn in Hi. destruct i; discriminate Hi.
Defined.

End HierarchyProperties.

(** ** Percentages, offsets and the annotated hierarchy *)

Module LayoutProperties.
Import Tree Layout LayoutFacts.

(** *** Rounding *)

Lemma round_half_even_near (q : Q) :
  (inject_Z (round_half_even q) - (1#2) <= q
   /\ q <= inject_Z (round_half_even q) + (1#2))%Q.
Proof.
  unfold round_half_even.
  pose proof (Qfloor_le q) as Hlo. pose proof (Qlt_floor q) as Hhi.
  rewrite inject_Z_plus in Hhi. change (inject_Z 1) with 1%Q in Hhi.
  set (f := Qfloor q) in *.
  destruct (Qltb (q - inject_Z f) (1#2)) eqn:E1.
  { apply Qltb_lt in E1. split; lra. }
  apply Qltb_ge in E1.
  destruct (Qltb (1#2) (q - inject_Z f)) eqn:E2.
  { rewrite inject_Z_plus. change (inject_Z 1) with 1%Q. split; lra. }
  apply Qltb_ge in E2.
  destruct (Z.even f).
  - split; lra.
  - rewrite inject_Z_plus. change (inject_Z 1) with 1%Q. split; lra.
Qed.

Lemma round_half_even_int (q : Q) (z : Z) :
  (q == inject_Z z)%Q -> round_half_even q = z.
Proof.
  intro H. unfold round_half_even.
  rewrite (Qfloor_comp _ _ H), Qfloor_Z.
  assert (E : Qltb (q - inject_Z z) (1#2) = true) by (apply Qltb_lt; lra).
  now rewrite E.
Qed.

Lemma round2_exact (q : Q) (z : Z) :
  (q * 100 == inject_Z z)%Q -> (round2 q == z # 100)%Q.
Proof.
  intro H. unfold round2. rewrite (round_half_even_int _ _ H).
  unfold Qeq, Qdiv. simpl. lia.
Qed.

Lemma inject_Z_nonzero (e : Z) : e <> 0 -> ~ (inject_Z e == 0)%Q.
Proof. intros He H. apply He. unfold Qeq in H. simpl in H. lia. Qed.

Lemma percent_exact (offset extent z : Z) :
  extent <> 0 -> offset * 10000 = z * extent ->
  (percent offset extent == z # 100)%Q.
Proof.
  intros He H. unfold percent.
  apply Z.eqb_neq in He. rewrite He. apply Z.eqb_neq in He.
  apply round2_exact.
  apply (Qmult_inj_r _ _ (inject_Z extent)); [now apply inject_Z_nonzero|].
  rewrite <- inject_Z_mult, <- H, inject_Z_mult.
  change (inject_Z 10000) with 10000%Q.
  field. now apply inject_Z_nonzero.
Qed.

(** *** Top-level components *)

Lemma round2_tenth (a : Z) :
  (round2 (inject_Z a / inject_Z 1000 * 100) == inject_Z a / 10)%Q.
Proof.
  rewrite (round2_exact _ (a * 10)).
  - unfold Qeq, Qdiv. simpl. lia.
  - rewrite inject_Z_mult. change (inject_Z 10) with 10%Q.
    change (inject_Z 1000) with 1000%Q. field.
Qed.

Lemma percent_tenth (a : Z) : (percent a 1000 == inject_Z a / 10)%Q.
Proof.
  rewrite (percent_exact a 1000 (a * 10)); [|discriminate|lia].
  unfold Qeq, Qdiv. simpl. lia.
Qed.

(** A top-level component is laid out against the viewport, so its
    offsets relative to the parent and relative to the body are the same
    numbers, each exactly a tenth of the distance (in the 0-1000 space)
    between the box and the viewport edge; its width and height
    percentages are a tenth of its extent, and its classes are
    [relative], the width and the height, with no offset class. *)
Theorem top_level_offsets (component : Component) (desc : Description Component) :
  description component = Some desc ->
  let cc := match coordinates component with Some c => c | None => no_coordinates end in
  exists c' d' l w h,
    _process_component component viewport None = Some c'
    /\ description c' = Some d' /\ layout d' = Some l
    /\ (top (percent_position_parent l) == inject_Z (get0 (y1 cc)) / 10
        /\ left (percent_position_parent l) == inject_Z (get0 (x1 cc)) / 10
        /\ right (percent_position_parent l) == inject_Z (1000 - get0 (x2 cc)) / 10
        /\ bottom (percent_position_parent l) == inject_Z (1000 - get0 (y2 cc)) / 10)%Q
    /\ (top (percent_position_body l) == top (percent_position_parent l)
        /\ left (percent_position_body l) == left (percent_position_parent l)
        /\ right (percent_position_body l) == right (percent_position_parent l)
        /\ bottom (percent_position_body l) == bottom (percent_position_parent l))%Q
    /\ tailwind_classes l = [TwPosition Relative; TwWidthPercent w; TwHeightPercent h]
    /\ (w == inject_Z (get0 (x2 cc) - get0 (x1 cc)) / 10
        /\ h == inject_Z (get0 (y2 cc) - get0 (y1 cc)) / 10)%Q.
Proof.
  intros Hd cc. unfold _process_component. rewrite Hd. fold cc.
  do 5 eexists. split; [reflexivity|]. split; [reflexivity|]. split; [reflexivity|].
  cbn [percent_position_parent percent_position_body tailwind_classes
       top left right bottom viewport y1 x1 y2 x2 get0 app].
  change (1000 - 0) with 1000. rewrite !Z.sub_0_r.
  split; [|split; [|split; [reflexivity|]]];
    rewrite ?percent_tenth, ?round2_tenth; repeat split; reflexivity.
Qed.

Lemma top_level_offsets_witness :
  exists c' d' l,
    _process_component
      (MkComponent (Some "comp_1") (Some "div")
         (Some {| y1 := Some 100; x1 := Some 250; y2 := Some 900; x2 := Some 1000 |})
         (Some {| description_type := "div"; description_text := ""; content := None;
                  children := None; styles := None; layout := None |}))
      viewport None = Some c'
    /\ description c' = Some d' /\ layout d' = Some l
    /\ (top (percent_position_parent l) == 10)%Q
    /\ (left (percent_position_parent l) == 25)%Q.
Proof.
  destruct (top_level_offsets
              (MkComponent (Some "comp_1") (Some "div")
                 (Some {| y1 := Some 100; x1 := Some 250;
                          y2 := Some 900; x2 := Some 1000 |})
                 (Some {| description_type := "div"; description_text := "";
                          content := None; children := None; styles := None;
                          layout := None |}))
              _ eq_refl)
    as (c' & d' & l & w & h & Hc & Hd & Hl & (Ht & Hle & _) & _).
  exists c', d', l. repeat (split; [assumption|]).
  split; [rewrite Ht|rewrite Hle]; reflexivity.
Defined.

(** *** Processing twice *)

(** Annotating a component is idempotent.  A component that has been
    processed (against a given parent, or against the viewport) is
    returned unchanged when it is processed again: the styles it
    already carries are kept, and the layout record is recomputed to
    the same value. *)
Theorem process_component_idempotent (component : Component) (vp : Coordinates)
    (parent : option Component) (c' : Component) :
  _process_component component vp parent = Some c' ->
  _process_component c' vp parent = Some c'
  /\ (forall d s, description component = Some d -> styles d = Some s ->
        exists d', description c' = Some d' /\ styles d' = Some s).
Proof.
  unfold _process_component, obind.
  destruct component as [i t co [desc|]]; cbn [description coordinates id type].
  2:{ intros [= <-]. split; [reflexivity|]. intros d s Hd. discriminate. }
  destruct (match parent with Some p => coordinates p | None => Some vp end)
    as [pc|] eqn:Epc; [|discriminate].
  destruct (match y2 vp with Some v => v | None => 1000 end =? 0) eqn:Ey; [discriminate|].
  destruct (match x2 vp with Some v => v | None => 1000 end =? 0) eqn:Ex; [discriminate|].
  intros [= <-]. cbn [description coordinates id type]. split.
  - destruct parent as [p|]; destruct (styles desc); reflexivity.
  - intros d s [= <-] Hs. eexists. split; [reflexivity|]. cbn [styles].
    now rewrite Hs.
Qed.

Lemma process_component_idempotent_witness :
  exists c',
    _process_component
      (MkComponent (Some "comp_1") (Some "div")
         (Some {| y1 := Some 100; x1 := Some 250; y2 := Some 900; x2 := Some 1000 |})
         (Some {| description_type := "div"; description_text := ""; content := None;
                  children := None; styles := None; layout := None |}))
      viewport None = Some c'
    /\ _process_component c' viewport None = Some c'.
Proof.
  eexists. split; [vm_compute; reflexivity|].
  refine (proj1 (process_component_idempotent
                   (MkComponent (Some "comp_1") (Some "div")
                      (Some {| y1 := Some 100; x1 := Some 250;
                               y2 := Some 900; x2 := Some 1000 |})
                      (Some {| description_type := "div"; description_text := "";
                               content := None; children := None; styles := None;
                               layout := None |}))
                   viewport None _ _)).
  vm_compute. reflexivity.
Defined.

(** *** Media items *)

(** A media item with coordinates is laid out in pixels of the 0-1000
    space whenever its parent has its four coordinates (otherwise the
    code raises).  Its label, type, file and coordinates are kept, its
    class list starts with [absolute], and its offsets add up: top,
    height and bottom give the parent's height, left, width and right
    the parent's width, and likewise against the viewport. *)
Theorem media_offsets_add_up (m : MediaRef) (mc : MediaCoordinates)
    (parent_component : Component) (py1 px1 py2 px2 : Z) :
  media_coordinates m = Some mc ->
  coordinates parent_component
    = Some {| y1 := Some py1; x1 := Some px1; y2 := Some py2; x2 := Some px2 |} ->
  exists m' l,
    _process_media_element m parent_component viewport = Some m'
    /\ media_layout m' = Some l
    /\ (original_label m', media_type m', file_path m', media_coordinates m')
       = (original_label m, media_type m, file_path m, media_coordinates m)
    /\ hd_error (media_tailwind_classes l) = Some (TwPosition Absolute)
    /\ top (position_parent l) + (y_max mc - y_min mc) + bottom (position_parent l)
       = py2 - py1
    /\ left (position_parent l) + (x_max mc - x_min mc) + right (position_parent l)
       = px2 - px1
    /\ top (position_body l) + (y_max mc - y_min mc) + bottom (position_body l) = 1000
    /\ left (position_body l) + (x_max mc - x_min mc) + right (position_body l) = 1000.
Proof.
  intros Hm Hp. unfold _process_media_element, obind. rewrite Hm, Hp.
  cbn [y1 x1 y2 x2 viewport].
  do 2 eexists. split; [reflexivity|]. split; [reflexivity|].
  cbn [original_label media_type file_path media_coordinates media_tailwind_classes
       position_parent position_body top left right bottom hd_error].
  repeat split; lia.
Qed.

Lemma media_offsets_add_up_witness :
  exists m' l,
    _process_media_element
      {| original_label := "image";
         media_coordinates := Some {| y_min := 100; x_min := 100;
                                      y_max := 500; x_max := 500 |};
         file_path := "assets/image_1.png"; media_type := "image";
         media_styles := None; media_layout := None |}
      (MkComponent (Some "comp_1") (Some "div")
         (Some {| y1 := Some 50; x1 := Some 0; y2 := Some 1000; x2 := Some 1000 |}) None)
      viewport = Some m'
    /\ media_layout m' = Some l
    /\ top (position_parent l) + (500 - 100) + bottom (position_parent l) = 1000 - 50.
Proof.
  destruct (media_offsets_add_up
              {| original_label := "image";
                 media_coordinates := Some {| y_min := 100; x_min := 100;
                                              y_max := 500; x_max := 500 |};
                 file_path := "assets/image_1.png"; media_type := "image";
                 media_styles := None; media_layout := None |}
              _
              (MkComponent (Some "comp_1") (Some "div")
                 (Some {| y1 := Some 50; x1 := Some 0;
                          y2 := Some 1000; x2 := Some 1000 |}) None)
              50 0 1000 1000 eq_refl eq_refl)
    as (m' & l & Hm & Hl & _ & _ & Hv & _).
  exists m', l. split; [exact Hm|]. split; [exact Hl|exact Hv].
Defined.

(** *** The annotated hierarchy *)

Lemma node_ids_unfold (c : Component) :
  Hierarchy.node_ids c = id c :: flat_map Hierarchy.node_ids (children_or_empty c).
Proof.
  destruct c as [i t co [[dt dx ct [l|] st ly]|]]; reflexivity.
Qed.

Lemma process_component_ids c v p c' :
  _process_component c v p = Some c' ->
  id c' = id c /\ coordinates c' = coordinates c /\ type c' = type c.
Proof.
  unfold _process_component, obind.
  destruct (description c) as [desc|] eqn:Ed; [|now intros [= <-]].
  destruct (match p with Some _ => _ | None => _ end); [|discriminate].
  destruct (if _ =? 0 then None else Some _); [|discriminate].
  destruct (if _ =? 0 then None else Some _); [|discriminate].
  intros [= <-]. auto.
Qed.

Lemma process_component_node_ids c v p c' :
  _process_component c v p = Some c' ->
  Hierarchy.node_ids c' = Hierarchy.node_ids c.
Proof.
  intro H. rewrite !node_ids_unfold.
  rewrite (process_component_keeps _ _ _ _ H).
  now rewrite (proj1 (process_component_ids _ _ _ _ H)).
Qed.

Lemma process_children_node_ids v p cs : forall cs',
  omap_list (fun child => _process_component child v p) cs = Some cs' ->
  flat_map Hierarchy.node_ids cs' = flat_map Hierarchy.node_ids cs.
Proof.
  induction cs as [|c t IH]; intros cs' H; simpl in H.
  - now injection H as <-.
  - unfold obind in H.
    destruct (_process_component c v p) as [c'|] eqn:Ec; [|discriminate].
    destruct (omap_list _ t) as [t'|]; [|discriminate].
    injection H as <-. simpl. rewrite (IH t' eq_refl).
    now rewrite (process_component_node_ids _ _ _ _ Ec).
Qed.

Lemma process_component_total c v p :
  (match p with Some q => coordinates q <> None | None => True end) ->
  y2 v = Some 1000 -> x2 v = Some 1000 ->
  exists c', _process_component c v p = Some c'.
Proof.
  intros Hp Hy Hx. unfold _process_component, obind.
  destruct (description c) as [desc|]; [|eauto].
  rewrite Hy, Hx.
  destruct p as [q|]; [destruct (coordinates q); [|congruence]|]; simpl; eauto.
Qed.

(** The three steps of the loop body on a top-level component that has
    its four coordinates: none of them raises, and the ids of the tree
    are those of the given tree. *)
Lemma process_top_level_ids c cy1 cx1 cy2 cx2 :
  coordinates c
    = Some {| y1 := Some cy1; x1 := Some cx1; y2 := Some cy2; x2 := Some cx2 |} ->
  exists c', process_top_level c = Some c'
    /\ Hierarchy.node_ids c' = Hierarchy.node_ids c.
Proof.
  intro Hco. unfold process_top_level. unfold obind at 1.
  destruct (process_component_total c viewport None I eq_refl eq_refl) as [c1 E1].
  rewrite E1.
  pose proof (process_component_node_ids _ _ _ _ E1) as Hids1.
  destruct (process_component_ids _ _ _ _ E1) as (_ & Hco1 & _).
  rewrite Hco in Hco1. rewrite <- Hids1. clear E1 Hids1 Hco c.
  unfold obind at 1.
  set (step2 := match description c1 with Some _ => _ | None => _ end).
  assert (H2 : exists c2, step2 = Some c2
            /\ Hierarchy.node_ids c2 = Hierarchy.node_ids c1
            /\ coordinates c2 = coordinates c1).
  { unfold step2.
    destruct c1 as [i t co [desc|]]; [|eexists; repeat split; reflexivity].
    cbn [description].
    destruct (content desc) as [cont|]; [|eexists; repeat split; reflexivity].
    destruct (media cont) as [ms|]; [|eexists; repeat split; reflexivity].
    destruct (HierarchyFacts.omap_list_total
                (fun m => _process_media_element m (MkComponent i t co (Some desc)) viewport)
                ms) as [ms' ->].
    { intros m _. unfold _process_media_element, obind.
      destruct (media_coordinates m); [|eauto].
      cbn [coordinates] in *. rewrite Hco1. simpl. eauto. }
    simpl. eexists. split; [reflexivity|]. split; [|reflexivity].
    destruct desc as [dt dx ct [l|] st ly]; reflexivity. }
  destruct H2 as (c2 & -> & Hids2 & Hco2). rewrite <- Hids2.
  rewrite Hco1 in Hco2. clear Hids2 Hco1 c1.
  destruct c2 as [i t co [desc|]]; [|eexists; split; reflexivity].
  cbn [description].
  destruct (children desc) as [cs|] eqn:Ecs; [|eexists; split; reflexivity].
  destruct (HierarchyFacts.omap_list_total
              (fun child => _process_component child viewport
                              (Some (MkComponent i t co (Some desc))))
              cs) as [cs' Ecs'].
  { intros child _. apply process_component_total; [|reflexivity|reflexivity].
    cbn [coordinates] in *. congruence. }
  unfold obind. rewrite Ecs'. eexists. split; [reflexivity|].
  apply process_children_node_ids in Ecs'.
  destruct desc as [dt dx ct kids st ly]. simpl in Ecs. subst kids.
  simpl. now rewrite Ecs'.
Qed.

(** A hierarchy whose top-level components have their four coordinates
    is annotated without raising, with its keys and ids kept. *)
Lemma process_structure_ids (f : Forest) :
  (forall e, In e f ->
     exists a b c d, coordinates (snd e)
       = Some {| y1 := Some a; x1 := Some b; y2 := Some c; x2 := Some d |}) ->
  exists out, process_component_structure f = Some out
    /\ map fst out = map fst f
    /\ Hierarchy.forest_ids out = Hierarchy.forest_ids f.
Proof.
  unfold process_component_structure, Hierarchy.forest_ids.
  induction f as [|[k c] rest IH]; intro Hcoords.
  - exists []. repeat split; reflexivity.
  - destruct IH as (out & Hout & Hkeys & Hids).
    { intros e He. apply Hcoords. now right. }
    destruct (Hcoords (k, c) (or_introl eq_refl)) as (a & b & c0 & d & Hco).
    destruct (process_top_level_ids c a b c0 d Hco) as (c' & Hc' & Hids').
    exists ((k, c') :: out). cbn [omap_list]. unfold obind at 1 2.
    rewrite Hc'. cbn [obind]. unfold obind at 1. rewrite Hout.
    split; [reflexivity|]. simpl. rewrite Hkeys, Hids, Hids'. split; reflexivity.
Qed.

Lemma built_roots_have_coordinates input image forest :
  Hierarchy.convert_json_structure input image = Some forest ->
  forall e, In e forest ->
    exists a b c d, coordinates (snd e)
      = Some {| y1 := Some a; x1 := Some b; y2 := Some c; x2 := Some d |}.
Proof.
  intros Hf e He.
  destruct (HierarchyProperties.convert_entries _ _ _ Hf e He) as (r & _ & _ & Hb).
  pose proof (HierarchyFacts.component_table_inv input image) as Hinv.
  destruct (Hierarchy.component_table input image) as [table tracking]. simpl in *.
  destruct (HierarchyProperties.build_copies input table tracking Hinv _ _ _ Hb)
    as (comp & _ & Hcopy & _).
  destruct Hcopy as (_ & _ & Hco & _). rewrite Hco. eauto.
Qed.

(** The layout step accepts every hierarchy that the builder makes.
    For every input and either mode of the builder, the hierarchy is
    built and the synthesizer returns on it without raising; the result
    has the same top-level keys in the same order and the same node ids
    in the same positions: components are annotated, never added,
    dropped or moved. *)
Theorem pipeline_annotates_built_hierarchy (input : list Hierarchy.Element)
    (image : option Hierarchy.ImageInfo) :
  exists forest out,
    Hierarchy.convert_json_structure input image = Some forest
    /\ process_component_structure forest = Some out
    /\ map fst out = map fst forest
    /\ Hierarchy.forest_ids out = Hierarchy.forest_ids forest.
Proof.
  destruct (HierarchyProperties.convert_total input image) as [forest Hf].
  exists forest.
  destruct (process_structure_ids forest (built_roots_have_coordinates _ _ _ Hf))
    as (out & Hout & Hkeys & Hids).
  exists out. auto.
Qed.

End LayoutProperties.

(** ** The fallback palette *)

Module ColorsProperties.
Import Colors ColorsFacts PaletteShape Sequences.

(** *** The order of pixels *)

Lemma pixel_compare_eq (a b : pixel) : pixel_compare a b = Eq -> a = b.
Proof.
  destruct a as [[r1 g1] b1], b as [[r2 g2] b2]. simpl.
  destruct (Z.compare_spec r1 r2); try discriminate.
  destruct (Z.compare_spec g1 g2); try discriminate.
  destruct (Z.compare_spec b1 b2); try discriminate.
  intros _. congruence.
Qed.

Lemma pixel_compare_refl (a : pixel) : pixel_compare a a = Eq.
Proof. destruct a as [[r g] b]. simpl. now rewrite !Z.compare_refl. Qed.

Lemma pixel_lt_spec (a b : pixel) :
  pixel_lt a b <->
  let '(r1, g1, b1) := a in
  let '(r2, g2, b2) := b in
  r1 < r2 \/ (r1 = r2 /\ (g1 < g2 \/ (g1 = g2 /\ b1 < b2))).
Proof.
  unfold pixel_lt. destruct a as [[r1 g1] b1], b as [[r2 g2] b2]. simpl.
  destruct (Z.compare_spec r1 r2); destruct (Z.compare_spec g1 g2);
    destruct (Z.compare_spec b1 b2); split; intro Hlt; try discriminate;
    try reflexivity; try lia.
Qed.

Lemma pixel_lt_trans (a b c : pixel) : pixel_lt a b -> pixel_lt b c -> pixel_lt a c.
Proof.
  rewrite !pixel_lt_spec. destruct a as [[r1 g1] b1], b as [[r2 g2] b2], c as [[r3 g3] b3].
  lia.
Qed.

Lemma pixel_compare_gt (a b : pixel) : pixel_compare a b = Gt -> pixel_lt b a.
Proof.
  intro H. apply pixel_lt_spec. destruct a as [[r1 g1] b1], b as [[r2 g2] b2].
  simpl in H.
  destruct (Z.compare_spec r1 r2); destruct (Z.compare_spec g1 g2);
    destruct (Z.compare_spec b1 b2); try discriminate; lia.
Qed.

(** *** The distinct colors *)

Lemma insert_unique_in (p : pixel) (l : list pixel) (x : pixel) :
  In x (insert_unique p l) <-> x = p \/ In x l.
Proof.
  induction l as [|q t IH]; simpl; [intuition|].
  destruct (pixel_compare p q) eqn:E; simpl.
  - apply pixel_compare_eq in E. subst q. intuition.
  - intuition.
  - rewrite IH. intuition.
Qed.

Lemma unique_rows_in (l : list pixel) (x : pixel) : In x (unique_rows l) <-> In x l.
Proof.
  induction l as [|p t IH]; simpl; [reflexivity|].
  rewrite insert_unique_in, IH. intuition.
Qed.

Lemma insert_unique_sorted (p : pixel) (l : list pixel) :
  StronglySorted pixel_lt l -> StronglySorted pixel_lt (insert_unique p l).
Proof.
  induction 1 as [|q t Ht IH Hq]; simpl; [repeat constructor|].
  destruct (pixel_compare p q) eqn:E.
  - now constructor.
  - constructor; [now constructor|]. constructor; [exact E|].
    eapply Forall_impl; [|exact Hq]. intros x Hx. eapply pixel_lt_trans; eassumption.
  - constructor; [assumption|].
    rewrite Forall_forall in *. intros x Hx. apply insert_unique_in in Hx.
    destruct Hx as [->|Hx]; [now apply pixel_compare_gt|now apply Hq].
Qed.

Lemma unique_rows_sorted (l : list pixel) : StronglySorted pixel_lt (unique_rows l).
Proof. induction l; simpl; [constructor|now apply insert_unique_sorted]. Qed.

Lemma sorted_nodup (l : list pixel) : StronglySorted pixel_lt l -> NoDup l.
Proof.
  induction 1 as [|a t Ht IH Ha]; constructor; [|assumption].
  intro Hin. rewrite Forall_forall in Ha. specialize (Ha _ Hin).
  unfold pixel_lt in Ha. rewrite pixel_compare_refl in Ha. discriminate.
Qed.

(** *** Slices *)

Lemma sublist_refl {A : Type} (l : list A) : sublist l l.
Proof. induction l; constructor; assumption. Qed.

Lemma sublist_nil_l {A : Type} (l : list A) : sublist [] l.
Proof. induction l; constructor; assumption. Qed.

Lemma sublist_trans {A : Type} (l m n : list A) :
  sublist l m -> sublist m n -> sublist l n.
Proof.
  intros H1 H2. revert l H1. induction H2 as [|a m n H IH|a m n H IH]; intros l H1.
  - assumption.
  - constructor. now apply IH.
  - inversion H1; subst; constructor; now apply IH.
Qed.

Lemma sublist_in {A : Type} (l m : list A) (x : A) : sublist l m -> In x l -> In x m.
Proof.
  induction 1 as [|a l m H IH|a l m H IH]; simpl; intuition.
Qed.

Lemma sublist_nodup {A : Type} (l m : list A) : sublist l m -> NoDup m -> NoDup l.
Proof.
  induction 1 as [|a l m H IH|a l m H IH]; intro Hnd.
  - constructor.
  - inversion Hnd; subst. now apply IH.
  - inversion Hnd; subst. constructor; [|now apply IH].
    intro Hin. eapply sublist_in in Hin; eauto.
Qed.

Lemma sublist_length {A : Type} (l m : list A) : sublist l m -> (length l <= length m)%nat.
Proof. induction 1; simpl; lia. Qed.

Lemma every_nth_sublist {A : Type} (step : nat) (l : list A) :
  forall skip, sublist (every_nth step skip l) l.
Proof.
  induction l as [|a t IH]; intro skip; simpl; [constructor|].
  destruct skip; constructor; apply IH.
Qed.

Lemma firstn_sublist {A : Type} (n : nat) (l : list A) : sublist (firstn n l) l.
Proof.
  revert n. induction l as [|a t IH]; intro n; [rewrite firstn_nil; constructor|].
  destruct n; simpl; [apply sublist_nil_l|]. apply sublist_keep, IH.
Qed.

Lemma slice_to_sublist {A : Type} (l : list A) (k : Z) : sublist (slice_to l k) l.
Proof. unfold slice_to. destruct (0 <=? k); apply firstn_sublist. Qed.

Lemma slice_to_length {A : Type} (l : list A) (k : Z) :
  0 <= k -> Z.of_nat (length (slice_to l k)) <= k.
Proof.
  intro Hk. unfold slice_to. apply Z.leb_le in Hk. rewrite Hk. apply Z.leb_le in Hk.
  pose proof (firstn_le_length (Z.to_nat k) l).
  rewrite length_firstn. lia.
Qed.

Lemma slice_to_nonempty {A : Type} (l : list A) (k : Z) :
  1 <= k -> l <> [] -> slice_to l k <> [].
Proof.
  intros Hk Hl. unfold slice_to.
  destruct (Z.leb_spec 0 k); [|lia].
  destruct l as [|a t]; [congruence|].
  destruct (Z.to_nat k) eqn:E; [lia|]. discriminate.
Qed.

(** *** Hexadecimal notation *)

Lemma hex_digit_inj (n m : Z) :
  0 <= n < 16 -> 0 <= m < 16 -> hex_digit n = hex_digit m -> n = m.
Proof.
  intros Hn Hm H.
  assert (Hdigits : forall k, 0 <= k < 16 -> In k (map Z.of_nat (seq 0 16))).
  { intros k Hk. apply in_map_iff. exists (Z.to_nat k).
    split; [lia|]. apply in_seq. lia. }
  pose proof (Hdigits n Hn) as Hn'. pose proof (Hdigits m Hm) as Hm'.
  clear Hn Hm Hdigits. cbn in Hn', Hm'.
  repeat (destruct Hn' as [Hn'|Hn']; [subst n|]); [..|destruct Hn'];
    repeat (destruct Hm' as [Hm'|Hm']; [subst m|]); try (destruct Hm');
    try reflexivity; discriminate H.
Qed.

Lemma hex2_inj (a b : Z) : 0 <= a < 256 -> 0 <= b < 256 -> hex2 a = hex2 b -> a = b.
Proof.
  intros Ha Hb H. unfold hex2 in H. injection H as H1 H2.
  assert (Hda : 0 <= a / 16 < 16)
    by (split; [apply Z.div_pos; lia|apply Z.div_lt_upper_bound; lia]).
  assert (Hdb : 0 <= b / 16 < 16)
    by (split; [apply Z.div_pos; lia|apply Z.div_lt_upper_bound; lia]).
  assert (Hma : 0 <= a mod 16 < 16) by (apply Z.mod_pos_bound; lia).
  assert (Hmb : 0 <= b mod 16 < 16) by (apply Z.mod_pos_bound; lia).
  apply hex_digit_inj in H1; [|assumption|assumption].
  apply hex_digit_inj in H2; [|assumption|assumption].
  rewrite (Z.div_mod a 16), (Z.div_mod b 16) by lia. congruence.
Qed.

Lemma hex_color_inj (p q : pixel) :
  eight_bit p -> eight_bit q -> hex_color p = hex_color q -> p = q.
Proof.
  destruct p as [[r1 g1] b1], q as [[r2 g2] b2]. simpl.
  intros (Hr1 & Hg1 & Hb1) (Hr2 & Hg2 & Hb2) H.
  injection H as E1 E2 E3 E4 E5 E6.
  assert (r1 = r2) by (apply hex2_inj; [assumption|assumption|unfold hex2; congruence]).
  assert (g1 = g2) by (apply hex2_inj; [assumption|assumption|unfold hex2; congruence]).
  assert (b1 = b2) by (apply hex2_inj; [assumption|assumption|unfold hex2; congruence]).
  congruence.
Qed.

(** *** The palette *)

Lemma unique_rows_nonempty (l : list pixel) : l <> [] -> unique_rows l <> [].
Proof.
  destruct l as [|p t]; [congruence|]. intros _ H.
  assert (Hin : In p (unique_rows (p :: t))) by (apply unique_rows_in; now left).
  rewrite H in Hin. destruct Hin.
Qed.

Lemma every_nth_nonempty {A : Type} (step : nat) (l : list A) :
  l <> [] -> every_nth step 0 l <> [].
Proof. destruct l; [congruence|discriminate]. Qed.

(** The colors that the fallback keeps: a selection of the distinct
    pixels of the crop, not empty and at most [max_colors] long. *)
Lemma fallback_selection (image : list (list pixel)) (max_colors : Z) :
  1 <= max_colors -> (2 <= length (concat image))%nat ->
  exists kept,
    _fallback_extract_colors image max_colors = map hex_color kept
    /\ sublist kept (unique_rows (concat image))
    /\ kept <> []
    /\ Z.of_nat (length kept) <= max_colors.
Proof.
  intros Hmax Hlen. unfold _fallback_extract_colors.
  destruct (Nat.leb_spec (length (concat image)) 1) as [|_]; [lia|].
  set (unique_colors := unique_rows (concat image)).
  assert (Hne : unique_colors <> []).
  { apply unique_rows_nonempty. intro E. rewrite E in Hlen. simpl in Hlen. lia. }
  destruct (Z.ltb_spec max_colors (Z.of_nat (length unique_colors))) as [Hlt|Hge].
  - unfold floor_div, obind.
    destruct (Z.eqb_spec max_colors 0) as [|_]; [lia|].
    assert (Hstep : 1 <= Z.of_nat (length unique_colors) / max_colors).
    { apply Z.div_le_lower_bound; lia. }
    unfold slice_step.
    destruct (Z.eqb_spec (Z.of_nat (length unique_colors) / max_colors) 0) as [|_]; [lia|].
    destruct (Z.ltb_spec 0 (Z.of_nat (length unique_colors) / max_colors)) as [_|]; [|lia].
    set (strided := every_nth _ 0 unique_colors).
    exists (slice_to (slice_to strided max_colors) max_colors).
    split; [reflexivity|]. split; [|split].
    + eapply sublist_trans; [apply slice_to_sublist|].
      eapply sublist_trans; [apply slice_to_sublist|apply every_nth_sublist].
    + apply slice_to_nonempty; [assumption|].
      apply slice_to_nonempty; [assumption|].
      now apply every_nth_nonempty.
    + apply slice_to_length. lia.
  - exists (slice_to unique_colors max_colors).
    split; [reflexivity|]. split; [apply slice_to_sublist|]. split.
    + now apply slice_to_nonempty.
    + apply slice_to_length. lia.
Qed.

(** The fallback palette of a crop of at least two pixels, for a
    request of at least one color: it is never empty, never longer than
    the request, and every entry is the hexadecimal notation of a pixel
    that occurs in the crop.  On an 8-bit image no color is listed
    twice. *)
Theorem fallback_palette (image : list (list pixel)) (max_colors : Z) :
  1 <= max_colors -> (2 <= length (concat image))%nat ->
  let palette := _fallback_extract_colors image max_colors in
  palette <> []
  /\ Z.of_nat (length palette) <= max_colors
  /\ (forall c, In c palette -> exists p, In p (concat image) /\ c = hex_color p)
  /\ (Forall (Forall eight_bit) image -> NoDup palette).
Proof.
  intros Hmax Hlen. cbv zeta.
  destruct (fallback_selection image max_colors Hmax Hlen)
    as (kept & -> & Hsub & Hne & Hlenk).
  split; [|split; [|split]].
  - destruct kept; [congruence|discriminate].
  - now rewrite length_map.
  - intros c Hc. apply in_map_iff in Hc. destruct Hc as (p & <- & Hp).
    exists p. split; [|reflexivity].
    apply unique_rows_in. eapply sublist_in; eassumption.
  - intro Hbits.
    assert (Hall : forall p, In p kept -> eight_bit p).
    { intros p Hp. eapply sublist_in in Hp; [|exact Hsub].
      apply (proj1 (unique_rows_in _ _)) in Hp. apply Forall_concat in Hbits.
      rewrite Forall_forall in Hbits. now apply Hbits. }
    assert (Hnd : NoDup kept).
    { eapply sublist_nodup; [exact Hsub|]. apply sorted_nodup, unique_rows_sorted. }
    clear Hsub Hne Hlenk. induction Hnd as [|p t Hp Ht IH]; simpl; constructor.
    + intro Hin. apply in_map_iff in Hin. destruct Hin as (q & Hq & Hin).
      apply hex_color_inj in Hq; [subst q; contradiction| |];
        apply Hall; [now right|now left].
    + apply IH. intros q Hq. apply Hall. now right.
Qed.

Lemma fallback_palette_witness :
  _fallback_extract_colors
    [[(0, 0, 0); (255, 0, 0); (0, 255, 0)]; [(0, 0, 255); (0, 0, 0); (16, 32, 48)]] 2
  <> []
  /\ NoDup (_fallback_extract_colors
              [[(0, 0, 0); (255, 0, 0); (0, 255, 0)];
               [(0, 0, 255); (0, 0, 0); (16, 32, 48)]] 2).
Proof.
  destruct (fallback_palette
              [[(0, 0, 0); (255, 0, 0); (0, 255, 0)];
               [(0, 0, 255); (0, 0, 0); (16, 32, 48)]] 2)
    as (Hne & _ & _ & Hnd).
  - lia.
  - simpl. lia.
  - split; [exact Hne|]. apply Hnd.
    repeat constructor; simpl; lia.
Defined.

End ColorsProperties.

(** ** The color step *)

Module PaletteProperties.
Import Tree Layout Palette HierarchyShape.

(** Induction on a component tree: a property that holds of a
    component whenever it holds of its children holds of every
    component. *)
Lemma Component_induction (P : Component -> Prop) :
  (forall c, Forall P (children_or_empty c) -> P c) -> forall c, P c.
Proof.
  intro H. fix IH 1. intro c. apply H.
  destruct c as [i t co [[dt dx ct [kids|] st ly]|]];
    unfold children_or_empty; simpl; try constructor.
  induction kids as [|k r IHr]; constructor; [apply IH|exact IHr].
Qed.

Section Run.

Variable palette_of : Z -> Z -> Z -> Z -> list string.
Variable img_width img_height : Z.

Local Abbreviation color :=
  (_process_component_for_color palette_of img_width img_height).
Local Abbreviation color_kids :=
  (color_children palette_of img_width img_height).

(** The step on a component that is neither seen before nor of a
    skipped type. *)
Lemma color_unfold i t co desc p :
  (match i with Some s => str_in s p | None => false end) = false ->
  (match t with Some s => str_in s skipped_types | None => false end) = false ->
  color (MkComponent i t co (Some desc)) p
  = let p' := match i with Some s => s :: p | None => p end in
    let styles' :=
      with_palette (crop_palette palette_of img_width img_height co) (styles desc) in
    match children desc with
    | None =>
        (MkComponent i t co
           (Some {| description_type := description_type desc;
                    description_text := description_text desc;
                    content := content desc;
                    children := None;
                    styles := styles';
                    layout := layout desc |}), p')
    | Some kids =>
        (MkComponent i t co
           (Some {| description_type := description_type desc;
                    description_text := description_text desc;
                    content := content desc;
                    children := Some (fst (color_kids kids p'));
                    styles := styles';
                    layout := layout desc |}),
         snd (color_kids kids p'))
    end.
Proof.
  intros Hseen Hskip. cbn [_process_component_for_color]. rewrite Hseen, Hskip.
  cbv zeta. destruct (children desc) as [kids|]; [|reflexivity].
  change ((fix each (l : list Component) (p0 : list string) {struct l}
             : list Component * list string :=
             match l with
             | [] => ([], p0)
             | k :: r =>
                 let (k', p'0) := color k p0 in
                 let (r', p'') := each r p'0 in (k' :: r', p'')
             end) kids (match i with Some s => s :: p | None => p end))
    with (color_kids kids (match i with Some s => s :: p | None => p end)).
  now destruct (color_kids kids _).
Qed.

(** In every other case the component is returned as it is. *)
Lemma color_skip c p :
  match c with
  | MkComponent i t co d =>
      (match i with Some s => str_in s p | None => false end) = true
      \/ (match t with Some s => str_in s skipped_types | None => false end) = true
      \/ d = None
  end ->
  fst (color c p) = c.
Proof.
  destruct c as [i t co d]. cbn [_process_component_for_color].
  intros [H|[H|H]].
  - now rewrite H.
  - rewrite H. now destruct (match i with Some s => str_in s p | None => false end).
  - subst d.
    destruct (match i with Some s => str_in s p | None => false end); [reflexivity|].
    now destruct (match t with Some s => str_in s skipped_types | None => false end).
Qed.

Lemma color_cases c p :
  fst (color c p) = c
  \/ exists i t co desc,
       c = MkComponent i t co (Some desc)
       /\ (match i with Some s => str_in s p | None => false end) = false
       /\ (match t with Some s => str_in s skipped_types | None => false end) = false.
Proof.
  destruct c as [i t co d].
  destruct (match i with Some s => str_in s p | None => false end) eqn:Hseen.
  { left. apply color_skip. now left. }
  destruct (match t with Some s => str_in s skipped_types | None => false end) eqn:Hskip.
  { left. apply color_skip. right. now left. }
  destruct d as [desc|].
  - right. exists i, t, co, desc. auto.
  - left. apply color_skip. right. now right.
Qed.

Lemma color_kids_cons k r p :
  color_kids (k :: r) p
  = (fst (color k p) :: fst (color_kids r (snd (color k p))),
     snd (color_kids r (snd (color k p)))).
Proof.
  cbn [color_children]. destruct (color k p) as [k' p']. simpl.
  now destruct (color_kids r p').
Qed.

Lemma color_kids_map (Q : Component -> Prop) (A : Type) (g : Component -> A) kids :
  Forall Q kids ->
  (forall k p, Q k -> g (fst (color k p)) = g k) ->
  forall p, map g (fst (color_kids kids p)) = map g kids.
Proof.
  intros Hall Hg. induction Hall as [|k r Hk Hr IH]; intro p; [reflexivity|].
  rewrite color_kids_cons. simpl. now rewrite Hg, IH.
Qed.

Lemma with_palette_erased cp st :
  match with_palette cp st with
  | Some s => Some {| width := width s; height := height s; colorPalette := [] |}
  | None => None
  end
  = match st with
    | Some s => Some {| width := width s; height := height s; colorPalette := [] |}
    | None => None
    end.
Proof. destruct cp, st; reflexivity. Qed.

(** *** Nothing but palettes *)

Lemma color_frame c : forall p, without_palettes (fst (color c p)) = without_palettes c.
Proof.
  induction c as [c IH] using Component_induction. intro p.
  destruct (color_cases c p) as [->|(i & t & co & desc & -> & Hseen & Hskip)];
    [reflexivity|].
  rewrite (color_unfold _ _ _ _ _ Hseen Hskip). cbv zeta.
  unfold children_or_empty in IH. cbn [description] in IH.
  destruct (children desc) as [kids|] eqn:Ek; cbn [fst without_palettes children styles
    description_type description_text content layout]; rewrite with_palette_erased, Ek.
  - f_equal. f_equal. f_equal. f_equal.
    rewrite <- (map_id (map without_palettes kids)).
    rewrite <- (color_kids_map _ _ without_palettes kids IH
                  (fun k q Hk => Hk q) (match i with Some s => s :: p | None => p end)).
    now rewrite map_id.
  - reflexivity.
Qed.

Lemma color_entries_frame f : forall p,
  map (fun e => (fst e, without_palettes (snd e)))
      (color_entries palette_of img_width img_height f p)
  = map (fun e => (fst e, without_palettes (snd e))) f.
Proof.
  induction f as [|[k c] rest IH]; intro p; [reflexivity|].
  cbn [color_entries]. pose proof (color_frame c p) as Hc.
  destruct (color c p) as [c' p']. simpl in *. now rewrite Hc, IH.
Qed.

(** *** Trees without styles *)

Lemma color_bare c :
  Forall no_styles (nodes c) -> forall p, fst (color c p) = c.
Proof.
  induction c as [c IH] using Component_induction. intros Hbare p.
  destruct (color_cases c p) as [->|(i & t & co & desc & -> & Hseen & Hskip)];
    [reflexivity|].
  rewrite (color_unfold _ _ _ _ _ Hseen Hskip). cbv zeta.
  rewrite HierarchyProperties.nodes_unfold in Hbare.
  inversion Hbare as [|? ? Hhere Hbelow]; subst.
  unfold no_styles in Hhere. cbn [description] in Hhere.
  unfold children_or_empty in IH, Hbelow. cbn [description] in IH, Hbelow.
  destruct desc as [dt dx ct [kids|] st ly]; cbn [styles children] in *; subst st.
  - cbn [fst description_type description_text content layout children styles].
    assert (Hkids : fst (color_kids kids (match i with Some s => s :: p | None => p end))
                    = kids).
    { rewrite <- (map_id kids) at 2. rewrite <- (map_id (fst _)).
      apply (color_kids_map (fun k => Forall no_styles (nodes k) /\
                                      forall q, Forall no_styles (nodes k) ->
                                                fst (color k q) = k)).
      - rewrite Forall_forall in *. intros k Hk. split.
        + rewrite Forall_forall. intros n Hn. apply Hbelow.
          apply in_flat_map. exists k. split; assumption.
        + intros q Hq. now apply IH.
      - intros k q [Hk Hid]. now apply Hid. }
    rewrite Hkids. destruct (crop_palette _ _ _ co); reflexivity.
  - destruct (crop_palette _ _ _ co); reflexivity.
Qed.

Lemma color_children_kept c :
  Forall (fun g => Forall no_styles (nodes g)) (children_or_empty c) ->
  forall p, children_or_empty (fst (color c p)) = children_or_empty c.
Proof.
  intros Hbare p.
  destruct (color_cases c p) as [->|(i & t & co & desc & -> & Hseen & Hskip)];
    [reflexivity|].
  rewrite (color_unfold _ _ _ _ _ Hseen Hskip). cbv zeta.
  unfold children_or_empty in *. cbn [description] in *.
  destruct (children desc) as [kids|]; cbn [fst description children]; [|reflexivity].
  rewrite <- (map_id kids) at 2. rewrite <- (map_id (fst _)).
  apply (color_kids_map (fun g => Forall no_styles (nodes g))); [assumption|].
  intros k q Hk. now apply color_bare.
Qed.

Lemma children_of_described i t co (desc : Description Component) :
  children_or_empty (MkComponent i t co (Some desc))
  = match children desc with Some l => l | None => [] end.
Proof. reflexivity. Qed.

Lemma color_grandchildren_kept c :
  Forall (Forall (fun g => Forall no_styles (nodes g))) (grandchildren c) ->
  forall p, grandchildren (fst (color c p)) = grandchildren c.
Proof.
  intros Hbare p. unfold grandchildren in *.
  destruct (color_cases c p) as [->|(i & t & co & desc & -> & Hseen & Hskip)];
    [reflexivity|].
  rewrite (color_unfold _ _ _ _ _ Hseen Hskip). cbv zeta.
  rewrite children_of_described in Hbare. rewrite (children_of_described i t co desc).
  destruct (children desc) as [kids|]; cbn [fst]; rewrite children_of_described;
    cbn [children]; [|reflexivity].
  apply (color_kids_map (fun k => Forall (fun g => Forall no_styles (nodes g))
                                    (children_or_empty k))).
  - rewrite Forall_map in Hbare. exact Hbare.
  - intros k q Hk. now apply color_children_kept.
Qed.

Lemma color_entries_keys f : forall p,
  map fst (color_entries palette_of img_width img_height f p) = map fst f.
Proof.
  induction f as [|[k c] rest IH]; intro p; [reflexivity|].
  cbn [color_entries]. destruct (color c p) as [c' p']. simpl. now rewrite IH.
Qed.

Lemma color_entries_grandchildren f :
  Forall (fun e => Forall (Forall (fun g => Forall no_styles (nodes g)))
                     (grandchildren (snd e))) f ->
  forall p,
    map (fun e => grandchildren (snd e))
        (color_entries palette_of img_width img_height f p)
    = map (fun e => grandchildren (snd e)) f.
Proof.
  induction 1 as [|[k c] rest Hc Hrest IH]; intro p; [reflexivity|].
  cbn [color_entries]. pose proof (color_grandchildren_kept c Hc p) as Hg.
  destruct (color c p) as [c' p']. simpl in *. now rewrite Hg, IH.
Qed.

End Run.

(** The color step changes nothing but palettes.  Whatever the image
    and the palette extractor give, the hierarchy that
    [extract_color_palettes] returns differs from the one it is given
    at most in [colorPalette] entries: with every palette emptied the
    two are equal, key by key and node by node, so that ids, types,
    coordinates, texts, media lists, sizes and layout records are
    untouched and no node is added, dropped or moved. *)
Theorem color_step_changes_palettes_only
    (palette_of : Z -> Z -> Z -> Z -> list string) (img_width img_height : Z)
    (json_data : Forest) :
  map (fun e => (fst e, without_palettes (snd e)))
      (extract_color_palettes palette_of img_width img_height json_data)
  = map (fun e => (fst e, without_palettes (snd e))) json_data.
Proof. apply color_entries_frame. Qed.

(** *** The heuristic pipeline below the children *)

Lemma process_structure_grandchildren (f out : Forest) :
  process_component_structure f = Some out ->
  map (fun e => grandchildren (snd e)) out = map (fun e => grandchildren (snd e)) f.
Proof.
  intro H. apply (HierarchyProperties.omap_list_map _ _ _ _ _ H).
  intros [k c] [k' c'] _ He. unfold obind in He.
  destruct (process_top_level c) as [c1|] eqn:Ec; [|discriminate].
  injection He as _ <-. simpl.
  exact (LayoutFacts.process_top_level_grandchildren _ _ Ec).
Qed.

Lemma nodes_of_grandchild c gs g n :
  In gs (grandchildren c) -> In g gs -> In n (nodes g) -> In n (nodes c).
Proof.
  unfold grandchildren. intros Hgs Hg Hn.
  apply in_map_iff in Hgs. destruct Hgs as (k & <- & Hk).
  rewrite HierarchyProperties.nodes_unfold. right.
  apply in_flat_map. exists k. split; [assumption|].
  rewrite HierarchyProperties.nodes_unfold. right.
  apply in_flat_map. exists g. split; assumption.
Qed.

(** Every node that the builder makes is without styles and layout. *)
Lemma built_nodes_bare input image forest :
  Hierarchy.convert_json_structure input image = Some forest ->
  forall n, In n (forest_nodes forest) -> no_styles n /\ has_layout n = false.
Proof.
  intros Hf n Hn. unfold forest_nodes in Hn.
  apply in_flat_map in Hn. destruct Hn as (e & He & Hn).
  destruct (HierarchyProperties.convert_entries _ _ _ Hf e He) as (r & _ & _ & Hb).
  pose proof (HierarchyFacts.component_table_inv input image) as Hinv.
  destruct (Hierarchy.component_table input image) as [table tracking]. simpl in *.
  destruct (HierarchyProperties.build_nodes _ _ _ _ _ Hb) as [Hall _].
  destruct (Hall _ Hn) as (x & fuel' & _ & Hbx).
  destruct (HierarchyProperties.build_copies input table tracking Hinv _ _ _ Hbx)
    as (comp & _ & Hcopy & _).
  destruct Hcopy as (_ & _ & _ & d & Hd & _ & _ & _ & Hst & Hly).
  unfold no_styles, has_layout. rewrite Hd, Hly. auto.
Qed.

(** Below the children of the top-level components the heuristic
    pipeline changes nothing.  For every input, either mode of the
    builder and whatever the palette extractor returns, the three steps
    build, annotate and color run through, and in their result the
    subtrees below the children of the top-level components are exactly
    the subtrees that the builder made: every node of them is without
    styles, hence without a color palette, and without a layout
    record. *)
Theorem heuristic_pipeline_below_children (input : list Hierarchy.Element)
    (image : option Hierarchy.ImageInfo)
    (palette_of : Z -> Z -> Z -> Z -> list string) (img_width img_height : Z) :
  exists forest laid,
    Hierarchy.convert_json_structure input image = Some forest
    /\ process_component_structure forest = Some laid
    /\ let final := extract_color_palettes palette_of img_width img_height laid in
       map fst final = map fst forest
       /\ map (fun e => grandchildren (snd e)) final
          = map (fun e => grandchildren (snd e)) forest
       /\ Forall (fun e =>
                    Forall (Forall (fun g =>
                              Forall (fun n => no_styles n /\ has_layout n = false)
                                     (nodes g)))
                           (grandchildren (snd e)))
                 final.
Proof.
  destruct (HierarchyProperties.convert_total input image) as [forest Hf].
  destruct (LayoutProperties.process_structure_ids forest
              (LayoutProperties.built_roots_have_coordinates _ _ _ Hf))
    as (laid & Hlaid & Hkeys & _).
  exists forest, laid. split; [exact Hf|]. split; [exact Hlaid|]. cbv zeta.
  pose proof (process_structure_grandchildren _ _ Hlaid) as Hdeep.
  assert (Hbuilt : Forall (Forall (Forall (fun g =>
                     Forall (fun n => no_styles n /\ has_layout n = false) (nodes g))))
                     (map (fun e => grandchildren (snd e)) forest)).
  { rewrite Forall_map, Forall_forall. intros e He.
    rewrite Forall_forall. intros gs Hgs. rewrite Forall_forall. intros g Hg.
    rewrite Forall_forall. intros n Hn.
    apply (built_nodes_bare _ _ _ Hf). unfold forest_nodes.
    apply in_flat_map. exists e. split; [assumption|].
    eapply nodes_of_grandchild; eassumption. }
  assert (Hfinal : map (fun e => grandchildren (snd e))
                     (extract_color_palettes palette_of img_width img_height laid)
                   = map (fun e => grandchildren (snd e)) forest).
  { rewrite <- Hdeep. apply color_entries_grandchildren.
    rewrite <- Forall_map with (f := fun e => grandchildren (snd e))
      (P := Forall (Forall (fun g => Forall no_styles (nodes g)))).
    rewrite Hdeep. eapply Forall_impl; [|exact Hbuilt].
    intros gss Hgss. eapply Forall_impl; [|exact Hgss].
    intros gs Hgs. eapply Forall_impl; [|exact Hgs].
    intros g Hg. eapply Forall_impl; [|exact Hg]. now intros n [Hn _]. }
  split; [|split].
  - unfold extract_color_palettes. now rewrite color_entries_keys.
  - exact Hfinal.
  - rewrite <- Forall_map with (f := fun e => grandchildren (snd e))
      (P := Forall (Forall (fun g =>
              Forall (fun n => no_styles n /\ has_layout n = false) (nodes g)))).
    rewrite Hfinal. exact Hbuilt.
Qed.

End PaletteProperties.

(** ** The response parser and the nested-element filter *)

Module BboxProperties.
Import Text Json Bbox BboxFacts Sequences.

(** *** The third parsing tier *)

(** A text that opens a list with the letter b is not JSON. *)
Lemma loads_bracket_b (rest : string) :
  loads (String "["%char (String "b"%char rest)) = SyntaxError.
Proof.
  unfold loads. cbn [list_ascii_of_string length].
  replace (2 * S (S (length (list_ascii_of_string rest))) + 2)%nat
    with (S (S (S (2 * length (list_ascii_of_string rest) + 3)))) by lia.
  reflexivity.
Qed.

Lemma match_component_group (s : list ascii) (group : string) (n : nat) :
  match_component s = Some (group, n) -> group = "box_percent" \/ group = "box_2d".
Proof.
  unfold match_component, obind.
  destruct (starts_with "{" s) as [s1|]; [|discriminate].
  destruct (starts_with _ (lstrip s1)) as [s2|]; [|discriminate].
  destruct (starts_with _ (lstrip s2)) as [s3|]; [|discriminate].
  destruct (span_until dquote s3) as [name s4].
  destruct name as [|c name]; [discriminate|].
  destruct (starts_with _ s4) as [s5|]; [|discriminate].
  destruct (starts_with _ (lstrip s5)) as [s6|]; [|discriminate].
  assert (Hgs : forall gs : string * list ascii,
            match starts_with "box_percent" s6 with
            | Some rest => Some ("box_percent", rest)
            | None =>
                match starts_with "box_2d" s6 with
                | Some rest => Some ("box_2d", rest)
                | None => None
                end
            end = Some gs ->
            fst gs = "box_percent" \/ fst gs = "box_2d").
  { intro gs. destruct (starts_with "box_percent" s6); [intros [= <-]; now left|].
    destruct (starts_with "box_2d" s6); [intros [= <-]; now right|discriminate]. }
  destruct (match starts_with "box_percent" s6 with Some _ => _ | None => _ end)
    as [[g s7]|]; [|discriminate].
  specialize (Hgs (g, s7) eq_refl). simpl in Hgs.
  destruct (starts_with _ s7) as [s8|]; [|discriminate].
  destruct (starts_with "[" (lstrip s8)) as [s9|]; [|discriminate].
  destruct (span_until "]"%char s9) as [body s10].
  destruct body as [|b body]; [discriminate|].
  destruct (starts_with "]" s10) as [s11|]; [|discriminate].
  destruct (starts_with "}" (lstrip s11)) as [s12|]; [|discriminate].
  intros [= <- _]. exact Hgs.
Qed.

Lemma findall_groups (s : list ascii) : forall skip g,
  In g (findall_from skip s) -> g = "box_percent" \/ g = "box_2d".
Proof.
  induction s as [|c t IH]; intros skip g Hin; [destruct Hin|].
  cbn [findall_from] in Hin. destruct skip as [|k]; [|now apply (IH k)].
  destruct (match_component (c :: t)) as [[group remaining]|] eqn:Em;
    [|now apply (IH 0%nat)].
  destruct Hin as [<-|Hin]; [now apply match_component_group in Em|].
  exact (IH _ g Hin).
Qed.

(** What the third tier hands to the decoder is never JSON. *)
Lemma loads_of_groups (matches : list string) :
  matches <> [] ->
  (forall g, In g matches -> g = "box_percent" \/ g = "box_2d") ->
  loads ("[" ++ String.concat "," matches ++ "]") = SyntaxError.
Proof.
  intros Hne Hall. destruct matches as [|g t]; [congruence|].
  destruct (Hall g (or_introl eq_refl)) as [-> | ->];
    destruct t as [|g' t']; apply loads_bracket_b.
Qed.

(** The third tier never recovers anything.  The pattern of the third
    tier has one group, so that [re.findall] lists the group of each
    match, the key name [box_percent] or [box_2d], and not the matched
    objects; the text assembled from them is never JSON.  Whatever the
    response is, the data the parser works on comes from the direct
    decoding or from the decoding after the cleanup, and a response on
    which both fail gives the empty list. *)
Theorem third_tier_never_succeeds (cleaned_text : string) :
  (forall data, parse_tiers cleaned_text <> Returned (Some (Regex, data)))
  /\ (loads cleaned_text = SyntaxError ->
      loads (cleanup cleaned_text) = SyntaxError ->
      parse_tiers cleaned_text = Returned None)
  /\ (forall response_text,
        strip_fences response_text = cleaned_text ->
        loads cleaned_text = SyntaxError ->
        loads (cleanup cleaned_text) = SyntaxError ->
        parse_gemini_response response_text = Returned []).
Proof.
  assert (Hnone : loads cleaned_text = SyntaxError ->
                  loads (cleanup cleaned_text) = SyntaxError ->
                  parse_tiers cleaned_text = Returned None).
  { intros H1 H2. unfold parse_tiers. rewrite H1, H2.
    destruct (findall_component (cleanup cleaned_text)) as [|g t] eqn:Ef; [reflexivity|].
    rewrite loads_of_groups; [reflexivity|discriminate|].
    intros x Hx. rewrite <- Ef in Hx. now apply findall_groups in Hx. }
  split; [|split].
  - intros data H.
    destruct (loads cleaned_text) eqn:H1;
      [unfold parse_tiers in H; rewrite H1 in H; discriminate|
      |unfold parse_tiers in H; rewrite H1 in H; discriminate].
    destruct (loads (cleanup cleaned_text)) eqn:H2;
      [unfold parse_tiers in H; rewrite H1, H2 in H; discriminate|
      |unfold parse_tiers in H; rewrite H1, H2 in H; discriminate].
    rewrite (Hnone eq_refl eq_refl) in H. discriminate.
  - exact Hnone.
  - intros response_text Hs H1 H2. unfold parse_gemini_response.
    destruct (String.eqb response_text ""); [reflexivity|].
    now rewrite Hs, (Hnone H1 H2).
Qed.

Lemma third_tier_never_succeeds_witness :
  findall_component (quoted "see {'label':'a','box_2d':[1,2,3,4]}") = ["box_2d"]
  /\ parse_gemini_response (quoted "see {'label':'a','box_2d':[1,2,3,4]}") = Returned [].
Proof.
  split; [vm_compute; reflexivity|].
  destruct (third_tier_never_succeeds
              (strip_fences (quoted "see {'label':'a','box_2d':[1,2,3,4]}")))
    as (_ & _ & H).
  apply H; vm_compute; reflexivity.
Defined.

(** *** The nested-element filter *)

Lemma filter_loop_sublist parents components : forall out,
  filter_loop parents components = Some out -> sublist out components.
Proof.
  induction components as [|c rest IH]; intros out H; simpl in H.
  - injection H as <-. constructor.
  - unfold obind in H.
    destruct (keep_component parents c) as [keep|]; [|discriminate].
    destruct (filter_loop parents rest) as [filtered|]; [|discriminate].
    injection H as <-. destruct keep; constructor; now apply IH.
Qed.

Lemma filter_loop_in parents components : forall out c,
  filter_loop parents components = Some out ->
  In c components -> keep_component parents c = Some true -> In c out.
Proof.
  induction components as [|c' rest IH]; intros out c H Hin Hkeep; [destruct Hin|].
  simpl in H. unfold obind in H.
  destruct (keep_component parents c') as [keep|] eqn:Ek; [|discriminate].
  destruct (filter_loop parents rest) as [filtered|]; [|discriminate].
  injection H as <-. destruct Hin as [->|Hin].
  - rewrite Hkeep in Ek. injection Ek as <-. now left.
  - specialize (IH filtered c eq_refl Hin Hkeep). destruct keep; [now right|assumption].
Qed.

Lemma filter_loop_defined parents components out c :
  filter_loop parents components = Some out -> In c components ->
  exists keep, keep_component parents c = Some keep.
Proof.
  revert out. induction components as [|c' rest IH]; intros out H Hin; [destruct Hin|].
  simpl in H. unfold obind in H.
  destruct (keep_component parents c') as [keep|] eqn:Ek; [|discriminate].
  destruct (filter_loop parents rest) as [filtered|]; [|discriminate].
  destruct Hin as [->|Hin]; [eauto|]. now apply (IH filtered).
Qed.

(** The filter only drops.  Whenever it returns, its result is the
    input with some components left out: the components that stay keep
    their order and their multiplicity.  A component whose label
    contains "image" (in any letter case) always stays; and when no
    component carries a container label, nothing is dropped at all. *)
Theorem filter_only_drops (components out : list json) :
  filter_nested_elements components = Some out ->
  sublist out components
  /\ (forall c label,
        In c components -> component_label c = Some label ->
        contains "image" label = true -> In c out)
  /\ (collect_parents components = Some [] -> out = components).
Proof.
  unfold filter_nested_elements, obind.
  destruct (collect_parents components) as [parents|] eqn:Ep; [|discriminate].
  intro H. split; [|split].
  - now apply filter_loop_sublist in H.
  - intros c label Hin Hl Himg.
    apply (filter_loop_in _ _ _ _ H Hin).
    destruct (filter_loop_defined _ _ _ _ H Hin) as [keep Hk].
    unfold keep_component, obind in *. rewrite Hl in *.
    destruct (box_of c); [|discriminate]. now rewrite Himg.
  - intros [= ->].
    assert (Hall : Forall (fun c => keep_component [] c = Some true) components).
    { rewrite Forall_forall. intros c Hin.
      destruct (filter_loop_defined _ _ _ _ H Hin) as [keep Hk].
      unfold keep_component, obind in *.
      destruct (component_label c); [|discriminate].
      destruct (box_of c); [|discriminate].
      now destruct (contains "image" s). }
    rewrite (filter_loop_fixed _ _ Hall) in H. now injection H as <-.
Qed.

Lemma filter_only_drops_witness :
  exists out,
    filter_nested_elements page_components = Some out
    /\ sublist out page_components
    /\ In (JObj [("label", JStr "image_1");
                 ("box_percent", JArr [JNum 1; JNum 1; JNum 5; JNum 5])]) out.
Proof.
  eexists. split; [vm_compute; reflexivity|].
  destruct (filter_only_drops page_components _ ltac:(vm_compute; reflexivity))
    as (Hsub & Himg & _).
  split; [exact Hsub|].
  apply (Himg _ "image_1"); [simpl; tauto|reflexivity|reflexivity].
Defined.

End BboxProperties.

(** ** Stored percentages in double precision *)

Module Float64Properties.
Import Layout LayoutProperties Float64.

(** *** Powers of two and the binary exponent *)

Lemma pow2_pos (e : Z) : (0 < pow2 e)%Q.
Proof. apply Qpower_0_lt. reflexivity. Qed.

Lemma pow2_add (a b : Z) : (pow2 (a + b) == pow2 a * pow2 b)%Q.
Proof. apply Qpower_plus. discriminate. Qed.

Lemma pow2_lt_inv (a b : Z) : (pow2 a < pow2 b)%Q -> a < b.
Proof. intro H. apply (Qpower_lt_compat_l_inv 2); [assumption|reflexivity]. Qed.

Lemma pow2_succ (a : Z) : (pow2 (a + 1) == 2 * pow2 a)%Q.
Proof. rewrite pow2_add. change (pow2 1) with 2%Q. ring. Qed.

Lemma pow2_Z (a : Z) : 0 <= a -> (inject_Z (2 ^ a) == pow2 a)%Q.
Proof. intro H. now apply Zpower_Qpower. Qed.

Lemma Qabs_make (x : Q) : Qabs x = (Z.abs (Qnum x) # Qden x)%Q.
Proof. now destruct x. Qed.

Lemma binade_spec (x : Q) :
  ~ (x == 0)%Q -> (pow2 (binade x) <= Qabs x /\ Qabs x < pow2 (binade x + 1))%Q.
Proof.
  intro Hx. unfold binade.
  set (n := Z.abs (Qnum x)). set (d := Zpos (Qden x)).
  assert (Hn : 0 < n).
  { unfold n. assert (Qnum x <> 0); [|lia]. intro H. apply Hx.
    unfold Qeq. simpl. lia. }
  assert (Hd : 0 < d) by (unfold d; lia).
  destruct (Z.log2_spec n Hn) as [Hn1 Hn2].
  destruct (Z.log2_spec d Hd) as [Hd1 Hd2].
  pose proof (Z.log2_nonneg n) as Ha. pose proof (Z.log2_nonneg d) as Hb.
  set (a := Z.log2 n) in *. set (b := Z.log2 d) in *.
  rewrite Z.pow_succ_r in Hn2, Hd2 by assumption.
  assert (Habs : (Qabs x == inject_Z n / inject_Z d)%Q).
  { rewrite Qabs_make. fold n. unfold d. apply Qmake_Qdiv. }
  assert (HA := pow2_pos a). assert (HB := pow2_pos b).
  rewrite Zle_Qle in Hn1, Hd1. rewrite Zlt_Qlt in Hn2, Hd2, Hd.
  rewrite inject_Z_mult in Hn2, Hd2. rewrite pow2_Z in Hn1, Hn2, Hd1, Hd2 by assumption.
  change (inject_Z 2) with 2%Q in *. change (inject_Z 0) with 0%Q in Hd.
  assert (Hupper : (Qabs x < pow2 (a - b + 1))%Q).
  { rewrite Habs. apply Qlt_shift_div_r; [assumption|].
    replace (a - b + 1) with ((a + 1) + - b) by ring.
    rewrite pow2_add, pow2_succ. unfold pow2 at 2. rewrite Qpower_opp. fold (pow2 b).
    apply Qlt_le_trans with (2 * pow2 a * / pow2 b * pow2 b)%Q.
    - setoid_replace (2 * pow2 a * / pow2 b * pow2 b)%Q with (2 * pow2 a)%Q; [assumption|].
      field. intro H. rewrite H in HB. discriminate.
    - apply Qmult_le_l; [|assumption].
      apply Qmult_lt_0_compat; [lra|]. now apply Qinv_lt_0_compat. }
  assert (Hlower : (pow2 (a - b - 1) <= Qabs x)%Q).
  { rewrite Habs. apply Qle_shift_div_l; [assumption|].
    replace (a - b - 1) with (a + - (b + 1)) by ring.
    rewrite pow2_add. unfold pow2 at 2. rewrite Qpower_opp. fold (pow2 (b + 1)).
    rewrite pow2_succ.
    apply Qle_trans with (pow2 a * / (2 * pow2 b) * (2 * pow2 b))%Q.
    - apply Qmult_le_l; [|lra].
      apply Qmult_lt_0_compat; [assumption|]. apply Qinv_lt_0_compat. lra.
    - setoid_replace (pow2 a * / (2 * pow2 b) * (2 * pow2 b))%Q with (pow2 a);
        [assumption|].
      field. intro H. rewrite H in HB. discriminate. }
  destruct (Qle_bool (pow2 (a - b)) (Qabs x)) eqn:E.
  - apply Qle_bool_iff in E. split; assumption.
  - replace (a - b - 1 + 1) with (a - b) by ring. split; [assumption|].
    apply Qnot_le_lt. intro H. apply Qle_bool_iff in H. congruence.
Qed.

(** *** Rounding to the nearest double *)

Lemma nearest_zero (x : Q) : (x == 0)%Q -> nearest x = 0%Q.
Proof. intro H. unfold nearest. apply Qeq_bool_iff in H. now rewrite H. Qed.

Lemma nearest_near (x : Q) :
  (x - spacing x * (1#2) <= nearest x /\ nearest x <= x + spacing x * (1#2))%Q.
Proof.
  assert (Hs : (0 < spacing x)%Q) by apply pow2_pos.
  unfold nearest. destruct (Qeq_bool x 0) eqn:E.
  - apply Qeq_bool_iff in E. split; lra.
  - destruct (round_half_even_near (x / spacing x)) as [H1 H2].
    set (m := inject_Z (round_half_even (x / spacing x))) in *. clearbody m.
    set (s := spacing x) in *. clearbody s.
    assert (Hx : (x == x / s * s)%Q) by (field; lra).
    apply (Qmult_le_compat_r _ _ s) in H1; [|lra].
    apply (Qmult_le_compat_r _ _ s) in H2; [|lra].
    split; lra.
Qed.

Lemma spacing_normal (x : Q) :
  (pow2 (-1022) <= Qabs x)%Q -> (spacing x <= Qabs x * (2 * eps))%Q.
Proof.
  intro H.
  assert (Hx : ~ (x == 0)%Q).
  { intro E. assert (E0 : (Qabs x == 0)%Q) by (rewrite E; reflexivity).
    pose proof (pow2_pos (-1022)). lra. }
  destruct (binade_spec x Hx) as [Hlo Hhi].
  assert (Hb : -1022 < binade x + 1).
  { apply pow2_lt_inv. lra. }
  unfold spacing. rewrite Z.max_l by lia.
  replace (binade x - 52) with (binade x + -52) by ring.
  rewrite pow2_add.
  assert (E : (pow2 (-52) == 2 * eps)%Q) by (vm_compute; reflexivity).
  rewrite E. apply Qmult_le_compat_r; [assumption|]. unfold eps. lra.
Qed.

Lemma nearest_relative (x : Q) :
  (pow2 (-1022) <= Qabs x)%Q ->
  (x - Qabs x * eps <= nearest x /\ nearest x <= x + Qabs x * eps)%Q.
Proof.
  intro H. pose proof (spacing_normal x H) as Hs.
  destruct (nearest_near x) as [H1 H2]. split; lra.
Qed.

Lemma of_exact_finite (x : Q) :
  (Qabs (nearest x) < pow2 1024)%Q -> of_exact x = Finite (nearest x).
Proof.
  intro H. unfold of_exact.
  destruct (Qle_bool (pow2 1024) (Qabs (nearest x))) eqn:E; [|reflexivity].
  apply Qle_bool_iff in E. lra.
Qed.

Lemma round_half_even_unique (y : Q) (k : Z) :
  (inject_Z k - (1#2) < y /\ y < inject_Z k + (1#2))%Q -> round_half_even y = k.
Proof.
  intros [H1 H2]. destruct (round_half_even_near y) as [H3 H4].
  set (z := round_half_even y) in *. clearbody z.
  assert (Ha : (inject_Z z < inject_Z k + 1)%Q) by lra.
  assert (Hb : (inject_Z k < inject_Z z + 1)%Q) by lra.
  change 1%Q with (inject_Z 1) in Ha, Hb. rewrite <- inject_Z_plus in Ha, Hb.
  rewrite <- Zlt_Qlt in Ha, Hb. lia.
Qed.

Lemma tiny_bound : (pow2 (-1022) <= 1 # 1000000000000000)%Q.
Proof. vm_compute. discriminate. Qed.

Lemma huge_bound : (1000000000000000000 <= pow2 1024)%Q.
Proof. vm_compute. discriminate. Qed.

Ltac abs_of t :=
  let H := fresh "Habs" in
  first [ assert (H : (Qabs t == t)%Q) by (apply Qabs_pos; lra)
        | assert (H : (Qabs t == - t)%Q) by (apply Qabs_neg; lra) ].

(** Numbers of moderate size are far from the subnormal range and from
    overflow. *)
Lemma nearest_moderate (x : Q) :
  (1 # 1000000000000000 <= Qabs x)%Q ->
  (x - Qabs x * eps <= nearest x /\ nearest x <= x + Qabs x * eps)%Q.
Proof.
  intro H. apply nearest_relative. pose proof tiny_bound. lra.
Qed.

Lemma of_exact_moderate (x : Q) :
  (1 # 1000000000000000 <= Qabs x)%Q -> (Qabs x <= 100000000000000000)%Q ->
  of_exact x = Finite (nearest x).
Proof.
  intros H1 H2. apply of_exact_finite.
  destruct (nearest_moderate x H1) as [H3 H4].
  pose proof huge_bound. unfold eps in *.
  apply Qabs_Qlt_condition.
  destruct (Qlt_le_dec x 0) as [Hx|Hx]; abs_of x; split; lra.
Qed.

Lemma round2_double_finite (v : Q) :
  (Qabs v <= 100000000000000)%Q ->
  of_exact (round2 v) = Finite (nearest (round2 v)).
Proof.
  intro Hv. unfold round2.
  destruct (round_half_even_near (v * 100)) as [H1 H2].
  set (k := round_half_even (v * 100)) in *.
  destruct (Z.eq_dec k 0) as [->|Hk]; [vm_compute; reflexivity|].
  assert (Hr : (inject_Z k / 100 == inject_Z k * (1#100))%Q) by (field).
  apply Qabs_Qle_condition in Hv. destruct Hv as [Hv1 Hv2].
  apply of_exact_moderate.
  - destruct (Z_lt_le_dec k 0) as [Hneg|Hpos].
    + assert (Hk1 : k <= -1) by lia. rewrite Zle_Qle in Hk1.
      change (inject_Z (-1)) with (-1)%Q in Hk1.
      rewrite Qabs_neg by lra. lra.
    + assert (Hk1 : 1 <= k) by lia. rewrite Zle_Qle in Hk1.
      change (inject_Z 1) with 1%Q in Hk1.
      rewrite Qabs_pos by lra. lra.
  - apply Qabs_Qle_condition. split; lra.
Qed.

(** The quotient and the product of the percentage expression: two
    roundings, each within [2 ** -53] of its exact argument. *)
Lemma double_chain (q : Q) :
  (1 # 68719476736 <= Qabs q)%Q -> (Qabs q <= 68719476736)%Q ->
  let q1 := nearest q in
  let p1 := nearest (q1 * 100) in
  of_exact q = Finite q1
  /\ of_exact (q1 * 100) = Finite p1
  /\ (Qabs p1 <= 100000000000000)%Q
  /\ (q * 100 * 100 - Qabs q * 10000 * (4 * eps) <= p1 * 100
      /\ p1 * 100 <= q * 100 * 100 + Qabs q * 10000 * (4 * eps))%Q
  /\ (0 <= q -> 0 <= p1)%Q.
Proof.
  intros Hlo Hhi q1 p1.
  assert (H1 : (q - Qabs q * eps <= q1 /\ q1 <= q + Qabs q * eps)%Q).
  { apply nearest_moderate. lra. }
  assert (Hp : (1 # 1000000000000000 <= Qabs (q1 * 100))%Q
               /\ (Qabs (q1 * 100) <= 100000000000000)%Q).
  { unfold eps in H1.
    destruct (Qlt_le_dec q 0) as [Hq|Hq]; abs_of q; abs_of (q1 * 100)%Q; split; lra. }
  destruct Hp as [Hp1 Hp2].
  assert (H2 : (q1 * 100 - Qabs (q1 * 100) * eps <= p1
                /\ p1 <= q1 * 100 + Qabs (q1 * 100) * eps)%Q).
  { apply nearest_moderate. assumption. }
  split; [|split; [|split; [|split]]].
  - apply of_exact_moderate; lra.
  - apply of_exact_moderate; lra.
  - unfold eps in *. apply Qabs_Qle_condition.
    destruct (Qlt_le_dec q 0) as [Hq|Hq]; abs_of q; abs_of (q1 * 100)%Q; split; lra.
  - unfold eps in *.
    destruct (Qlt_le_dec q 0) as [Hq|Hq]; abs_of q; abs_of (q1 * 100)%Q; split; lra.
  - intro Hq. unfold eps in *. abs_of q. abs_of (q1 * 100)%Q. lra.
Qed.

(** *** Ties between two hundredths *)

Lemma halfway_spec (a b : Z) :
  b <> 0 -> halfway a b = true <-> exists m, 20000 * a = (2 * m + 1) * b.
Proof.
  intro Hb. unfold halfway. rewrite Z.eqb_eq. split.
  - intro H. exists ((20000 * a) / (2 * b)).
    pose proof (Z.div_mod (20000 * a) (2 * b) ltac:(lia)) as E. lia.
  - intros [m Hm]. symmetry. apply (Z.mod_unique _ _ m); lia.
Qed.

(** Away from a tie the exact value of [offset / extent * 10000] keeps
    a distance of [1 / (2 * extent)] from the next tie. *)
Lemma round_margin (q : Q) (a b : Z) :
  0 < b -> (q * inject_Z b == inject_Z a)%Q -> halfway a b = false ->
  let k0 := round_half_even (q * 100 * 100) in
  (inject_Z k0 - (1#2) + (1#2) * / inject_Z b <= q * 100 * 100
   /\ q * 100 * 100 <= inject_Z k0 + (1#2) - (1#2) * / inject_Z b)%Q.
Proof.
  intros Hb Hq Hhalf k0.
  destruct (round_half_even_near (q * 100 * 100)) as [H1 H2]. fold k0 in H1, H2.
  assert (HB : (0 < inject_Z b)%Q).
  { change 0%Q with (inject_Z 0). now rewrite <- Zlt_Qlt. }
  assert (Hnot : forall m, 20000 * a <> (2 * m + 1) * b).
  { intros m Hm. assert (Ht : halfway a b = true).
    { apply halfway_spec; [lia|]. now exists m. }
    congruence. }
  assert (HX : (q * 100 * 100 == 10000 * inject_Z a / inject_Z b)%Q).
  { rewrite <- Hq. field. lra. }
  apply (Qmult_le_compat_r _ _ (inject_Z b)) in H1; [|lra].
  apply (Qmult_le_compat_r _ _ (inject_Z b)) in H2; [|lra].
  assert (HXb : (q * 100 * 100 * inject_Z b == 10000 * inject_Z a)%Q).
  { rewrite <- Hq. ring. }
  rewrite HXb in H1, H2.
  assert (Hz1 : 2 * (k0 * b) <= 20000 * a + b).
  { rewrite Zle_Qle, inject_Z_plus, !inject_Z_mult.
    change (inject_Z 2) with 2%Q. change (inject_Z 20000) with 20000%Q. lra. }
  assert (Hz2 : 20000 * a <= 2 * (k0 * b) + b).
  { rewrite Zle_Qle, inject_Z_plus, !inject_Z_mult.
    change (inject_Z 2) with 2%Q. change (inject_Z 20000) with 20000%Q. lra. }
  assert (Hs1 : 2 * (k0 * b) + 1 <= 20000 * a + b).
  { specialize (Hnot (k0 - 1)). lia. }
  assert (Hs2 : 20000 * a + 1 <= 2 * (k0 * b) + b).
  { specialize (Hnot k0). lia. }
  rewrite Zle_Qle in Hs1, Hs2.
  rewrite !inject_Z_plus, !inject_Z_mult in Hs1, Hs2.
  change (inject_Z 2) with 2%Q in Hs1, Hs2.
  change (inject_Z 20000) with 20000%Q in Hs1, Hs2.
  change (inject_Z 1) with 1%Q in Hs1, Hs2.
  rewrite HX. split.
  - apply Qle_shift_div_l; [assumption|].
    setoid_replace ((inject_Z k0 - (1#2) + (1#2) * / inject_Z b) * inject_Z b)%Q
      with (inject_Z k0 * inject_Z b - (1#2) * inject_Z b + (1#2))%Q
      by (field; lra).
    lra.
  - apply Qle_shift_div_r; [assumption|].
    setoid_replace ((inject_Z k0 + (1#2) - (1#2) * / inject_Z b) * inject_Z b)%Q
      with (inject_Z k0 * inject_Z b + (1#2) * inject_Z b - (1#2))%Q
      by (field; lra).
    lra.
Qed.

Lemma halfway_opp (a b : Z) : b <> 0 -> halfway (- a) (- b) = halfway a b.
Proof.
  intro Hb. apply Bool.eq_iff_eq_true.
  rewrite !halfway_spec by lia.
  split; intros [m Hm]; exists m; lia.
Qed.

(** The ratio of two integers of at most 36 bits. *)
Lemma ratio_bounds (a b : Z) :
  a <> 0 -> b <> 0 -> Z.abs a <= 2 ^ 36 -> Z.abs b <= 2 ^ 36 ->
  let q := (inject_Z a / inject_Z b)%Q in
  let ib := (/ inject_Z (Z.abs b))%Q in
  (0 < ib /\ ib <= 1 /\ ib <= Qabs q /\ Qabs q <= 68719476736 * ib
   /\ 1 # 68719476736 <= ib)%Q.
Proof.
  intros Ha Hb Ha36 Hb36 q ib.
  assert (HA : (1 <= inject_Z (Z.abs a) <= 68719476736)%Q).
  { change 1%Q with (inject_Z 1). change 68719476736%Q with (inject_Z (2 ^ 36)).
    rewrite <- !Zle_Qle. lia. }
  assert (HB : (1 <= inject_Z (Z.abs b) <= 68719476736)%Q).
  { change 1%Q with (inject_Z 1). change 68719476736%Q with (inject_Z (2 ^ 36)).
    rewrite <- !Zle_Qle. lia. }
  assert (Hq : (Qabs q == inject_Z (Z.abs a) * ib)%Q).
  { unfold q, Qdiv. rewrite Qabs_Qmult, Qabs_Qinv. reflexivity. }
  assert (Hib : (0 < ib)%Q) by (apply Qinv_lt_0_compat; lra).
  assert (Hib1 : (ib <= 1)%Q).
  { apply Qle_shift_inv_r; lra. }
  assert (Hib2 : (1 # 68719476736 <= ib)%Q).
  { apply Qle_shift_inv_l; lra. }
  split; [assumption|]. split; [assumption|]. rewrite Hq.
  split; [|split; [|assumption]].
  - setoid_replace ib with (1 * ib)%Q at 1 by ring.
    apply Qmult_le_compat_r; lra.
  - apply Qmult_le_compat_r; lra.
Qed.

(** *** The percentage expression *)

Lemma percent_double_unfold (a b : Z) :
  b <> 0 ->
  let q := (inject_Z a / inject_Z b)%Q in
  of_exact q = Finite (nearest q) ->
  of_exact (nearest q * 100) = Finite (nearest (nearest q * 100)) ->
  of_exact (round2 (nearest (nearest q * 100)))
    = Finite (nearest (round2 (nearest (nearest q * 100)))) ->
  percent_double a b
  = Some (Finite (nearest (round2 (nearest (nearest q * 100))))).
Proof.
  intros Hb q H1 H2 H3. unfold percent_double, true_divide.
  apply Z.eqb_neq in Hb. rewrite Hb. fold q. rewrite H1.
  unfold obind, float_mul, float_round2. rewrite H2, H3. reflexivity.
Qed.

Lemma scaled_ratio (a b : Z) :
  b <> 0 ->
  exists a', (inject_Z a / inject_Z b * inject_Z (Z.abs b) == inject_Z a')%Q
             /\ halfway a' (Z.abs b) = halfway a b.
Proof.
  intro Hb. destruct (Z_lt_le_dec b 0) as [Hneg|Hpos].
  - exists (- a). rewrite Z.abs_neq by lia. split.
    + rewrite !inject_Z_opp. field. now apply inject_Z_nonzero.
    + now apply halfway_opp.
  - exists a. rewrite Z.abs_eq by lia. split; [|reflexivity].
    field. now apply inject_Z_nonzero.
Qed.

Lemma percent_double_nonzero (a b : Z) :
  a <> 0 -> b <> 0 -> Z.abs a <= 2 ^ 36 -> Z.abs b <= 2 ^ 36 ->
  let q := (inject_Z a / inject_Z b)%Q in
  let k0 := round_half_even (q * 100 * 100) in
  exists k : Z,
    percent_double a b = Some (Finite (nearest (inject_Z k / 100)))
    /\ (q * 100 * 100 - (1#2) - Qabs q * 10000 * (4 * eps) <= inject_Z k
        /\ inject_Z k <= q * 100 * 100 + (1#2) + Qabs q * 10000 * (4 * eps))%Q
    /\ (halfway a b = false -> k = k0)
    /\ k0 - 1 <= k <= k0 + 1
    /\ ((0 <= q)%Q -> 0 <= k).
Proof.
  intros Ha Hb Ha36 Hb36 q k0.
  destruct (ratio_bounds a b Ha Hb Ha36 Hb36) as (Hib & Hib1 & Hq1 & Hq2 & Hib2).
  fold q in Hq1, Hq2. set (ib := (/ inject_Z (Z.abs b))%Q) in *.
  destruct (double_chain q) as (E1 & E2 & Hp1 & [Hy1 Hy2] & Hpos); [lra|lra|].
  set (p1 := nearest (nearest q * 100)) in *.
  pose proof (round2_double_finite p1 Hp1) as E3.
  exists (round_half_even (p1 * 100)).
  destruct (round_half_even_near (p1 * 100)) as [Hk1 Hk2].
  destruct (round_half_even_near (q * 100 * 100)) as [Hk3 Hk4]. fold k0 in Hk3, Hk4.
  set (k := round_half_even (p1 * 100)) in *.
  assert (Hclose : k0 - 1 <= k <= k0 + 1).
  { unfold eps in *.
    assert (Hu : (inject_Z k < inject_Z k0 + 2)%Q) by lra.
    assert (Hl : (inject_Z k0 < inject_Z k + 2)%Q) by lra.
    change 2%Q with (inject_Z 2) in Hu, Hl. rewrite <- inject_Z_plus in Hu, Hl.
    rewrite <- Zlt_Qlt in Hu, Hl. lia. }
  split; [|split; [|split; [|split]]].
  - apply (percent_double_unfold a b Hb E1 E2 E3).
  - split; lra.
  - intro Hhalf. destruct (scaled_ratio a b Hb) as (a' & Hqa & Hh).
    rewrite Hhalf in Hh.
    destruct (round_margin q a' (Z.abs b) ltac:(lia) Hqa Hh) as [Hm1 Hm2].
    fold k0 in Hm1, Hm2. fold ib in Hm1, Hm2.
    apply round_half_even_unique. unfold eps in *. split; lra.
  - exact Hclose.
  - intro H0. specialize (Hpos H0).
    assert (Hu : (inject_Z (-1) < inject_Z k)%Q).
    { change (inject_Z (-1)) with (-1)%Q. lra. }
    rewrite <- Zlt_Qlt in Hu. lia.
Qed.

Lemma nearest_hundredth (k : Z) :
  let r := (inject_Z k / 100)%Q in
  (r - Qabs r * eps <= nearest r /\ nearest r <= r + Qabs r * eps)%Q.
Proof.
  intro r. destruct (Z.eq_dec k 0) as [->|Hk].
  { vm_compute. split; discriminate. }
  apply nearest_moderate.
  assert (Hr : (r == inject_Z k * (1#100))%Q) by (unfold r; field).
  destruct (Z_lt_le_dec k 0) as [Hneg|Hpos].
  - assert (Hk1 : k <= -1) by lia. rewrite Zle_Qle in Hk1.
    change (inject_Z (-1)) with (-1)%Q in Hk1.
    rewrite Qabs_neg by lra. lra.
  - assert (Hk1 : 1 <= k) by lia. rewrite Zle_Qle in Hk1.
    change (inject_Z 1) with 1%Q in Hk1.
    rewrite Qabs_pos by lra. lra.
Qed.

Lemma percent_zero (b : Z) : b <> 0 -> (percent 0 b == 0)%Q.
Proof.
  intro Hb. unfold percent. apply Z.eqb_neq in Hb. rewrite Hb. unfold round2.
  assert (E : round_half_even (inject_Z 0 / inject_Z b * 100 * 100) = 0).
  { apply round_half_even_unique. apply Z.eqb_neq in Hb.
    assert (H0 : (inject_Z 0 / inject_Z b * 100 * 100 == 0)%Q).
    { field. now apply inject_Z_nonzero. }
    rewrite H0. split; reflexivity. }
  rewrite E. reflexivity.
Qed.

Lemma percent_double_zero (b : Z) :
  b <> 0 -> percent_double 0 b = Some (Finite (nearest (inject_Z 0 / 100))).
Proof.
  intro Hb. unfold percent_double, true_divide.
  pose proof Hb as Hb'. apply Z.eqb_neq in Hb'. rewrite Hb'.
  assert (H0 : (inject_Z 0 / inject_Z b == 0)%Q).
  { field. now apply inject_Z_nonzero. }
  assert (E : of_exact (inject_Z 0 / inject_Z b) = Finite 0).
  { unfold of_exact. rewrite (nearest_zero _ H0). vm_compute. reflexivity. }
  rewrite E. vm_compute. reflexivity.
Qed.

(** The stored percentage, as the doubles of the source compute it.
    For a zero extent it is 0.  For a non-zero extent and coordinates of
    at most 36 bits the expression raises nothing and returns the double
    nearest to a whole number of hundredths [k / 100], within a relative
    [2 ** -53] of it.  That number is within 0.005 (plus a relative
    [2 ** -51]) of the exact ratio [offset / extent * 100].  Unless the
    exact ratio lies halfway between two hundredths, [k / 100] is the
    exact ratio rounded to two decimals, which is the percentage of
    [Layout.percent]; at such a tie it is that percentage or the
    hundredth next to it.  For an offset between 0 and the extent the
    stored value lies between 0 and 100. *)
Theorem stored_percentage (offset extent : Z) :
  let exact := (inject_Z offset / inject_Z extent * 100)%Q in
  (extent = 0 -> percent_double offset extent = Some (Finite 0))
  /\ (extent <> 0 -> Z.abs offset <= 2 ^ 36 -> Z.abs extent <= 2 ^ 36 ->
      exists k : Z,
        let hundredths := (inject_Z k / 100)%Q in
        percent_double offset extent = Some (Finite (nearest hundredths))
        /\ (Qabs (nearest hundredths - hundredths) <= Qabs hundredths * eps)%Q
        /\ (Qabs (hundredths - exact) <= (1#200) + Qabs exact * (4 * eps))%Q
        /\ (halfway offset extent = false ->
              (hundredths == percent offset extent)%Q)
        /\ (Qabs (hundredths - percent offset extent) <= 1 # 100)%Q
        /\ (0 <= offset <= extent ->
              0 <= k <= 10000 /\ (0 <= nearest hundredths <= 100)%Q)).
Proof.
  cbv zeta. split.
  { intros ->. reflexivity. }
  intros Hb Ha36 Hb36.
  assert (Hnear : forall k,
            (Qabs (nearest (inject_Z k / 100) - inject_Z k / 100)
             <= Qabs (inject_Z k / 100) * eps)%Q).
  { intro k. destruct (nearest_hundredth k) as [H1 H2].
    apply Qabs_Qle_condition. split; lra. }
  destruct (Z.eq_dec offset 0) as [->|Ha].
  - exists 0. split; [now apply percent_double_zero|].
    split; [apply Hnear|].
    pose proof (percent_zero extent Hb) as Hp.
    assert (H0 : (inject_Z 0 / inject_Z extent * 100 == 0)%Q).
    { field. now apply inject_Z_nonzero. }
    split; [|split; [|split]].
    + rewrite H0. vm_compute. discriminate.
    + intros _. rewrite Hp. reflexivity.
    + rewrite Hp. vm_compute. discriminate.
    + intros _. split; [lia|]. vm_compute. split; discriminate.
  - destruct (percent_double_nonzero offset extent Ha Hb Ha36 Hb36)
      as (k & Hk & [Hk1 Hk2] & Hsame & Hclose & Hpos).
    set (q := (inject_Z offset / inject_Z extent)%Q) in *.
    exists k. split; [exact Hk|]. split; [apply Hnear|].
    assert (Hperc : (percent offset extent
                     == inject_Z (round_half_even (q * 100 * 100)) / 100)%Q).
    { unfold percent. pose proof Hb as Hb'. apply Z.eqb_neq in Hb'. rewrite Hb'.
      reflexivity. }
    split; [|split; [|split]].
    + assert (Hq : (Qabs (q * 100) == Qabs q * 100)%Q).
      { rewrite Qabs_Qmult. reflexivity. }
      rewrite Hq. apply Qabs_Qle_condition. unfold eps in *. split.
      * unfold Qdiv. change (/ 100)%Q with (1#100)%Q. lra.
      * unfold Qdiv. change (/ 100)%Q with (1#100)%Q. lra.
    + intro Hhalf. rewrite Hperc, (Hsame Hhalf). reflexivity.
    + rewrite Hperc. set (k0 := round_half_even (q * 100 * 100)) in *.
      destruct Hclose as [Hc1 Hc2].
      assert (Hc1' : k0 <= k + 1) by lia.
      rewrite Zle_Qle in Hc1', Hc2. rewrite inject_Z_plus in Hc1', Hc2.
      change (inject_Z 1) with 1%Q in Hc1', Hc2.
      apply Qabs_Qle_condition. unfold Qdiv. change (/ 100)%Q with (1#100)%Q.
      split; lra.
    + intros [H0 H1].
      assert (HB : (0 < inject_Z extent)%Q).
      { change 0%Q with (inject_Z 0). rewrite <- Zlt_Qlt. lia. }
      assert (Hq0 : (0 <= q)%Q).
      { unfold q. apply Qle_shift_div_l; [assumption|].
        rewrite Qmult_0_l. change 0%Q with (inject_Z 0). rewrite <- Zle_Qle. lia. }
      assert (Hq1 : (q <= 1)%Q).
      { unfold q. apply Qle_shift_div_r; [assumption|].
        rewrite Qmult_1_l. rewrite <- Zle_Qle. lia. }
      assert (Hk0 : 0 <= k) by (now apply Hpos).
      assert (Hk10 : k <= 10000).
      { assert (Hq : (Qabs q == q)%Q) by (now apply Qabs_pos).
        unfold eps in *.
        assert (Hu : (inject_Z k < inject_Z 10001)%Q).
        { change (inject_Z 10001) with 10001%Q. lra. }
        rewrite <- Zlt_Qlt in Hu. lia. }
      split; [lia|].
      destruct (nearest_hundredth k) as [Hn1 Hn2].
      destruct (Z.eq_dec k 10000) as [->|Hne].
      { vm_compute. split; discriminate. }
      assert (Hk9 : k <= 9999) by lia.
      rewrite Zle_Qle in Hk0, Hk9.
      change (inject_Z 0) with 0%Q in Hk0. change (inject_Z 9999) with 9999%Q in Hk9.
      assert (Hr : (inject_Z k / 100 == inject_Z k * (1#100))%Q) by field.
      assert (Habs : (Qabs (inject_Z k / 100) == inject_Z k / 100)%Q).
      { apply Qabs_pos. lra. }
      unfold eps in *. split; lra.
Qed.

Lemma stored_percentage_witness :
  (exists k : Z,
     percent_double 1 3 = Some (Finite (nearest (inject_Z k / 100)))
     /\ (inject_Z k / 100 == 3333 # 100)%Q
     /\ (0 <= nearest (inject_Z k / 100) <= 100)%Q)
  /\ (exists k : Z,
        percent_double 23 160 = Some (Finite (nearest (inject_Z k / 100)))
        /\ (Qabs (inject_Z k / 100 - (1438 # 100)) <= 1 # 100)%Q).
Proof.
  split.
  - destruct (proj2 (stored_percentage 1 3)) as (k & Hk & _ & _ & Hsame & _ & Hrange).
    + discriminate.
    + vm_compute; discriminate.
    + vm_compute; discriminate.
    + exists k. split; [exact Hk|]. split.
      * rewrite (Hsame eq_refl). vm_compute. reflexivity.
      * apply Hrange. lia.
  - destruct (proj2 (stored_percentage 23 160)) as (k & Hk & _ & _ & _ & Hclose & _).
    + discriminate.
    + vm_compute; discriminate.
    + vm_compute; discriminate.
    + exists k. split; [exact Hk|].
      assert (E : (percent 23 160 == 1438 # 100)%Q) by (vm_compute; reflexivity).
      rewrite <- E. exact Hclose.
Defined.

(** At a tie the two computations can differ: 23 / 160 * 100 is 14.375
    exactly, which rounds to 14.38, while the product of the doubles is
    just below it and the stored value is the double nearest to
    14.37. *)
Example percent_double_below_a_tie :
  halfway 23 160 = true
  /\ percent_double 23 160 = Some (Finite (nearest (inject_Z 1437 / 100)))
  /\ (percent 23 160 == 1438 # 100)%Q.
Proof. split; [|split]; vm_compute; reflexivity. Qed.

(** *** Boxes inside the viewport *)

Lemma same_fraction_eq (x y : Q) : same_fraction x y = true -> x = y.
Proof.
  unfold same_fraction. rewrite andb_true_iff, Z.eqb_eq, Pos.eqb_eq.
  destruct x, y. cbn. intros [-> ->]. reflexivity.
Qed.

Lemma listed_in (p : Z * Z) (l : list (Z * Z)) : listed p l = true -> In p l.
Proof.
  unfold listed. rewrite existsb_exists. intros (q & Hq & Hsame).
  unfold same_pair in Hsame. rewrite andb_true_iff, !Z.eqb_eq in Hsame.
  destruct p, q. cbn in Hsame. destruct Hsame as [-> ->]. exact Hq.
Qed.

Lemma count_from_in (n : nat) : forall start x,
  start <= x < start + Z.of_nat n -> In x (count_from start n).
Proof.
  induction n as [|n IH]; intros start x Hx; [lia|].
  cbn [count_from]. destruct (Z.eq_dec start x) as [->|Hne]; [now left|].
  right. apply IH. lia.
Qed.

Lemma viewport_pairs_in (offset extent : Z) :
  0 <= offset <= extent -> 0 < extent <= 1000 -> In (offset, extent) viewport_pairs.
Proof.
  intros Ho He. unfold viewport_pairs. apply in_flat_map.
  exists extent. split; [apply count_from_in; lia|].
  apply (in_map (fun o => (o, extent))). apply count_from_in. lia.
Qed.

Lemma shifted_pairs_halfway :
  forallb (fun p => halfway (fst p) (snd p)) (stored_below ++ stored_above) = true.
Proof. vm_compute. reflexivity. Qed.

Lemma viewport_ties_as_listed : forallb stored_as_listed viewport_ties = true.
Proof. vm_compute. reflexivity. Qed.

Lemma viewport_tie_stored (offset extent : Z) :
  0 <= offset <= extent -> 0 < extent <= 1000 -> halfway offset extent = true ->
  stored_as_listed (offset, extent) = true.
Proof.
  intros Ho He Hh. pose proof viewport_ties_as_listed as Hall.
  rewrite forallb_forall in Hall. apply Hall.
  unfold viewport_ties. apply (proj2 (filter_In _ _ _)).
  split; [now apply viewport_pairs_in|exact Hh].
Qed.

Lemma shift_only_halfway (offset extent : Z) :
  halfway offset extent = false -> hundredths_shift offset extent = 0.
Proof.
  intro Hh. pose proof shifted_pairs_halfway as Hall.
  rewrite forallb_forall in Hall.
  assert (Hno : forall l, incl l (stored_below ++ stored_above) ->
                          listed (offset, extent) l = false).
  { intros l Hl. destruct (listed (offset, extent) l) eqn:E; [|reflexivity].
    apply listed_in in E. specialize (Hall _ (Hl _ E)). cbn in Hall. congruence. }
  unfold hundredths_shift.
  rewrite (Hno stored_below), (Hno stored_above); [reflexivity| |].
  - apply incl_appr, incl_refl.
  - apply incl_appl, incl_refl.
Qed.

(** Boxes inside the viewport.  For an offset between 0 and an extent
    of at most 1000 the stored percentage is the double nearest to a
    whole number of hundredths.  That number is the exact ratio
    [offset / extent * 100] rounded to two decimals, ties to the even
    hundredth, for all pairs but 41: for the 24 pairs of [stored_below]
    it is one hundredth less, for the 17 pairs of [stored_above] one
    hundredth more. *)
Theorem viewport_percentages (offset extent : Z) :
  0 <= offset <= extent -> 0 < extent <= 1000 ->
  exists k : Z,
    percent_double offset extent = Some (Finite (nearest (inject_Z k / 100)))
    /\ (inject_Z k / 100
        == percent offset extent + inject_Z (hundredths_shift offset extent) / 100)%Q
    /\ (hundredths_shift offset extent <> 0 -> halfway offset extent = true)
    /\ (length stored_below = 24 /\ length stored_above = 17)%nat.
Proof.
  intros Ho He.
  assert (Hb : extent <> 0) by lia.
  assert (Hperc : (percent offset extent
                   == inject_Z (round_half_even
                                  (inject_Z offset / inject_Z extent * 100 * 100)) / 100)%Q).
  { unfold percent. pose proof Hb as Hb'. apply Z.eqb_neq in Hb'. rewrite Hb'.
    reflexivity. }
  assert (Hshift : hundredths_shift offset extent <> 0 -> halfway offset extent = true).
  { intro Hs. destruct (halfway offset extent) eqn:E; [reflexivity|].
    now apply shift_only_halfway in E. }
  destruct (halfway offset extent) eqn:Hh.
  - pose proof (viewport_tie_stored offset extent Ho He Hh) as Hall.
    unfold stored_as_listed in Hall.
    destruct (percent_double offset extent) as [[v| |]|] eqn:Ep; try discriminate.
    apply same_fraction_eq in Hall.
    eexists. split; [rewrite Hall; reflexivity|].
    split; [|split; [assumption|split; reflexivity]].
    rewrite Hperc, inject_Z_plus. field.
  - destruct (Z.eq_dec offset 0) as [->|Ha].
    + exists 0. split; [now apply percent_double_zero|].
      split; [|split; [assumption|split; reflexivity]].
      rewrite (shift_only_halfway _ _ Hh), (percent_zero extent Hb). reflexivity.
    + destruct (percent_double_nonzero offset extent Ha Hb) as (k & Hk & _ & Hsame & _).
      * apply Z.le_trans with 1000; [lia|]. vm_compute. discriminate.
      * apply Z.le_trans with 1000; [lia|]. vm_compute. discriminate.
      * exists k. split; [exact Hk|].
        split; [|split; [assumption|split; reflexivity]].
        rewrite (shift_only_halfway _ _ Hh), Hperc, (Hsame Hh).
        unfold Qdiv. change (inject_Z 0) with 0%Q. ring.
Qed.

Lemma viewport_percentages_witness :
  (exists k : Z,
     percent_double 23 160 = Some (Finite (nearest (inject_Z k / 100)))
     /\ (inject_Z k / 100 == 1437 # 100)%Q)
  /\ (exists k : Z,
        percent_double 49 160 = Some (Finite (nearest (inject_Z k / 100)))
        /\ (inject_Z k / 100 == 3063 # 100)%Q)
  /\ (exists k : Z,
        percent_double 1 8 = Some (Finite (nearest (inject_Z k / 100)))
        /\ (inject_Z k / 100 == 1250 # 100)%Q).
Proof.
  split; [|split].
  - destruct (viewport_percentages 23 160) as (k & Hk & Hv & _); [lia|lia|].
    exists k. split; [exact Hk|]. rewrite Hv. vm_compute. reflexivity.
  - destruct (viewport_percentages 49 160) as (k & Hk & Hv & _); [lia|lia|].
    exists k. split; [exact Hk|]. rewrite Hv. vm_compute. reflexivity.
  - destruct (viewport_percentages 1 8) as (k & Hk & Hv & _); [lia|lia|].
    exists k. split; [exact Hk|]. rewrite Hv. vm_compute. reflexivity.
Defined.

End Float64Properties.
